(** * sow-generator: retrieval and indexing core

    A shallow embedding of the retrieval-and-indexing subsystem of the
    repository:

    - [src/retriever/rag-retriever.js]: [RagRetriever.cosineSimilarity],
      [RagRetriever.findSimilar], [RagRetriever.filterResults],
      [RagRetriever.findSimilarByRequirements] with
      [buildQueryFromRequirements], and [RagRetriever.getIndexStats];
    - the Google Drive indexer (class [GDriveIndexer]) and the directory
      indexer (class [SowIndexer]): their per-document pipelines, their run
      loops and their filename fallbacks, the listing of the files of a
      folder or of a directory tree, and [saveIndex];
    - [SowGenerator.generateFilename] of [src/index.js], [parseTranscript]
      and [parseJson] of [src/utils/pdf-parser.js], and the [stats] and
      [search] commands of the command line.

    JavaScript numbers are IEEE-754 binary64 values; they are modelled by
    Rocq's primitive floats, which implement the same format with the same
    rounding.  Strings are sequences of 8-bit code units.  An object field
    that may be missing is an [option].  The external services (the Drive
    client, the language model, the embedding model, the document parsers,
    Node's [path] module) are records of functions handed to the code that
    calls them, as the classes hold them in [this.gemini] and [this.drive].
    The records of the index have typed fields; the answers of the
    language model, which the indexers do not check, are also followed as
    untyped values where they decide whether a file is counted as failed.

    The first part of the file is the model, the second part its
    properties. *)

From Stdlib Require Import ZArith Floats Ascii.
From stdpp Require Import base option list strings sorting pretty gmap.

(* [naive_solver] clears hypotheses that may already be gone. *)
Set Warnings "-clear-no-such-hyp".

(** * Part I: the model *)

(** ** Numbers *)

Module Num.

Local Open Scope float_scope.

(** [ToNumber] on a field that may be [undefined]. *)
Definition of_field (o : option float) : float :=
  match o with
  | Some x => x
  | None => nan
  end.

(** [x === 0] on numbers: true for both zeros, false for NaN. *)
Definition is_zero (x : float) : bool := x =? 0.


(** The smallest exponent and the exponent function of the binary64
    format, and the results of a rounding that carry the sign [s] and are
    not zero. *)
Abbreviation emin64 := (SpecFloat.emin prec emax).
Abbreviation fexp64 := (SpecFloat.fexp prec emax).

Definition signed (s : bool) (r : spec_float) : Prop :=
  r = S754_infinity s ∨ ∃ m e, r = S754_finite s m e.

End Num.

(** ** Outcomes of calls that may throw *)

Inductive outcome (A : Type) : Type :=
| Thrown : outcome A
| Returned : A → outcome A.

Arguments Thrown {A}.
Arguments Returned {A} _.

#[global] Instance outcome_ret : MRet outcome := λ A, Returned.

#[global] Instance outcome_bind : MBind outcome := λ A B k o,
  match o with
  | Thrown => Thrown
  | Returned a => k a
  end.

(** ** Vector math

    [RagRetriever.cosineSimilarity] (rag-retriever.js, lines 99-119). *)

(** A vector argument: [None] is [undefined] or [null], [Some l] an array
    of numbers (an empty array is truthy in JavaScript). *)
Definition vec : Type := option (list float).

Module Vector.

Local Open Scope float_scope.

(** The three accumulators of the loop. *)
Record sums : Type := Sums {
  dotProduct : float;
  normA : float;
  normB : float;
}.

(** [vecA[i]]: reading past the end yields [undefined], which the
    arithmetic turns into NaN. *)
Definition at_index (v : list float) (i : nat) : float :=
  Num.of_field (v !! i).

(** One iteration of [for (let i = 0; i < vecA.length; i++)]. *)
Definition loop_body (vecA vecB : list float) (s : sums) (i : nat) : sums :=
  {| dotProduct := dotProduct s + at_index vecA i * at_index vecB i;
     normA := normA s + at_index vecA i * at_index vecA i;
     normB := normB s + at_index vecB i * at_index vecB i |}.

Definition loop (vecA vecB : list float) : sums :=
  foldl (loop_body vecA vecB) (Sums 0 0 0) (seq 0 (length vecA)).

Definition cosineSimilarity (vecA vecB : vec) : float :=
  match vecA, vecB with
  | Some a, Some b =>
      if negb (length a =? length b)%nat then 0
      else
        let s := loop a b in
        if Num.is_zero (normA s) || Num.is_zero (normB s) then 0
        else dotProduct s / (sqrt (normA s) * sqrt (normB s))
  | _, _ => 0
  end.

(** The mathematical reading of the formula, for comparison with the
    loop: the dot product summed from the first coordinate on, and the
    Euclidean norm. *)
Definition dot (a b : list float) : float :=
  foldl (λ acc xy, acc + xy.1 * xy.2) 0 (zip a b).


End Vector.

(** ** Strings

    The [String] and [RegExp] primitives the filename fallbacks use. *)

Module Str.

Local Open Scope char_scope.

Definition code (c : ascii) : nat := nat_of_ascii c.

(** [\d] *)
Definition is_digit (c : ascii) : bool :=
  (48 <=? code c)%nat && (code c <=? 57)%nat.

(** [\s] (and the characters [trim] removes), among 8-bit code units:
    tab, line feed, vertical tab, form feed, carriage return, space and
    the no-break space. *)
Definition is_space (c : ascii) : bool :=
  ((9 <=? code c)%nat && (code c <=? 13)%nat)
  || (code c =? 32)%nat || (code c =? 160)%nat.

(** The character class [[_\-\s]]. *)
Definition is_separator (c : ascii) : bool :=
  (code c =? 95)%nat || (code c =? 45)%nat || is_space c.

(** [toLowerCase] on one code unit: the ASCII capitals and the Latin-1
    capitals (192 to 222, except the multiplication sign 215). *)
Definition lower_char (c : ascii) : ascii :=
  let n := code c in
  if ((65 <=? n)%nat && (n <=? 90)%nat)
     || ((192 <=? n)%nat && (n <=? 222)%nat && negb (n =? 215)%nat)
  then ascii_of_nat (n + 32)
  else c.

Fixpoint toLowerCase (s : string) : string :=
  match s with
  | EmptyString => EmptyString
  | String c s' => String (lower_char c) (toLowerCase s')
  end.

Fixpoint all_digits (s : string) : bool :=
  match s with
  | EmptyString => true
  | String c s' => is_digit c && all_digits s'
  end.

(** [/^\d+$/] *)
Definition is_number (s : string) : bool :=
  match s with
  | EmptyString => false
  | _ => all_digits s
  end.

(** [/^v\d$/i]: the letter v and exactly one digit. *)
Definition is_v_digit (s : string) : bool :=
  match s with
  | String c (String d EmptyString) =>
      bool_decide (lower_char c = "v") && is_digit d
  | _ => false
  end.

(** [s.split(/[_\-\s]+/)].  [in_run] tells that the previous character
    belonged to a run of separators; entering a run closes the token
    being read. *)
Fixpoint split_from (in_run : bool) (s : string) : list string :=
  match s with
  | EmptyString => [EmptyString]
  | String c s' =>
      if is_separator c then
        if in_run then split_from true s'
        else EmptyString :: split_from true s'
      else
        match split_from false s' with
        | t :: ts => String c t :: ts
        | [] => [String c EmptyString]
        end
  end.

Definition split_separators (s : string) : list string := split_from false s.

(** [parts.join(sep)] *)
Fixpoint join (sep : string) (parts : list string) : string :=
  match parts with
  | [] => EmptyString
  | [p] => p
  | p :: ps => p +:+ sep +:+ join sep ps
  end.

(** [s.substring(0, n)] *)
Fixpoint substring0 (n : nat) (s : string) : string :=
  match n, s with
  | S n', String c s' => String c (substring0 n' s')
  | _, _ => EmptyString
  end.

Definition ends_with (suffix s : string) : bool :=
  let n := String.length s in
  let k := String.length suffix in
  (k <=? n)%nat && bool_decide (String.substring (n - k) k s = suffix).

Definition drop_last (k : nat) (s : string) : string :=
  substring0 (String.length s - k) s.

(** [fileName.replace(/\.docx?$|\.pdf$/i, '')]: one of the three
    extensions, in any letter case, is removed from the end. *)
Definition strip_extension (fileName : string) : string :=
  let lower := toLowerCase fileName in
  if ends_with ".docx" lower then drop_last 5 fileName
  else if ends_with ".doc" lower then drop_last 4 fileName
  else if ends_with ".pdf" lower then drop_last 4 fileName
  else fileName.

Fixpoint trim_start (s : string) : string :=
  match s with
  | String c s' => if is_space c then trim_start s' else s
  | EmptyString => EmptyString
  end.

Fixpoint trim_end (s : string) : string :=
  match s with
  | EmptyString => EmptyString
  | String c s' =>
      match trim_end s' with
      | EmptyString => if is_space c then EmptyString else String c EmptyString
      | t => String c t
      end
  end.

(** [s.trim()] *)
Definition trim (s : string) : string := trim_end (trim_start s).

(** Truthiness of a value that is a string or [undefined]/[null]. *)
Definition truthy (o : option string) : bool :=
  match o with
  | Some (String _ _) => true
  | _ => false
  end.

(** [a || b] on strings. *)
Definition or_else (o : option string) (default : string) : string :=
  match o with
  | Some (String c s) => String c s
  | _ => default
  end.

(** Interpolation of a field into a template literal. *)
Definition interpolate (o : option string) : string :=
  match o with
  | Some s => s
  | None => "undefined"
  end.

End Str.

(** ** Records

    The metadata object of a document: the nine fields the language model
    is asked for.  A field the model left out is [None]. *)

Module Meta.

Record t : Type := Make {
  customer : option string;
  project : option string;
  industry : option string;
  modules : option (list string);
  integrations : option (list string);
  features : option (list string);
  complexity : option string;
  summary : option string;
  keywords : option (list string);
}.

End Meta.

(** An entry of the index.  The source builds it with an object spread
    ([{ id, ..., ...metadata }]), so the metadata fields sit next to the
    others; [meta] groups them here.  [fileName] to [modifiedTime] are set
    by the Drive indexer, [filePath] and [textLength] by the directory
    indexer, [score] by the retriever. *)

Module Doc.

Record t : Type := Make {
  id : string;
  fileName : option string;
  webViewLink : option string;
  createdTime : option string;
  modifiedTime : option string;
  filePath : option string;
  meta : Meta.t;
  embedding : vec;
  textLength : option nat;
  score : option float;
}.

Definition industry (doc : t) : option string := Meta.industry (meta doc).
Definition complexity (doc : t) : option string := Meta.complexity (meta doc).
Definition features (doc : t) : option (list string) :=
  Meta.features (meta doc).

(** [{ ...doc, score: s }] *)
Definition with_score (doc : t) (s : float) : t :=
  {| id := id doc; fileName := fileName doc; webViewLink := webViewLink doc;
     createdTime := createdTime doc; modifiedTime := modifiedTime doc;
     filePath := filePath doc; meta := meta doc; embedding := embedding doc;
     textLength := textLength doc; score := Some s |}.

(** [({ embedding, ...rest }) => rest] *)
Definition without_embedding (doc : t) : t :=
  {| id := id doc; fileName := fileName doc; webViewLink := webViewLink doc;
     createdTime := createdTime doc; modifiedTime := modifiedTime doc;
     filePath := filePath doc; meta := meta doc; embedding := None;
     textLength := textLength doc; score := score doc |}.

End Doc.

(** ** Collaborators *)

(** [GeminiClient].  [generateEmbedding] throws when the embedding model
    fails.  [generateMetadata document content] stands for the [try] block
    of [extractMetadata]: the model call on the prompt built from the
    document name and the truncated text, the search for a JSON span in
    the answer and [JSON.parse]; it is [None] when that block throws or
    finds no JSON.  An answer that is read is taken to have the shape the
    prompt asks for: an object whose text fields are strings and whose
    list fields are arrays of strings, each of them possibly missing, and
    that has no other member.  The source does not check the shape: on
    another answer [createEmbeddingText] can throw (the answer [null], a
    list field that is no array) and the spread [...metadata] can
    redefine [id] or [fileName].  Which files are counted as failed on
    answers of any shape is followed in [Answers], below; the records
    stored for them are outside the model. *)
Record Gemini : Type := {
  generateEmbedding : string → outcome vec;
  generateMetadata : string → string → option Meta.t;
}.

(** The Drive client: [files.export] as plain text and [files.get]. *)
Record Drive : Type := {
  files_export : string → outcome (option string);
  files_get : string → outcome unit;
}.

(** The document parsers of the directory indexer (mammoth, pdf-parse)
    behind [extractTextFromDocx] and [extractTextFromPdf]. *)
Record Parsers : Type := {
  extractTextFromDocx : string → outcome (option string);
  extractTextFromPdf : string → outcome (option string);
}.

(** Node's [path] module: [path.extname], [path.basename(p)] and
    [path.basename(p, ext)]. *)
Record Path : Type := {
  extname : string → string;
  basename : string → string;
  basename_without : string → string → string;
}.

(** The two files [saveIndex] writes: the full index and the index
    without embeddings. *)
Record Snapshot : Type := {
  full : list Doc.t;
  light : list Doc.t;
}.

(** [saveIndex] (both indexers): what one call writes. *)
Definition saveIndex (index : list Doc.t) : Snapshot :=
  {| full := index; light := Doc.without_embedding <$> index |}.

(** [createEmbeddingText] (both indexers), on metadata of the shape the
    prompt asks for: [?.join] is applied to arrays and to missing
    fields only. *)
Definition join_field (o : option (list string)) : string :=
  Str.interpolate (Str.join ", " <$> o).

Definition createEmbeddingText (metadata : Meta.t) : string :=
  let nl := String (ascii_of_nat 10) EmptyString in
  Str.trim
    (nl +:+ "Customer: " +:+ Str.interpolate (Meta.customer metadata) +:+
     nl +:+ "Project: " +:+ Str.interpolate (Meta.project metadata) +:+
     nl +:+ "Industry: " +:+ Str.interpolate (Meta.industry metadata) +:+
     nl +:+ "Features: " +:+ join_field (Meta.features metadata) +:+
     nl +:+ "Integrations: " +:+ join_field (Meta.integrations metadata) +:+
     nl +:+ "Modules: " +:+ join_field (Meta.modules metadata) +:+
     nl +:+ "Summary: " +:+ Str.interpolate (Meta.summary metadata) +:+
     nl +:+ "Keywords: " +:+ join_field (Meta.keywords metadata) +:+
     nl +:+ "    ").

(** ** Retriever

    [RagRetriever] (rag-retriever.js). *)

Module Criteria.

(** The [criteria] argument of [filterResults]. *)
Record t : Type := Make {
  industry : option string;
  minComplexity : option string;
  requiredFeatures : option (list string);
}.

End Criteria.

Module Retriever.

(** [arr.slice(0, end)] for an integer [end]: a negative [end] counts
    from the end of the array. *)
Definition slice0 {A : Type} (l : list A) (end_ : Z) : list A :=
  let len := Z.of_nat (length l) in
  let final :=
    if (end_ <? 0)%Z then Z.max (len + end_) 0 else Z.min end_ len in
  take (Z.to_nat final) l.

(** [arr.sort(compareFn)].  Since ES2019 the language specifies the sort
    to be stable (the source uses [?.], so it runs on such engines only):
    with a consistent comparator, an element ends up behind another one
    only when the comparator is positive on them (a NaN counts as zero).
    Insertion realises that order. *)
Definition comes_after {A : Type} (compareFn : A → A → float) (x y : A)
    : bool :=
  (0 <? compareFn x y)%float.

Fixpoint insert_sorted {A : Type} (compareFn : A → A → float) (x : A)
    (l : list A) : list A :=
  match l with
  | [] => [x]
  | y :: l' =>
      if comes_after compareFn x y then y :: insert_sorted compareFn x l'
      else x :: l
  end.

Fixpoint sort {A : Type} (compareFn : A → A → float) (l : list A) : list A :=
  match l with
  | [] => []
  | x :: l' => insert_sorted compareFn x (sort compareFn l')
  end.

(** [doc.score], as the arithmetic reads it. *)
Definition score_of (doc : Doc.t) : float := Num.of_field (Doc.score doc).

(** [(a, b) => b.score - a.score] *)
Definition by_score (a b : Doc.t) : float :=
  (score_of b - score_of a)%float.

(** Every score is a finite number.  Then no difference of two scores is
    NaN and the comparator is consistent, which is the condition under
    which the language fixes the outcome of [sort]. *)
Definition comparable (docs : list Doc.t) : Prop :=
  Forall (λ doc, is_finite (score_of doc) = true) docs.

(** What consistency says of two scores: the sign of the difference
    tells which is the larger, and one of the two is at most the other. *)
Definition ordered_pair (x y : float) : Prop :=
  ((0 <? y - x) = (x <? y) ∧ (x <=? y) || (y <=? x) = true)%float.

(** [a] may stand before [b] in a list sorted by descending score. *)
Definition descending (a b : Doc.t) : Prop :=
  (score_of b <=? score_of a)%float = true.

(** The results of a query as the specification words them: at most
    [topK] of them, in descending order of score, none with an
    embedding. *)
Definition ranked_as_specified (topK : Z) (results : list Doc.t) : Prop :=
  (Z.of_nat (length results) ≤ topK)%Z
  ∧ StronglySorted descending results
  ∧ Forall (λ r, Doc.embedding r = None) results.

(** The documents whose score equals [s]. *)
Definition tied (s : float) (doc : Doc.t) : bool :=
  (score_of doc =? s)%float.

(** [this.index.map(doc => ({ ...doc, score: ... }))] *)
Definition similarities (queryEmbedding : vec) (index : list Doc.t)
    : list Doc.t :=
  (λ doc,
     Doc.with_score doc
       (Vector.cosineSimilarity queryEmbedding (Doc.embedding doc)))
  <$> index.

(** A record the query cannot be compared with: its embedding is absent,
    or it has not the length of the query embedding. *)
Definition unscorable (queryEmbedding : vec) (doc : Doc.t) : Prop :=
  Doc.embedding doc = None
  ∨ length <$> Doc.embedding doc ≠ length <$> queryEmbedding.

(** [findSimilar(queryText, topK)] on [this.index]; a rejected promise is
    [Thrown]. *)
Definition findSimilar (gemini : Gemini) (index : list Doc.t)
    (queryText : string) (topK : Z) : outcome (list Doc.t) :=
  if (length index =? 0)%nat then Returned []
  else
    queryEmbedding ← generateEmbedding gemini queryText;
    Returned
      (Doc.without_embedding
         <$> slice0 (sort by_score (similarities queryEmbedding index)) topK).

(** The default of the [topK] parameter. *)
Definition defaultTopK : Z := 5.

(** What reading a key of the object literal
    [{ low: 1, medium: 2, high: 3 }] yields, as the comparison [<] sees
    it: the number of an own property, or the string the comparison makes
    of a member the literal inherits from [Object.prototype], or
    [undefined]. *)
Inductive member : Type :=
| Ordinal (n : nat)
| Inherited (text : string)
| Undefined.

(** The members every object literal inherits from [Object.prototype],
    each with the string that [<] converts it to: for a function its
    source text as Node prints it, for the prototype object behind
    [__proto__] the result of its [toString]. *)
Definition prototype_members : list (string * string) :=
  [("constructor", "function Object() { [native code] }");
   ("__defineGetter__", "function __defineGetter__() { [native code] }");
   ("__defineSetter__", "function __defineSetter__() { [native code] }");
   ("hasOwnProperty", "function hasOwnProperty() { [native code] }");
   ("__lookupGetter__", "function __lookupGetter__() { [native code] }");
   ("__lookupSetter__", "function __lookupSetter__() { [native code] }");
   ("isPrototypeOf", "function isPrototypeOf() { [native code] }");
   ("propertyIsEnumerable",
    "function propertyIsEnumerable() { [native code] }");
   ("toString", "function toString() { [native code] }");
   ("valueOf", "function valueOf() { [native code] }");
   ("__proto__", "[object Object]");
   ("toLocaleString", "function toLocaleString() { [native code] }")].

Fixpoint member_text (members : list (string * string)) (key : string)
    : option string :=
  match members with
  | [] => None
  | (name, text) :: members' =>
      if decide (name = key) then Some text else member_text members' key
  end.

(** [complexityOrder[key]]; a missing field is the key [undefined]. *)
Definition complexityOrder (key : option string) : member :=
  match key with
  | None => Undefined
  | Some s =>
      if decide (s = "low") then Ordinal 1
      else if decide (s = "medium") then Ordinal 2
      else if decide (s = "high") then Ordinal 3
      else
        match member_text prototype_members s with
        | Some text => Inherited text
        | None => Undefined
        end
  end.

(** [s < t] on strings: the order of the code units, a proper prefix
    coming first. *)
Fixpoint text_lt (s t : string) : bool :=
  match s, t with
  | _, EmptyString => false
  | EmptyString, String _ _ => true
  | String a s', String b t' =>
      if (Str.code a <? Str.code b)%nat then true
      else if (Str.code b <? Str.code a)%nat then false
      else text_lt s' t'
  end.

(** [a < b] on such values.  Two strings are compared as strings.  In
    every other case both sides are converted to numbers, and [undefined]
    and the text of a member ("function ...", "[object Object]") convert
    to NaN, which makes the comparison false. *)
Definition js_lt (a b : member) : bool :=
  match a, b with
  | Ordinal x, Ordinal y => (x <? y)%nat
  | Inherited s, Inherited t => text_lt s t
  | _, _ => false
  end.

(** [doc.features?.includes(f)], as a condition. *)
Definition includes (features : option (list string)) (f : string) : bool :=
  match features with
  | Some l => bool_decide (f ∈ l)
  | None => false
  end.

(** The callback of [results.filter] in [filterResults]. *)
Definition passes (criteria : Criteria.t) (doc : Doc.t) : bool :=
  if Str.truthy (Criteria.industry criteria)
     && negb (bool_decide (Doc.industry doc = Criteria.industry criteria))
  then false
  else if Str.truthy (Criteria.minComplexity criteria)
          && js_lt (complexityOrder (Doc.complexity doc))
                   (complexityOrder (Criteria.minComplexity criteria))
  then false
  else
    match Criteria.requiredFeatures criteria with
    | Some required =>
        if negb (forallb (includes (Doc.features doc)) required) then false
        else true
    | None => true
    end.

Definition filterResults (results : list Doc.t) (criteria : Criteria.t)
    : list Doc.t :=
  filter (λ doc, passes criteria doc) results.

(** The criteria in words.  A criterion is given when its field is
    truthy (for the list of features: present). *)
Definition industry_matches (criteria : Criteria.t) (doc : Doc.t) : Prop :=
  Str.truthy (Criteria.industry criteria) →
  Doc.industry doc = Criteria.industry criteria.

Definition has_features (criteria : Criteria.t) (doc : Doc.t) : Prop :=
  ∀ required, Criteria.requiredFeatures criteria = Some required →
              required ⊆ default [] (Doc.features doc).

(** The pairs of a complexity and a threshold, both among the three
    levels, with the complexity the lower level. *)
Definition lower_levels : list (option string * option string) :=
  [(Some "low", Some "medium"); (Some "low", Some "high");
   (Some "medium", Some "high")].

(** The names of the members inherited from [Object.prototype], in the
    order in which [<] ranks the members. *)
Definition members_in_order : list string :=
  ["__proto__"; "constructor"; "__defineGetter__"; "__defineSetter__";
   "__lookupGetter__"; "__lookupSetter__"; "hasOwnProperty";
   "isPrototypeOf"; "propertyIsEnumerable"; "toLocaleString"; "toString";
   "valueOf"].

(** The keys of the table: its three own properties and the members it
    inherits. *)
Definition keys : list string :=
  ["low"; "medium"; "high"] ++ members_in_order.

(** [x] stands before [y] in [l]. *)
Fixpoint stands_before (x y : string) (l : list string) : bool :=
  match l with
  | [] => false
  | z :: l' =>
      if decide (z = x) then bool_decide (y ∈ l') else stands_before x y l'
  end.

(** The complexities a threshold removes: the lower levels when the
    threshold is a level, and the names of inherited members that rank
    before the threshold when the threshold is such a name. *)
Definition removed (complexity threshold : option string) : Prop :=
  (complexity, threshold) ∈ lower_levels
  ∨ ∃ c t, complexity = Some c ∧ threshold = Some t
           ∧ stands_before c t members_in_order = true.

(** The complexity criterion as the code applies it. *)
Definition not_below_threshold (criteria : Criteria.t) (doc : Doc.t)
    : Prop :=
  Str.truthy (Criteria.minComplexity criteria) →
  ¬ removed (Doc.complexity doc) (Criteria.minComplexity criteria).

(** The ordinal mapping of the specification: low 1, medium 2, high 3. *)
Definition ordinal (level : option string) : option nat :=
  if decide (level = Some "low") then Some 1
  else if decide (level = Some "medium") then Some 2
  else if decide (level = Some "high") then Some 3
  else None.

(** The complexity criterion as the specification words it: a result is
    kept when its ordinal is at least the threshold's. *)
Definition reaches_threshold (criteria : Criteria.t) (doc : Doc.t) : Prop :=
  Str.truthy (Criteria.minComplexity criteria) →
  ∃ d t, ordinal (Doc.complexity doc) = Some d
         ∧ ordinal (Criteria.minComplexity criteria) = Some t
         ∧ t ≤ d.

Definition satisfies (criteria : Criteria.t) (doc : Doc.t) : Prop :=
  industry_matches criteria doc
  ∧ not_below_threshold criteria doc
  ∧ has_features criteria doc.

Definition satisfies_as_specified (criteria : Criteria.t) (doc : Doc.t)
    : Prop :=
  industry_matches criteria doc
  ∧ reaches_threshold criteria doc
  ∧ has_features criteria doc.

(** The criteria with the complexity threshold left out. *)
Definition without_minComplexity (criteria : Criteria.t) : Criteria.t :=
  {| Criteria.industry := Criteria.industry criteria;
     Criteria.minComplexity := None;
     Criteria.requiredFeatures := Criteria.requiredFeatures criteria |}.

(** Criteria that consist of a complexity threshold only. *)
Definition only_minComplexity (threshold : option string) : Criteria.t :=
  {| Criteria.industry := None;
     Criteria.minComplexity := threshold;
     Criteria.requiredFeatures := None |}.

End Retriever.

(** ** The run summary and the state of a run

    [processed] and [failed] are the counters of the loop, [index] is
    [this.index], and [writes] lists what the calls of [saveIndex] wrote,
    oldest first. *)

Module Summary.

(** [{ processed, failed, total }] *)
Record t : Type := Make {
  processed : nat;
  failed : nat;
  total : nat;
}.

End Summary.

Record Run : Type := {
  index : list Doc.t;
  processed : nat;
  failed : nat;
  writes : list Snapshot;
}.

Definition start (index0 : list Doc.t) : Run :=
  {| index := index0; processed := 0; failed := 0; writes := [] |}.

Definition count_failure (st : Run) : Run :=
  {| index := index st; processed := processed st;
     failed := S (failed st); writes := writes st |}.

Definition save (st : Run) : Run :=
  {| index := index st; processed := processed st; failed := failed st;
     writes := writes st ++ [saveIndex (index st)] |}.

Definition summary (st : Run) (total : nat) : Summary.t :=
  {| Summary.processed := processed st; Summary.failed := failed st;
     Summary.total := total |}.

(** [st] continues [st0]: the index has grown at its end by as many
    records as were processed, the older records are untouched. *)
Definition continues (st0 st : Run) : Prop :=
  ∃ added,
    index st = index st0 ++ added
    ∧ processed st = processed st0 + length added.

(** The checkpoints of a run that started on [index0] with the policy of
    one save every fifty processed files: there is one write for every
    fifty processed files, and the k-th one holds the index as it was when
    the file number 50 k had been pushed. *)
Definition checkpointed (index0 : list Doc.t) (st : Run) : Prop :=
  length (index st) = length index0 + processed st
  ∧ length (writes st) = processed st `div` 50
  ∧ ∀ k snapshot,
      writes st !! k = Some snapshot →
      snapshot = saveIndex (take (length index0 + 50 * S k) (index st)).

(** ** The Google Drive indexer

    The listing of the folder ([authorize], [getAllSowFiles]) is an input
    of the model, and the file writes of [saveIndex] are taken to
    succeed. *)

Module DriveFile.

(** A file of the Drive listing. *)
Record t : Type := Make {
  id : string;
  name : string;
  mimeType : string;
  webViewLink : option string;
  createdTime : option string;
  modifiedTime : option string;
}.

End DriveFile.

Module GDriveIndexer.

(** [downloadGoogleDoc]: a failed export is logged and gives [null]. *)
Definition downloadGoogleDoc (drive : Drive) (fileId : string)
    : option string :=
  match files_export drive fileId with
  | Returned data => data
  | Thrown => None
  end.

(** [downloadFile]: only Google documents are exported; any other file is
    fetched and then dropped ([null]), whether the fetch fails or not. *)
Definition downloadFile (drive : Drive) (file : DriveFile.t) : option string :=
  if decide (DriveFile.mimeType file = "application/vnd.google-apps.document")
  then downloadGoogleDoc drive (DriveFile.id file)
  else
    match files_get drive (DriveFile.id file) with
    | Returned _ => None
    | Thrown => None
    end.

(** [/^(sow|scope|v\d|version|\d+|setup|inline)$/i] *)
Definition is_boilerplate (p : string) : bool :=
  bool_decide (Str.toLowerCase p ∈ ["sow"; "scope"; "version"; "setup"; "inline"])
  || Str.is_v_digit p || Str.is_number p.

Definition filename_tokens (fileName : string) : list string :=
  filter (λ p, negb (is_boilerplate p))
    (Str.split_separators (Str.strip_extension fileName)).

(** [extractMetadataFromFilename] *)
Definition extractMetadataFromFilename (fileName : string) : Meta.t :=
  let filtered := filename_tokens fileName in
  {| Meta.customer := Some (Str.or_else (head filtered) "Unknown");
     Meta.project := Some (Str.join " " filtered);
     Meta.industry := Some "unknown";
     Meta.modules := Some [];
     Meta.integrations := Some [];
     Meta.features := Some [];
     Meta.complexity := Some "medium";
     Meta.summary := Some "";
     Meta.keywords := Some filtered |}.

(** [extractMetadata] *)
Definition extractMetadata (gemini : Gemini) (text fileName : string)
    : Meta.t :=
  let truncatedText := Str.substring0 (150 * 100) text in
  match generateMetadata gemini fileName truncatedText with
  | Some metadata => metadata
  | None => extractMetadataFromFilename fileName
  end.

(** [text && text.length > 100] *)
Definition has_enough_text (text : option string) : bool :=
  match text with
  | Some t => (100 <? String.length t)%nat
  | None => false
  end.

(** The metadata of a file and the embedding assigned to it
    ([metadata.embedding = embedding]), when there is one. *)
Definition describe (gemini : Gemini) (drive : Drive) (file : DriveFile.t)
    : outcome (Meta.t * vec) :=
  let text := downloadFile drive file in
  if has_enough_text text then
    let metadata :=
      extractMetadata gemini (default "" text) (DriveFile.name file) in
    embedding ← generateEmbedding gemini (createEmbeddingText metadata);
    Returned (metadata, embedding)
  else Returned (extractMetadataFromFilename (DriveFile.name file), None).

(** The object pushed on [this.index]. *)
Definition record (file : DriveFile.t) (metadata : Meta.t) (embedding : vec)
    : Doc.t :=
  {| Doc.id := DriveFile.id file;
     Doc.fileName := Some (DriveFile.name file);
     Doc.webViewLink := DriveFile.webViewLink file;
     Doc.createdTime := DriveFile.createdTime file;
     Doc.modifiedTime := DriveFile.modifiedTime file;
     Doc.filePath := None;
     Doc.meta := metadata;
     Doc.embedding := embedding;
     Doc.textLength := None;
     Doc.score := None |}.

(** [this.index.push(...); processed++;] and the save every fiftieth
    processed file. *)
Definition push (st : Run) (doc : Doc.t) : Run :=
  let pushed :=
    {| index := index st ++ [doc]; processed := S (processed st);
       failed := failed st; writes := writes st |} in
  if (processed pushed mod 50 =? 0)%nat then save pushed else pushed.

(** The body of [for (const file of files)]. *)
Definition step (gemini : Gemini) (drive : Drive) (st : Run)
    (file : DriveFile.t) : Run :=
  match describe gemini drive file with
  | Returned (metadata, embedding) => push st (record file metadata embedding)
  | Thrown => count_failure st
  end.

(** [indexFolder], from the list of files the listing returned: the state
    after the final save, and the summary returned. *)
Definition indexFolder (gemini : Gemini) (drive : Drive)
    (index0 : list Doc.t) (files : list DriveFile.t) : Run * Summary.t :=
  let st := save (foldl (step gemini drive) (start index0) files) in
  (st, summary st (length files)).

End GDriveIndexer.

(** ** The directory indexer *)

Module SowIndexer.

(** [/^(sow|scope|v\d|version|\d+)$/] on the lowered token. *)
Definition is_boilerplate (p : string) : bool :=
  let l := Str.toLowerCase p in
  bool_decide (l ∈ ["sow"; "scope"; "version"])
  || Str.is_v_digit l || Str.is_number l.

(** [extractCustomerFromFilename] *)
Definition extractCustomerFromFilename (path : Path) (filePath : string)
    : string :=
  let filename := basename_without path filePath (extname path filePath) in
  let parts := Str.split_separators filename in
  let filtered := filter (λ p, negb (is_boilerplate p)) parts in
  Str.or_else (head filtered) "Unknown".

(** The object [extractMetadata] returns when the model gave nothing. *)
Definition basicMetadata (path : Path) (filePath : string) : Meta.t :=
  {| Meta.customer := Some (extractCustomerFromFilename path filePath);
     Meta.project :=
       Some (basename_without path filePath (extname path filePath));
     Meta.industry := Some "unknown";
     Meta.modules := Some [];
     Meta.integrations := Some [];
     Meta.features := Some [];
     Meta.complexity := Some "medium";
     Meta.summary := Some "";
     Meta.keywords := Some [] |}.

(** [extractMetadata] *)
Definition extractMetadata (gemini : Gemini) (path : Path)
    (text filePath : string) : Meta.t :=
  let truncatedText := Str.substring0 (150 * 100) text in
  match generateMetadata gemini (basename path filePath) truncatedText with
  | Some metadata => metadata
  | None => basicMetadata path filePath
  end.

(** [!text || text.length < 100] *)
Definition too_short (text : option string) : bool :=
  match text with
  | Some t => (String.length t <? 100)%nat
  | None => true
  end.

(** [processSowFile] after the text has been read. *)
Definition processText (gemini : Gemini) (path : Path) (filePath : string)
    (text : option string) : outcome (option Doc.t) :=
  if too_short text then Returned None
  else
    let metadata := extractMetadata gemini path (default "" text) filePath in
    embedding ← generateEmbedding gemini (createEmbeddingText metadata);
    Returned
      (Some {| Doc.id := basename path filePath;
               Doc.fileName := None;
               Doc.webViewLink := None;
               Doc.createdTime := None;
               Doc.modifiedTime := None;
               Doc.filePath := Some filePath;
               Doc.meta := metadata;
               Doc.embedding := embedding;
               Doc.textLength := String.length <$> text;
               Doc.score := None |}).

(** [processSowFile]: [null] is [Returned None]. *)
Definition processSowFile (gemini : Gemini) (path : Path) (parsers : Parsers)
    (filePath : string) : outcome (option Doc.t) :=
  let ext := Str.toLowerCase (extname path filePath) in
  if decide (ext = ".docx") then
    text ← extractTextFromDocx parsers filePath;
    processText gemini path filePath text
  else if decide (ext = ".pdf") then
    text ← extractTextFromPdf parsers filePath;
    processText gemini path filePath text
  else Returned None.

(** [this.index.push(sowData); processed++;] the fiftieth file is only
    logged. *)
Definition push (st : Run) (doc : Doc.t) : Run :=
  {| index := index st ++ [doc]; processed := S (processed st);
     failed := failed st; writes := writes st |}.

(** The body of [for (const file of files)]. *)
Definition step (gemini : Gemini) (path : Path) (parsers : Parsers)
    (st : Run) (file : string) : Run :=
  match processSowFile gemini path parsers file with
  | Returned (Some sowData) => push st sowData
  | Returned None => st
  | Thrown => count_failure st
  end.

(** [indexDirectory], from the list of files [findSowFiles] returned. *)
Definition indexDirectory (gemini : Gemini) (path : Path) (parsers : Parsers)
    (index0 : list Doc.t) (files : list string) : Run * Summary.t :=
  let st := save (foldl (step gemini path parsers) (start index0) files) in
  (st, summary st (length files)).

End SowIndexer.

(** ** Tokens and separators

    What [split_separators] is meant to return, for comparison with what
    it computes: the pieces of the string between its runs of
    separators. *)

Module Tokens.

Fixpoint all_chars (p : ascii → bool) (s : string) : bool :=
  match s with
  | EmptyString => true
  | String c s' => p c && all_chars p s'
  end.

(** A token: no separator in it. *)
Definition separator_free (s : string) : Prop :=
  all_chars (λ c, negb (Str.is_separator c)) s = true.

(** A run of separators: separators only, at least one. *)
Definition separator_run (s : string) : Prop :=
  s ≠ EmptyString ∧ all_chars Str.is_separator s = true.

(** The string made of the tokens with the runs between them. *)
Fixpoint weave (tokens runs : list string) : string :=
  match tokens, runs with
  | t :: ts, r :: rs => t +:+ r +:+ weave ts rs
  | t :: _, [] => t
  | [], _ => EmptyString
  end.

(** Only the first and the last token can be empty: the first when the
    string starts with a separator, the last when it ends with one. *)
Definition inner_nonempty (tokens : list string) : Prop :=
  ∀ i t, tokens !! i = Some t → t = EmptyString →
         i = 0 ∨ S i = length tokens.

(** Only the last token can be empty. *)
Definition front_nonempty (tokens : list string) : Prop :=
  ∀ i t, tokens !! i = Some t → t = EmptyString → S i = length tokens.

(** [tokens] are the pieces of [s] between its runs of separators. *)
Definition tokens_of (s : string) (tokens : list string) : Prop :=
  ∃ runs,
    s = weave tokens runs
    ∧ length tokens = S (length runs)
    ∧ Forall separator_run runs
    ∧ Forall separator_free tokens
    ∧ inner_nonempty tokens.

(** A small letter of the ASCII alphabet. *)
Definition is_small (c : ascii) : bool :=
  (97 <=? Str.code c)%nat && (Str.code c <=? 122)%nat.

(** [s] is [word] up to the case of its letters; [word] is written in
    small letters (and signs), and a capital letter stands 32 code units
    before its small letter. *)
Fixpoint caseless (word s : string) : Prop :=
  match word, s with
  | EmptyString, EmptyString => True
  | String w word', String c s' =>
      (c = w ∨ (is_small w = true ∧ Str.code c + 32 = Str.code w))
      ∧ caseless word' s'
  | _, _ => False
  end.

(** An extension the Drive fallback removes. *)
Definition extension (e : string) : Prop :=
  ∃ w, w ∈ [".doc"; ".docx"; ".pdf"] ∧ caseless w e.

(** [base] is [name] without its extension [.doc], [.docx] or [.pdf],
    when it ends with one, and [name] itself when it does not. *)
Definition without_extension (name base : string) : Prop :=
  (∃ e, extension e ∧ name = base +:+ e)
  ∨ (name = base ∧ ∀ b e, extension e → name ≠ b +:+ e).

Definition digits : list ascii :=
  ["0"; "1"; "2"; "3"; "4"; "5"; "6"; "7"; "8"; "9"]%char.

(** The letter v, small or capital, followed by one digit. *)
Definition v_digit (t : string) : Prop :=
  ∃ v d, t = String v (String d EmptyString)
         ∧ v ∈ ["v"; "V"]%char ∧ d ∈ digits.

(** A bare number: digits only, at least one. *)
Definition number (t : string) : Prop :=
  t ≠ EmptyString ∧ all_chars (λ c, bool_decide (c ∈ digits)) t = true.

(** The tokens a fallback discards: the given words in any letter case,
    the versions and the bare numbers. *)
Definition discarded (words : list string) (t : string) : Prop :=
  (∃ w, w ∈ words ∧ caseless w t) ∨ v_digit t ∨ number t.

(** [kept] holds the tokens of [tokens] that are not discarded, in their
    order. *)
Inductive remaining (discard : string → Prop)
    : list string → list string → Prop :=
| remaining_nil : remaining discard [] []
| remaining_discard t tokens kept :
    discard t → remaining discard tokens kept →
    remaining discard (t :: tokens) kept
| remaining_keep t tokens kept :
    ¬ discard t → remaining discard tokens kept →
    remaining discard (t :: tokens) (t :: kept).

(** A character that [toLowerCase] leaves as it is and that is the lower
    case of its capital only: a small letter, a digit or a sign of the
    ASCII alphabet. *)
Definition is_lowered (c : ascii) : bool :=
  (Str.code c <? 65)%nat
  || ((90 <? Str.code c)%nat && (Str.code c <? 128)%nat).

End Tokens.

(** ** The fallback in the words of the specification

    For comparison with the two fallbacks of the code: the name is split
    on the separators, the tokens "sow", "scope", "v" with a digit and the
    bare numbers are discarded, the first remaining token is the customer
    ("Unknown" when none remains), and the remaining tokens are the
    project (joined) and the keywords. *)

Module SpecFallback.

Definition is_boilerplate (p : string) : bool :=
  bool_decide (Str.toLowerCase p ∈ ["sow"; "scope"])
  || Str.is_v_digit p || Str.is_number p.

Definition fallback (sourceName : string) : Meta.t :=
  let tokens :=
    filter (λ p, negb (is_boilerplate p)) (Str.split_separators sourceName) in
  {| Meta.customer := Some (default "Unknown" (head tokens));
     Meta.project := Some (Str.join " " tokens);
     Meta.industry := Some "unknown";
     Meta.modules := Some [];
     Meta.integrations := Some [];
     Meta.features := Some [];
     Meta.complexity := Some "medium";
     Meta.summary := Some "";
     Meta.keywords := Some tokens |}.

End SpecFallback.

(** ** Sample data

    Concrete collaborators and records on which the properties of the
    second part are evaluated. *)

Module Sample.

Definition no_metadata : Meta.t :=
  {| Meta.customer := None; Meta.project := None; Meta.industry := None;
     Meta.modules := None; Meta.integrations := None; Meta.features := None;
     Meta.complexity := None; Meta.summary := None; Meta.keywords := None |}.

(** An index entry with an id, an embedding and nothing else. *)
Definition entry (id : string) (embedding : vec) : Doc.t :=
  {| Doc.id := id; Doc.fileName := None; Doc.webViewLink := None;
     Doc.createdTime := None; Doc.modifiedTime := None;
     Doc.filePath := None; Doc.meta := no_metadata;
     Doc.embedding := embedding; Doc.textLength := None;
     Doc.score := None |}.

(** An index entry with a complexity and a list of features. *)
Definition rated (id : string) (complexity : option string)
    (features : option (list string)) : Doc.t :=
  {| Doc.id := id; Doc.fileName := None; Doc.webViewLink := None;
     Doc.createdTime := None; Doc.modifiedTime := None;
     Doc.filePath := None;
     Doc.meta :=
       {| Meta.customer := None; Meta.project := None;
          Meta.industry := Some "banking"; Meta.modules := None;
          Meta.integrations := None; Meta.features := features;
          Meta.complexity := complexity; Meta.summary := None;
          Meta.keywords := None |};
     Doc.embedding := None; Doc.textLength := None; Doc.score := None |}.

(** The first unit vector of the plane. *)
Definition unit_x : vec := Some [1; 0]%float.

(** A language model that answers every embedding request with [v] and
    never yields metadata. *)
Definition gemini_answering (v : vec) : Gemini :=
  {| generateEmbedding := λ _, Returned v;
     generateMetadata := λ _ _, None |}.

(** A language model whose embedding request always fails. *)
Definition gemini_down : Gemini :=
  {| generateEmbedding := λ _, Thrown;
     generateMetadata := λ _ _, None |}.

(** A Drive client that exports [text] for every document. *)
Definition drive_exporting (text : option string) : Drive :=
  {| files_export := λ _, Returned text;
     files_get := λ _, Returned () |}.

(** Parsers that read [text] from every file. *)
Definition parsers_reading (text : option string) : Parsers :=
  {| extractTextFromDocx := λ _, Returned text;
     extractTextFromPdf := λ _, Returned text |}.

(** The [path] functions on names without a directory part and with the
    extension [.docx]. *)
Definition flat_docx_paths : Path :=
  {| extname := λ _, ".docx";
     basename := λ p, p;
     basename_without := λ p _, Str.drop_last 5 p |}.

Definition google_doc (id name : string) : DriveFile.t :=
  {| DriveFile.id := id; DriveFile.name := name;
     DriveFile.mimeType := "application/vnd.google-apps.document";
     DriveFile.webViewLink := None; DriveFile.createdTime := None;
     DriveFile.modifiedTime := None |}.

(** A text of [n] characters. *)
Fixpoint text_of_length (n : nat) : string :=
  match n with
  | O => EmptyString
  | S n' => String "x" (text_of_length n')
  end.

(** The part of a path after its last slash. *)
Fixpoint last_segment (segment path : string) : string :=
  match path with
  | EmptyString => segment
  | String c path' =>
      if decide (c = "/"%char) then last_segment EmptyString path'
      else last_segment (segment +:+ String c EmptyString) path'
  end.

(** The [path] functions on paths of [.docx] files. *)
Definition docx_paths : Path :=
  {| extname := λ _, ".docx";
     basename := λ p, last_segment EmptyString p;
     basename_without :=
       λ p _, Str.drop_last 5 (last_segment EmptyString p) |}.

(** The text listed for a name, [null] when there is none. *)
Fixpoint text_for (name : string) (texts : list (string * option string))
    : option string :=
  match texts with
  | [] => None
  | (n, text) :: texts' =>
      if decide (n = name) then text else text_for name texts'
  end.

(** A Drive client that exports, for a document, the text listed for its
    id. *)
Definition drive_by_id (texts : list (string * option string)) : Drive :=
  {| files_export := λ id, Returned (text_for id texts);
     files_get := λ _, Returned () |}.

(** Parsers that read, from a file, the text listed for its path. *)
Definition parsers_by_name (texts : list (string * option string))
    : Parsers :=
  {| extractTextFromDocx := λ p, Returned (text_for p texts);
     extractTextFromPdf := λ p, Returned (text_for p texts) |}.

(** [n] Google documents, with ids and names numbered from [k] on. *)
Fixpoint google_docs (k n : nat) : list DriveFile.t :=
  match n with
  | O => []
  | S n' =>
      google_doc ("id" +:+ pretty k) ("sow_" +:+ pretty k) :: google_docs (S k) n'
  end.

(** [n] file names, numbered from [k] on. *)
Fixpoint docx_names (k n : nat) : list string :=
  match n with
  | O => []
  | S n' => ("sow_" +:+ pretty k +:+ ".docx") :: docx_names (S k) n'
  end.

End Sample.

(** ** Queries built from requirements

    [RagRetriever.buildQueryFromRequirements] and
    [RagRetriever.findSimilarByRequirements] (rag-retriever.js, lines
    59-94). *)

Module Requirements.

(** The fields of a requirements object the query is built from. *)
Record t : Type := Make {
  customer : option string;
  project : option string;
  industry : option string;
  features : option (list string);
  integrations : option (list string);
  modules : option (list string);
  summary : option string;
}.

End Requirements.

Module Query.

Definition newline : string := String (ascii_of_nat 10) EmptyString.

(** [if (field) { parts.push(`Label: ${field}`); }] *)
Definition text_line (label : string) (field : option string) : list string :=
  if Str.truthy field then [label +:+ ": " +:+ Str.interpolate field] else [].

(** [if (field && field.length > 0) {
       parts.push(`Label: ${field.join(', ')}`); }] *)
Definition list_line (label : string) (field : option (list string))
    : list string :=
  match field with
  | Some (item :: items) => [label +:+ ": " +:+ Str.join ", " (item :: items)]
  | _ => []
  end.

Definition parts (requirements : Requirements.t) : list string :=
  text_line "Customer" (Requirements.customer requirements)
  ++ text_line "Project" (Requirements.project requirements)
  ++ text_line "Industry" (Requirements.industry requirements)
  ++ list_line "Features" (Requirements.features requirements)
  ++ list_line "Integrations" (Requirements.integrations requirements)
  ++ list_line "Modules" (Requirements.modules requirements)
  ++ text_line "Summary" (Requirements.summary requirements).

Definition buildQueryFromRequirements (requirements : Requirements.t)
    : string :=
  Str.join newline (parts requirements).

Definition findSimilarByRequirements (gemini : Gemini) (index : list Doc.t)
    (requirements : Requirements.t) (topK : Z) : outcome (list Doc.t) :=
  Retriever.findSimilar gemini index
    (buildQueryFromRequirements requirements) topK.

(** A field of the requirements is given when it is a non-empty string
    or a non-empty list. *)
Definition given_text (field : option string) : Prop :=
  ∃ c s, field = Some (String c s).

Definition given_list (field : option (list string)) : Prop :=
  ∃ item items, field = Some (item :: items).

Definition nothing_given (requirements : Requirements.t) : Prop :=
  ¬ given_text (Requirements.customer requirements)
  ∧ ¬ given_text (Requirements.project requirements)
  ∧ ¬ given_text (Requirements.industry requirements)
  ∧ ¬ given_list (Requirements.features requirements)
  ∧ ¬ given_list (Requirements.integrations requirements)
  ∧ ¬ given_list (Requirements.modules requirements)
  ∧ ¬ given_text (Requirements.summary requirements).

End Query.

(** ** Index statistics

    [RagRetriever.getIndexStats] (rag-retriever.js, lines 150-180) and the
    action of the [stats] command of the command line, which prints
    them. *)

Module Obj.

(** An object literal [{}] used as a table of counters, filled by
    [table[key] = (table[key] || 0) + 1].  A property holds a number, or
    the string that [+ 1] makes of a member the object inherits from
    [Object.prototype]: reading such a key of a fresh object yields that
    member, which is truthy, and adding 1 to it concatenates.  The own
    properties are listed in the order of their creation.  Counts are
    natural numbers; the arithmetic on numbers is exact on them below
    2^53. *)
Inductive value : Type :=
| Number (n : nat)
| Text.

Definition t : Type := list (string * value).

(** The members of [Object.prototype]. *)
Definition inherited : list string :=
  ["constructor"; "__defineGetter__"; "__defineSetter__"; "hasOwnProperty";
   "__lookupGetter__"; "__lookupSetter__"; "isPrototypeOf";
   "propertyIsEnumerable"; "toString"; "valueOf"; "__proto__";
   "toLocaleString"].

(** The own property [key], if there is one. *)
Fixpoint own (table : t) (key : string) : option value :=
  match table with
  | [] => None
  | (k, v) :: table' => if decide (k = key) then Some v else own table' key
  end.

(** [table[key] = v] for a key other than [__proto__]: the own property
    is updated where it stands, or created behind the others. *)
Fixpoint set (table : t) (key : string) (v : value) : t :=
  match table with
  | [] => [(key, v)]
  | (k, w) :: table' =>
      if decide (k = key) then (k, v) :: table'
      else (k, w) :: set table' key v
  end.

(** [table[key] = (table[key] || 0) + 1].  An assignment to [__proto__]
    reaches the setter of [Object.prototype], which ignores a string. *)
Definition increment (table : t) (key : string) : t :=
  match own table key with
  | Some (Number n) => set table key (Number (S n))
  | Some Text => set table key Text
  | None =>
      if bool_decide (key ∈ inherited) then
        if decide (key = "__proto__") then table else set table key Text
      else set table key (Number 1)
  end.

(** The value of a string of decimal digits. *)
Fixpoint digits_value (acc : N) (s : string) : option N :=
  match s with
  | EmptyString => Some acc
  | String c s' =>
      if Str.is_digit c
      then digits_value (10 * acc + N.of_nat (Str.code c - 48)) s'
      else None
  end.

(** The array indices among the keys: the decimal numerals, without a
    leading zero, of the integers from 0 to 2^32 - 2. *)
Definition array_index (key : string) : option N :=
  match key with
  | EmptyString => None
  | String c s' =>
      if bool_decide (c = "0"%char) && negb (bool_decide (s' = EmptyString))
      then None
      else
        match digits_value 0 key with
        | Some n => if (n <=? 4294967294)%N then Some n else None
        | None => None
        end
  end.

Fixpoint insert_index (n : N) (e : string * value)
    (l : list (N * (string * value))) : list (N * (string * value)) :=
  match l with
  | [] => [(n, e)]
  | (m, e') :: l' =>
      if (n <? m)%N then (n, e) :: l else (m, e') :: insert_index n e l'
  end.

(** The properties whose keys are array indices, in ascending order of
    the index. *)
Definition indexed (table : t) : list (N * (string * value)) :=
  foldr (λ e acc,
           match array_index e.1 with
           | Some n => insert_index n e acc
           | None => acc
           end) [] table.

(** The other properties, in the order of their creation. *)
Definition named (table : t) : list (string * value) :=
  filter (λ e, array_index e.1 = None) table.

(** [Object.entries(table)]: the array indices first, in ascending
    order, then the other keys in the order of their creation. *)
Definition entries (table : t) : list (string * value) :=
  (snd <$> indexed table) ++ named table.

(** [ToNumber] on a value of the table. *)
Definition to_number (v : value) : float :=
  match v with
  | Number n => of_uint63 (Uint63.of_Z (Z.of_nat n))
  | Text => nan
  end.

(** The count an entry stands for; a string counts for nothing. *)
Definition count (e : string * value) : nat :=
  match e.2 with
  | Number n => n
  | Text => 0
  end.

(** The number of times [key] occurs in [keys]. *)
Definition occurrences (key : string) (keys : list string) : nat :=
  length (filter (λ k, k = key) keys).

(** What a table of counters holds for a key that was counted [n]
    times. *)
Definition counted (n : nat) : option value :=
  match n with
  | O => None
  | S _ => Some (Number n)
  end.

End Obj.

Module Stats.

(** The object [getIndexStats] returns: only [total] on an empty
    index. *)
Record t : Type := Make {
  total : nat;
  byIndustry : option Obj.t;
  topFeatures : option (list (string * Obj.value));
  byComplexity : option Obj.t;
}.

(** The three tables of the loop. *)
Record tables : Type := Tables {
  industries : Obj.t;
  features : Obj.t;
  complexities : Obj.t;
}.

(** What the [stats] command prints: the total and the three lists of
    pairs, each pair on a line of its own. *)
Record report : Type := Report {
  shown_total : nat;
  shown_industries : list (string * Obj.value);
  shown_features : list (string * Obj.value);
  shown_complexities : list (string * Obj.value);
}.

End Stats.

Module IndexStats.

(** The callback of [this.index.forEach]. *)
Definition count_doc (tables : Stats.tables) (doc : Doc.t) : Stats.tables :=
  {| Stats.industries :=
       Obj.increment (Stats.industries tables)
         (Str.or_else (Doc.industry doc) "unknown");
     Stats.features :=
       foldl Obj.increment (Stats.features tables)
         (default [] (Doc.features doc));
     Stats.complexities :=
       Obj.increment (Stats.complexities tables)
         (Str.or_else (Doc.complexity doc) "unknown") |}.

(** [(a, b) => b[1] - a[1]] *)
Definition by_count (a b : string * Obj.value) : float :=
  (Obj.to_number b.2 - Obj.to_number a.2)%float.

Definition getIndexStats (index : list Doc.t) : Stats.t :=
  if (length index =? 0)%nat then
    {| Stats.total := 0; Stats.byIndustry := None;
       Stats.topFeatures := None; Stats.byComplexity := None |}
  else
    let tables := foldl count_doc (Stats.Tables [] [] []) index in
    {| Stats.total := length index;
       Stats.byIndustry := Some (Stats.industries tables);
       Stats.topFeatures :=
         Some (Retriever.slice0
                 (Retriever.sort by_count
                    (Obj.entries (Stats.features tables))) 10);
       Stats.byComplexity := Some (Stats.complexities tables) |}.

(** [Object.entries(x)] throws a TypeError when [x] is [undefined]. *)
Definition entries_of (table : option Obj.t)
    : outcome (list (string * Obj.value)) :=
  match table with
  | Some table => Returned (Obj.entries table)
  | None => Thrown
  end.

(** [x.forEach(...)] throws a TypeError when [x] is [undefined]. *)
Definition each_of {A : Type} (l : option (list A)) : outcome (list A) :=
  match l with
  | Some l => Returned l
  | None => Thrown
  end.

(** The action of the [stats] command once the index is loaded: what it
    prints, or [Thrown] when it ends in "Stats failed". *)
Definition statsCommand (index : list Doc.t) : outcome Stats.report :=
  let stats := getIndexStats index in
  industries ← entries_of (Stats.byIndustry stats);
  features ← each_of (Stats.topFeatures stats);
  complexities ← entries_of (Stats.byComplexity stats);
  Returned
    {| Stats.shown_total := Stats.total stats;
       Stats.shown_industries := industries;
       Stats.shown_features := features;
       Stats.shown_complexities := complexities |}.

(** The keys the loop counts. *)
Definition industry_keys (index : list Doc.t) : list string :=
  (λ doc, Str.or_else (Doc.industry doc) "unknown") <$> index.

Definition complexity_keys (index : list Doc.t) : list string :=
  (λ doc, Str.or_else (Doc.complexity doc) "unknown") <$> index.

Definition feature_keys (index : list Doc.t) : list string :=
  index ≫= λ doc, default [] (Doc.features doc).

(** [a] may stand before [b] in a list sorted by descending count. *)
Definition descending_count (a b : string * Obj.value) : Prop :=
  Obj.count b ≤ Obj.count a.

End IndexStats.

(** ** Which files are indexed, and where the index is written

    [isSowFile] of both indexers, [SowIndexer.findSowFiles],
    [GDriveIndexer.listSowFiles] and [GDriveIndexer.getAllSowFiles], and
    the two paths [saveIndex] writes to. *)

Module Text.

(** [s.startsWith(prefix)] *)
Fixpoint starts_with (prefix s : string) : bool :=
  match prefix, s with
  | EmptyString, _ => true
  | String a prefix', String b s' =>
      bool_decide (a = b) && starts_with prefix' s'
  | String _ _, EmptyString => false
  end.

(** [s.includes(part)] *)
Fixpoint includes (part s : string) : bool :=
  starts_with part s
  || match s with
     | EmptyString => false
     | String _ s' => includes part s'
     end.

(** [s.substring(n)] *)
Fixpoint drop_first (n : nat) (s : string) : string :=
  match n, s with
  | S n', String _ s' => drop_first n' s'
  | _, _ => s
  end.

(** [s.replace(pattern, replacement)] for a pattern that is a string and
    a replacement without [$]: the first occurrence of the pattern is
    replaced. *)
Fixpoint replace_first (pattern replacement s : string) : string :=
  if starts_with pattern s
  then replacement +:+ drop_first (String.length pattern) s
  else
    match s with
    | EmptyString => EmptyString
    | String c s' => String c (replace_first pattern replacement s')
    end.


End Text.

(** *** The listing of a Drive folder *)

Module DriveListing.

(** One answer of [drive.files.list]: [response.data.files] and
    [response.data.nextPageToken]. *)
Record page : Type := Page {
  files : list DriveFile.t;
  nextPageToken : option string;
}.

(** The listing call of the Drive client, on a query and a page token
    ([null] for the first page). *)
Record client : Type := {
  files_list : string → option string → outcome page;
}.

Definition query (folderId : string) : string :=
  "'" +:+ folderId
  +:+ "' in parents and mimeType != 'application/vnd.google-apps.folder' and trashed = false".

(** [listSowFiles] *)
Definition listSowFiles (drive : client) (folderId : string)
    (pageToken : option string) : outcome page :=
  files_list drive (query folderId) pageToken.

(** [isSowFile] of the Drive indexer. *)
Definition isSowFile (filename : string) : bool :=
  let lower := Str.toLowerCase filename in
  Text.includes "sow" lower || Text.includes "scope" lower
  || Text.includes "statement" lower.

Definition sow_files (page : page) : list DriveFile.t :=
  filter (λ f, isSowFile (DriveFile.name f)) (files page).

(** The [do ... while (pageToken)] loop of [getAllSowFiles], entered with
    [allFiles] and [pageToken].  The loop runs as long as the Drive hands
    out page tokens; [fuel] bounds the number of pages read, and [None]
    tells that the bound was reached. *)
Fixpoint pages_loop (fuel : nat) (drive : client) (folderId : string)
    (allFiles : list DriveFile.t) (pageToken : option string)
    : option (outcome (list DriveFile.t)) :=
  match fuel with
  | O => None
  | S fuel' =>
      match listSowFiles drive folderId pageToken with
      | Thrown => Some Thrown
      | Returned page =>
          let allFiles' := allFiles ++ sow_files page in
          if Str.truthy (nextPageToken page)
          then pages_loop fuel' drive folderId allFiles' (nextPageToken page)
          else Some (Returned allFiles')
      end
  end.

(** [getAllSowFiles] *)
Definition getAllSowFiles (fuel : nat) (drive : client) (folderId : string)
    : option (outcome (list DriveFile.t)) :=
  pages_loop fuel drive folderId [] None.

(** The pages the Drive serves from [pageToken] on: each page but the
    last names the token of the next one. *)
Inductive serves (drive : client) (folderId : string)
    : option string → list page → Prop :=
| serves_last pageToken page :
    listSowFiles drive folderId pageToken = Returned page →
    Str.truthy (nextPageToken page) = false →
    serves drive folderId pageToken [page]
| serves_next pageToken page pages :
    listSowFiles drive folderId pageToken = Returned page →
    Str.truthy (nextPageToken page) = true →
    serves drive folderId (nextPageToken page) pages →
    serves drive folderId pageToken (page :: pages).

(** The Drive serves [pages] from [pageToken] on and fails on the page
    after them. *)
Inductive serves_until_failure (drive : client) (folderId : string)
    : option string → list page → Prop :=
| fails_at_once pageToken :
    listSowFiles drive folderId pageToken = Thrown →
    serves_until_failure drive folderId pageToken []
| fails_later pageToken page pages :
    listSowFiles drive folderId pageToken = Returned page →
    Str.truthy (nextPageToken page) = true →
    serves_until_failure drive folderId (nextPageToken page) pages →
    serves_until_failure drive folderId pageToken (page :: pages).

End DriveListing.

(** *** The files of a directory tree *)

Module Directory.

(** An entry of a directory, as [readdirSync] with [withFileTypes]
    reports it: a directory with its own entries, or anything else. *)
#[warnings="-register-all"]
Inductive entry : Type :=
| File (name : string)
| Folder (name : string) (entries : list entry).

(** [isSowFile] of the directory indexer. *)
Definition isSowFile (filename : string) : bool :=
  let lower := Str.toLowerCase filename in
  (Str.ends_with ".docx" lower || Str.ends_with ".pdf" lower)
  && (Text.includes "sow" lower || Text.includes "scope" lower
      || Text.includes "statement" lower).

(** The body of [for (const entry of entries)] in [findSowFiles(dir,
    files)]; [join] is [path.join], and the call on a directory reads the
    entries of that directory. *)
Fixpoint visit (join : string → string → string) (dir : string)
    (files : list string) (e : entry) {struct e} : list string :=
  match e with
  | Folder name entries =>
      foldl (visit join (join dir name)) files entries
  | File name =>
      if isSowFile name then files ++ [join dir name] else files
  end.

(** [findSowFiles(dir, files)] on the entries of [dir]. *)
Definition findSowFiles (join : string → string → string) (dir : string)
    (entries : list entry) (files : list string) : list string :=
  foldl (visit join dir) files entries.

(** The tree under [dir] holds, at the path [p], an entry called [name]
    that is not a directory. *)
Inductive holds (join : string → string → string)
    : string → list entry → string → string → Prop :=
| holds_here dir entries name :
    File name ∈ entries →
    holds join dir entries (join dir name) name
| holds_below dir entries name below p n :
    Folder name below ∈ entries →
    holds join (join dir name) below p n →
    holds join dir entries p n.

(** The number of entries of the tree that are not directories and
    whose names pass [isSowFile]. *)
Fixpoint sow_count (e : entry) : nat :=
  match e with
  | Folder _ entries => sum_list (sow_count <$> entries)
  | File name => if isSowFile name then 1 else 0
  end.

End Directory.

(** *** The files [saveIndex] writes *)

Module IndexFiles.

(** The files on disk that hold an index: a file holds the JSON text of
    a list of records, which stands here for the text. *)
Definition disk : Type := gmap string (list Doc.t).

(** [outputPath.replace('.json', '_metadata.json')] *)
Definition metadata_path (outputPath : string) : string :=
  Text.replace_first ".json" "_metadata.json" outputPath.

(** What one call of [saveIndex] writes. *)
Definition snapshot (index : list Doc.t) : Snapshot := saveIndex index.

(** [saveIndex(outputPath)] (both indexers), with its paths: the full
    index is written to [outputPath], then the index without embeddings
    to the second path. *)
Definition saveIndex (outputPath : string) (index : list Doc.t)
    (files : disk) : disk :=
  <[metadata_path outputPath := light (snapshot index)]>
    (<[outputPath := full (snapshot index)]> files).

End IndexFiles.

(** ** Answers of the language model as values

    [extractMetadata] (both indexers) returns what [JSON.parse] makes of
    the answer, whatever its shape.  The definitions of this part follow
    the per-file code of the two indexers on such a value, as far as it
    decides whether the file is counted as failed. *)

Module Json.

(** A value [JSON.parse] returns. *)
#[warnings="-register-all"]
Inductive t : Type :=
| Null
| Bool (b : bool)
| Number (x : float)
| Text (s : string)
| Array (items : list t)
| Object (members : list (string * t)).

(** The member of an object under a key: of two members with one key the
    later one counts. *)
Fixpoint member (members : list (string * t)) (key : string) : option t :=
  match members with
  | [] => None
  | (k, v) :: rest =>
      match member rest key with
      | Some w => Some w
      | None => if decide (k = key) then Some v else None
      end
  end.

(** [value.key] for one of the keys the indexers read, none of which
    names a member of a string, of an array or of [Object.prototype]:
    [None] is [undefined].  The value is not [null]. *)
Definition get (value : t) (key : string) : option t :=
  match value with
  | Object members => member members key
  | _ => None
  end.

Definition is_primitive (value : t) : bool :=
  match value with
  | Bool _ | Number _ | Text _ => true
  | _ => false
  end.

Definition is_array (value : t) : bool :=
  match value with
  | Array _ => true
  | _ => false
  end.

(** The strings of the items of an array, from left to right; the first
    conversion that throws ends it. *)
Fixpoint each {A B : Type} (f : A → outcome B) (items : list A)
    : outcome (list B) :=
  match items with
  | [] => Returned []
  | item :: rest =>
      text ← f item;
      texts ← each f rest;
      Returned (text :: texts)
  end.

Section Rendering.

(** The decimal numeral the language prints for a number. *)
Context (number_text : float → string).

(** The conversion of a value to a string, as a template literal and
    [join] apply it.  An array is its items joined by a comma, where
    [null] counts as the empty string.  An object is converted by the
    [toString] it inherits, unless it has a member of that name: the
    member is no function, the inherited [valueOf] yields no primitive,
    and the conversion throws. *)
Fixpoint to_string (value : t) : outcome string :=
  match value with
  | Null => Returned "null"
  | Bool true => Returned "true"
  | Bool false => Returned "false"
  | Number x => Returned (number_text x)
  | Text s => Returned s
  | Array items =>
      texts ←
        each (λ item,
                match item with
                | Null => Returned EmptyString
                | _ => to_string item
                end)
          items;
      Returned (Str.join "," texts)
  | Object members =>
      match member members "toString" with
      | Some _ => Thrown
      | None => Returned "[object Object]"
      end
  end.

(** The string [join] makes of an item, and of the items. *)
Definition item_text (item : t) : outcome string :=
  match item with
  | Null => Returned EmptyString
  | _ => to_string item
  end.

Definition items_text (items : list t) : outcome (list string) :=
  each item_text items.

End Rendering.

End Json.

Module Answers.

(** [GeminiClient], with the answers as they are parsed: [embed] is
    [generateEmbedding], and [parsed document content] is the value the
    [try] block of [extractMetadata] returns, [None] when that block
    throws or finds no JSON. *)
Record Client : Type := {
  embed : string → outcome vec;
  parsed : string → string → option Json.t;
}.

(** The metadata objects of the model, as values. *)
Definition text_member (key : string) (field : option string)
    : list (string * Json.t) :=
  match field with
  | Some s => [(key, Json.Text s)]
  | None => []
  end.

Definition list_member (key : string) (field : option (list string))
    : list (string * Json.t) :=
  match field with
  | Some l => [(key, Json.Array (Json.Text <$> l))]
  | None => []
  end.

Definition encode (metadata : Meta.t) : Json.t :=
  Json.Object
    (text_member "customer" (Meta.customer metadata)
     ++ text_member "project" (Meta.project metadata)
     ++ text_member "industry" (Meta.industry metadata)
     ++ list_member "modules" (Meta.modules metadata)
     ++ list_member "integrations" (Meta.integrations metadata)
     ++ list_member "features" (Meta.features metadata)
     ++ text_member "complexity" (Meta.complexity metadata)
     ++ text_member "summary" (Meta.summary metadata)
     ++ list_member "keywords" (Meta.keywords metadata)).

(** The client whose answers are the metadata objects of [gemini]. *)
Definition of_typed (gemini : Gemini) : Client :=
  {| embed := generateEmbedding gemini;
     parsed := λ document content,
       encode <$> generateMetadata gemini document content |}.

Section Rendering.

Context (number_text : float → string).

(** [${field}] *)
Definition interpolate (field : option Json.t) : outcome string :=
  match field with
  | Some value => Json.to_string number_text value
  | None => Returned "undefined"
  end.

(** [${field?.join(', ')}]: [?.] stops at [undefined] and [null]; an
    array is joined; on any other value [join] is no function and the
    call throws. *)
Definition joined (field : option Json.t) : outcome string :=
  match field with
  | None => Returned "undefined"
  | Some Json.Null => Returned "undefined"
  | Some (Json.Array items) =>
      texts ← Json.items_text number_text items;
      Returned (Str.join ", " texts)
  | Some _ => Thrown
  end.

(** [createEmbeddingText] (both indexers) on any value: reading a
    property of [null] throws. *)
Definition createEmbeddingText (metadata : Json.t) : outcome string :=
  let nl := String (ascii_of_nat 10) EmptyString in
  match metadata with
  | Json.Null => Thrown
  | _ =>
      customer ← interpolate (Json.get metadata "customer");
      project ← interpolate (Json.get metadata "project");
      industry ← interpolate (Json.get metadata "industry");
      features ← joined (Json.get metadata "features");
      integrations ← joined (Json.get metadata "integrations");
      modules ← joined (Json.get metadata "modules");
      summary ← interpolate (Json.get metadata "summary");
      keywords ← joined (Json.get metadata "keywords");
      Returned
        (Str.trim
           (nl +:+ "Customer: " +:+ customer +:+
            nl +:+ "Project: " +:+ project +:+
            nl +:+ "Industry: " +:+ industry +:+
            nl +:+ "Features: " +:+ features +:+
            nl +:+ "Integrations: " +:+ integrations +:+
            nl +:+ "Modules: " +:+ modules +:+
            nl +:+ "Summary: " +:+ summary +:+
            nl +:+ "Keywords: " +:+ keywords +:+
            nl +:+ "    "))
  end.

(** [GDriveIndexer.extractMetadata] *)
Definition driveMetadata (gemini : Client) (text fileName : string)
    : Json.t :=
  match parsed gemini fileName (Str.substring0 (150 * 100) text) with
  | Some value => value
  | None => encode (GDriveIndexer.extractMetadataFromFilename fileName)
  end.

(** The [try] block of the loop of [indexFolder] up to the push, which
    cannot throw: [Thrown] when the file is counted as failed (the save
    behind every fiftieth push is taken to succeed).  The assignment
    [metadata.embedding = embedding] throws on a boolean, a number and a
    string, since the body of a class is strict code. *)
Definition driveFile (gemini : Client) (drive : Drive) (file : DriveFile.t)
    : outcome unit :=
  let text := GDriveIndexer.downloadFile drive file in
  if GDriveIndexer.has_enough_text text then
    let metadata :=
      driveMetadata gemini (default "" text) (DriveFile.name file) in
    embeddingText ← createEmbeddingText metadata;
    _ ← embed gemini embeddingText;
    if Json.is_primitive metadata then Thrown else Returned ()
  else Returned ().

(** [SowIndexer.extractMetadata] *)
Definition sowMetadata (gemini : Client) (path : Path)
    (text filePath : string) : Json.t :=
  match
    parsed gemini (basename path filePath) (Str.substring0 (150 * 100) text)
  with
  | Some value => value
  | None => encode (SowIndexer.basicMetadata path filePath)
  end.

(** [processSowFile] after the text has been read: [Returned false] when
    it returns [null], [Returned true] when it returns a record. *)
Definition sowText (gemini : Client) (path : Path) (filePath : string)
    (text : option string) : outcome bool :=
  if SowIndexer.too_short text then Returned false
  else
    let metadata := sowMetadata gemini path (default "" text) filePath in
    embeddingText ← createEmbeddingText metadata;
    _ ← embed gemini embeddingText;
    Returned true.

(** [processSowFile], as the [try] block of the loop of [indexDirectory]
    sees it: [Thrown] when the file is counted as failed. *)
Definition sowFile (gemini : Client) (path : Path) (parsers : Parsers)
    (filePath : string) : outcome bool :=
  let ext := Str.toLowerCase (extname path filePath) in
  if decide (ext = ".docx") then
    text ← extractTextFromDocx parsers filePath;
    sowText gemini path filePath text
  else if decide (ext = ".pdf") then
    text ← extractTextFromPdf parsers filePath;
    sowText gemini path filePath text
  else Returned false.

(** A value [createEmbeddingText] throws on: [null]; a value one of
    whose list fields is neither missing, nor [null], nor an array; a
    value with a field that cannot be converted to a string. *)
Definition unreadable (metadata : Json.t) : Prop :=
  metadata = Json.Null
  ∨ (∃ key value,
       key ∈ ["features"; "integrations"; "modules"; "keywords"]
       ∧ Json.get metadata key = Some value
       ∧ value ≠ Json.Null
       ∧ Json.is_array value = false)
  ∨ (∃ key value,
       key ∈ ["customer"; "project"; "industry"; "features"; "integrations";
              "modules"; "summary"; "keywords"]
       ∧ Json.get metadata key = Some value
       ∧ value ≠ Json.Null
       ∧ Json.to_string number_text value = Thrown).

End Rendering.

End Answers.

(** ** Names of the generated files

    [SowGenerator.generateFilename] (index.js, lines 126-137). *)

Module SowContent.

(** The fields of the generated content the file name is made of. *)
Record t : Type := Make {
  customer : option string;
  project : option string;
  version : option string;
}.

End SowContent.

Module Generator.






End Generator.

(** ** Outcomes of the files of a run *)

Module Counting.

Definition is_thrown {A : Type} (o : outcome A) : bool :=
  match o with
  | Thrown => true
  | Returned _ => false
  end.

(** The directory indexer stores a record for the file. *)
Definition is_stored {A : Type} (o : outcome (option A)) : bool :=
  match o with
  | Returned (Some _) => true
  | _ => false
  end.

(** The directory indexer passes the file over. *)
Definition is_skipped {A : Type} (o : outcome (option A)) : bool :=
  match o with
  | Returned None => true
  | _ => false
  end.

(** The number of elements of [l] on which [p] holds. *)
Definition count {A : Type} (p : A → bool) (l : list A) : nat :=
  length (filter (λ x, p x) l).

End Counting.

(** ** Transcripts

    [parseTranscript] and [parseJson] (utils/pdf-parser.js), which read
    the text that [SowGenerator.generate] hands to [findSimilar]. *)

Module Transcript.

(** The content of a JSON transcript file: the fields [parseJson]
    reads. *)
Record data : Type := Data {
  transcript : option string;
  customer : option string;
  project : option string;
  summary : option string;
  requirements : option (list string);
}.

(** The readers of files: [fs.readFileSync] followed by [JSON.parse], by
    [pdf-parse], or by nothing.  Each throws when the file cannot be read
    or parsed. *)
Record readers : Type := {
  read_json : string → outcome data;
  read_pdf : string → outcome string;
  read_text : string → outcome string;
}.

(** [if (data.requirements) { parts.push('Requirements:');
       data.requirements.forEach(r => parts.push(`- ${r}`)); }]:
    an array is truthy also when it is empty. *)
Definition requirement_lines (requirements : option (list string))
    : list string :=
  match requirements with
  | Some items => "Requirements:" :: ((λ r, "- " +:+ r) <$> items)
  | None => []
  end.

Definition parts (d : data) : list string :=
  Query.text_line "Customer" (customer d)
  ++ Query.text_line "Project" (project d)
  ++ Query.text_line "Summary" (summary d)
  ++ requirement_lines (requirements d).

(** The text [parseJson] makes of the parsed content. *)
Definition text_of (d : data) : string :=
  if Str.truthy (transcript d) then Str.interpolate (transcript d)
  else Str.join Query.newline (parts d).

Definition parseJson (files : readers) (filePath : string) : outcome string :=
  d ← read_json files filePath;
  Returned (text_of d).

Definition parseTranscript (path : Path) (files : readers)
    (filePath : string) : outcome string :=
  let ext := Str.toLowerCase (extname path filePath) in
  if decide (ext = ".pdf") then read_pdf files filePath
  else if decide (ext = ".txt") then read_text files filePath
  else if decide (ext = ".md") then read_text files filePath
  else if decide (ext = ".json") then parseJson files filePath
  else Thrown.

End Transcript.

(** ** The command line

    The action of the [search] command (cli.js), which passes
    [parseInt(options.topK)] to [findSimilar]. *)

Module Cli.

(** The value of a decimal digit and of a hexadecimal digit. *)
Definition decimal_digit (c : ascii) : option N :=
  if Str.is_digit c then Some (N.of_nat (Str.code c - 48)) else None.

Definition hex_digit (c : ascii) : option N :=
  let n := Str.code c in
  if Str.is_digit c then Some (N.of_nat (n - 48))
  else if (97 <=? n)%nat && (n <=? 102)%nat then Some (N.of_nat (n - 87))
  else if (65 <=? n)%nat && (n <=? 70)%nat then Some (N.of_nat (n - 55))
  else None.

(** The number written by the longest run of digits at the start of
    [s]; [acc] is the number read so far, [None] before the first
    digit. *)
Fixpoint digits_prefix (digit : ascii → option N) (radix : N)
    (acc : option N) (s : string) : option N :=
  match s with
  | EmptyString => acc
  | String c s' =>
      match digit c with
      | Some d =>
          digits_prefix digit radix (Some (radix * default 0 acc + d)%N) s'
      | None => acc
      end
  end.

(** The string without its leading white space and without one sign. *)
Definition unsigned_part (s : string) : string :=
  match Str.trim_start s with
  | String c rest =>
      if bool_decide (c = "-"%char) || bool_decide (c = "+"%char) then rest
      else String c rest
  | EmptyString => EmptyString
  end.

Definition is_negative (s : string) : bool :=
  match Str.trim_start s with
  | String c _ => bool_decide (c = "-"%char)
  | EmptyString => false
  end.

(** The digits of a numeral and its radix: sixteen behind [0x] or [0X],
    ten otherwise. *)
Definition magnitude (unsigned : string) : option N :=
  match unsigned with
  | String c (String x rest) =>
      if bool_decide (c = "0"%char)
         && (bool_decide (x = "x"%char) || bool_decide (x = "X"%char))
      then digits_prefix hex_digit 16 None rest
      else digits_prefix decimal_digit 10 None unsigned
  | _ => digits_prefix decimal_digit 10 None unsigned
  end.

(** [parseInt(s)] without a radix, as an integer; [None] is NaN.  The
    number [parseInt] returns is this integer rounded to binary64, which
    [slice] treats as it treats the integer: it compares it with the
    length of the array. *)
Definition parseInt (s : string) : option Z :=
  (λ n, if is_negative s then (- Z.of_N n)%Z else Z.of_N n)
  <$> magnitude (unsigned_part s).

(** [retriever.findSimilar(options.query, parseInt(options.topK))]: a
    [topK] that is NaN reaches [slice(0, topK)], which reads it as 0. *)
Definition searchCommand (gemini : Gemini) (index : list Doc.t)
    (query topK : string) : outcome (list Doc.t) :=
  Retriever.findSimilar gemini index query (default 0%Z (parseInt topK)).

(** The text holds no numeral: behind its leading white space and sign
    there is no decimal digit, or just [0x] without a hexadecimal digit
    behind it. *)
Definition no_numeral (s : string) : Prop :=
  match unsigned_part s with
  | String c (String x rest) =>
      if bool_decide (c = "0"%char)
         && (bool_decide (x = "x"%char) || bool_decide (x = "X"%char))
      then match rest with
           | String h _ => hex_digit h = None
           | EmptyString => True
           end
      else Str.is_digit c = false
  | String c EmptyString => Str.is_digit c = false
  | EmptyString => True
  end.

End Cli.

(** ** Files read and files indexed by name *)

Module Reading.

(** What the parser for the extension of [file] yields: the directory
    indexer reads [.docx] files with one parser and [.pdf] files with the
    other. *)
Definition read_text (path : Path) (parsers : Parsers) (file : string)
    (text : outcome (option string)) : Prop :=
  (Str.toLowerCase (extname path file) = ".docx"
   ∧ extractTextFromDocx parsers file = text)
  ∨ (Str.toLowerCase (extname path file) = ".pdf"
     ∧ extractTextFromPdf parsers file = text).

End Reading.

Module Uploads.

Definition is_google_document (file : DriveFile.t) : Prop :=
  DriveFile.mimeType file = "application/vnd.google-apps.document".

(** The record the Drive indexer stores for a file it indexes from the
    name alone. *)
Definition named_record (file : DriveFile.t) : Doc.t :=
  GDriveIndexer.record file
    (GDriveIndexer.extractMetadataFromFilename (DriveFile.name file)) None.

End Uploads.

(** ** More sample data *)

Module Fixture.

(** A file uploaded to the Drive as a Word document. *)
Definition upload (id name : string) : DriveFile.t :=
  {| DriveFile.id := id; DriveFile.name := name;
     DriveFile.mimeType :=
       "application/vnd.openxmlformats-officedocument.wordprocessingml.document";
     DriveFile.webViewLink := None; DriveFile.createdTime := None;
     DriveFile.modifiedTime := None |}.

(** An index entry with an industry and an embedding. *)
Definition profiled (id industry : string) (embedding : vec) : Doc.t :=
  {| Doc.id := id; Doc.fileName := None; Doc.webViewLink := None;
     Doc.createdTime := None; Doc.modifiedTime := None;
     Doc.filePath := None;
     Doc.meta :=
       {| Meta.customer := None; Meta.project := None;
          Meta.industry := Some industry; Meta.modules := None;
          Meta.integrations := None; Meta.features := None;
          Meta.complexity := None; Meta.summary := None;
          Meta.keywords := None |};
     Doc.embedding := embedding; Doc.textLength := None;
     Doc.score := None |}.

(** The criteria that ask for the industry "banking". *)
Definition banking_only : Criteria.t :=
  {| Criteria.industry := Some "banking"; Criteria.minComplexity := None;
     Criteria.requiredFeatures := None |}.

(** A listing of two pages: the token of the first page leads to the
    second. *)
Definition first_page : DriveListing.page :=
  {| DriveListing.files :=
       [Sample.google_doc "1" "Acme SOW"; Sample.google_doc "2" "notes"];
     DriveListing.nextPageToken := Some "t1" |}.

Definition second_page : DriveListing.page :=
  {| DriveListing.files := [upload "3" "scope.pdf"];
     DriveListing.nextPageToken := None |}.

Definition drive_of_two_pages : DriveListing.client :=
  {| DriveListing.files_list := λ _ pageToken,
       if decide (pageToken = None) then Returned first_page
       else if decide (pageToken = Some "t1") then Returned second_page
       else Thrown |}.

End Fixture.

(** * Part II: properties *)

(** ** The order of numbers

    Facts about [<?] and [<=?] on binary64 values, from the specification
    of the comparison. *)

Module NumFacts.

Local Open Scope float_scope.

Lemma compare_antisym (x y : spec_float) :
  SFcompare y x = CompOpp <$> SFcompare x y.
Proof.
  destruct x as [[]|[]| |[] mx ex], y as [[]|[]| |[] my ey]; simpl;
    try reflexivity; f_equal.
  all: rewrite (Z.compare_antisym ex ey); destruct (ex ?= ey)%Z; simpl;
    try reflexivity.
  all: change (Pos.compare_cont Eq) with Pos.compare;
    rewrite (Pos.compare_antisym mx my);
    destruct (mx ?= my)%positive; reflexivity.
Qed.

Lemma ltb_leb (x y : float) : (x <? y) = true → (x <=? y) = true.
Proof.
  rewrite ltb_spec, leb_spec. unfold SFltb, SFleb.
  by destruct (SFcompare _ _) as [[]|].
Qed.

(** When two numbers are comparable (neither is NaN) and the first is not
    below the second, the second is at most the first. *)
Lemma nlt_ge (x y : float) :
  (x <? y) = false →
  (x <=? y) || (y <=? x) = true →
  (y <=? x) = true.
Proof.
  rewrite ltb_spec, !leb_spec. unfold SFltb, SFleb.
  rewrite (compare_antisym (Prim2SF x) (Prim2SF y)).
  by destruct (SFcompare _ _) as [[]|].
Qed.

Lemma lexicographic_trans (e1 e2 e3 : Z) (m1 m2 m3 : positive)
    (c1 c2 c3 : comparison) :
  c1 = match (e1 ?= e2)%Z with
       | Eq => Pos.compare_cont Eq m1 m2 | Lt => Lt | Gt => Gt end →
  c2 = match (e2 ?= e3)%Z with
       | Eq => Pos.compare_cont Eq m2 m3 | Lt => Lt | Gt => Gt end →
  c3 = match (e1 ?= e3)%Z with
       | Eq => Pos.compare_cont Eq m1 m3 | Lt => Lt | Gt => Gt end →
  (c1 ≠ Gt → c2 ≠ Gt → c3 ≠ Gt) ∧ (c1 ≠ Lt → c2 ≠ Lt → c3 ≠ Lt).
Proof.
  intros -> -> ->.
  change (Pos.compare_cont Eq) with Pos.compare.
  destruct (Z.compare_spec e1 e2), (Z.compare_spec e2 e3),
    (Z.compare_spec e1 e3); try lia; try (split; congruence).
  destruct (Pos.compare_spec m1 m2), (Pos.compare_spec m2 m3),
    (Pos.compare_spec m1 m3); try lia; split; congruence.
Qed.

Lemma leb_trans (x y z : float) :
  (x <=? y) = true → (y <=? z) = true → (x <=? z) = true.
Proof.
  rewrite !leb_spec. unfold SFleb.
  destruct (Prim2SF x) as [[]|[]| |[] mx ex],
    (Prim2SF y) as [[]|[]| |[] my ey],
    (Prim2SF z) as [[]|[]| |[] mz ez]; simpl; try done.
  - pose proof (lexicographic_trans ex ey ez mx my mz _ _ _
                  eq_refl eq_refl eq_refl) as [_ H].
    destruct (ex ?= ey)%Z, (ey ?= ez)%Z, (ex ?= ez)%Z;
      try done;
      try destruct (Pos.compare_cont Eq mx my);
      try destruct (Pos.compare_cont Eq my mz);
      try destruct (Pos.compare_cont Eq mx mz);
      simpl in *; try done; exfalso; by apply H.
  - pose proof (lexicographic_trans ex ey ez mx my mz _ _ _
                  eq_refl eq_refl eq_refl) as [H _].
    destruct (ex ?= ey)%Z, (ey ?= ez)%Z, (ex ?= ez)%Z;
      try done;
      try destruct (Pos.compare_cont Eq mx my);
      try destruct (Pos.compare_cont Eq my mz);
      try destruct (Pos.compare_cont Eq mx mz);
      simpl in *; try done; exfalso; by apply H.
Qed.

(** Two numbers equal to a third are not strictly ordered. *)
Lemma eqb_ltb (x y s : float) :
  (x =? s) = true → (y =? s) = true → (x <? y) = false.
Proof.
  rewrite !FloatAxioms.eqb_spec, ltb_spec. unfold SFeqb, SFltb.
  destruct (Prim2SF x) as [[]|[]| |[] mx ex],
    (Prim2SF y) as [[]|[]| |[] my ey],
    (Prim2SF s) as [[]|[]| |[] ms es]; simpl; try done.
  all: change (Pos.compare_cont Eq) with Pos.compare.
  all: destruct (Z.compare_spec ex es), (Z.compare_spec ey es),
         (Z.compare_spec ex ey); try done; try lia.
  all: destruct (Pos.compare_spec mx ms), (Pos.compare_spec my ms),
         (Pos.compare_spec mx my); try done; try lia.
Qed.

Lemma finite_not_nan (x : float) : is_finite x = true → is_nan x = false.
Proof.
  unfold is_finite. rewrite negb_true_iff, orb_false_iff. by intros [? _].
Qed.

(** Two numbers that are not NaN are comparable. *)
Lemma not_nan_total (x y : float) :
  is_nan x = false → is_nan y = false → (x <=? y) || (y <=? x) = true.
Proof.
  unfold is_nan. rewrite !negb_false_iff, !FloatAxioms.eqb_spec, !leb_spec.
  unfold SFeqb, SFleb.
  rewrite (compare_antisym (Prim2SF x) (Prim2SF y)).
  destruct (Prim2SF x) as [[]|[]| |[] mx ex],
    (Prim2SF y) as [[]|[]| |[] my ey]; simpl; try done.
  all: intros _ _; destruct (ex ?= ey)%Z; try done.
  all: by destruct (Pos.compare_cont Eq mx my).
Qed.

(** *** The sign of a difference

    The difference of two binary64 numbers is rounded, but never to zero
    and never across zero: [y - x] is positive exactly when [x < y]. *)

Local Open Scope Z_scope.
Import Num.

Lemma digits2_bounds (m : positive) :
  2 ^ (Zpos (digits2_pos m) - 1) ≤ Zpos m < 2 ^ Zpos (digits2_pos m).
Proof.
  induction m as [m IH|m IH|]; cbn [digits2_pos].
  - rewrite Pos2Z.inj_succ.
    replace (Z.succ (Zpos (digits2_pos m)) - 1)
      with (Z.succ (Zpos (digits2_pos m) - 1)) by lia.
    rewrite !Z.pow_succ_r by lia. lia.
  - rewrite Pos2Z.inj_succ.
    replace (Z.succ (Zpos (digits2_pos m)) - 1)
      with (Z.succ (Zpos (digits2_pos m) - 1)) by lia.
    rewrite !Z.pow_succ_r by lia. lia.
  - simpl. lia.
Qed.

Lemma iter_pos_nat {A : Type} (f : A → A) (p : positive) (x : A) :
  SpecFloat.iter_pos f p x = Nat.iter (Pos.to_nat p) f x.
Proof.
  revert x. induction p as [p IH|p IH|]; intros x; cbn [SpecFloat.iter_pos].
  - rewrite !IH, Pos2Nat.inj_xI.
    replace (S (2 * Pos.to_nat p))%nat
      with (Pos.to_nat p + (Pos.to_nat p + 1))%nat by lia.
    rewrite !Nat.iter_add. reflexivity.
  - rewrite !IH, Pos2Nat.inj_xO.
    replace (2 * Pos.to_nat p)%nat
      with (Pos.to_nat p + Pos.to_nat p)%nat by lia.
    rewrite Nat.iter_add. reflexivity.
  - reflexivity.
Qed.

Lemma shr_1_positive (mrs : shr_record) (m : positive) :
  shr_m mrs = Zpos m → m ≠ 1%positive →
  ∃ m', shr_m (shr_1 mrs) = Zpos m'
        ∧ digits2_pos m = Pos.succ (digits2_pos m').
Proof.
  destruct mrs as [z r s]. simpl. intros -> Hm.
  destruct m as [m|m|]; [by exists m..|done].
Qed.

Lemma iter_shr_1_positive (k : nat) (mrs : shr_record) (m : positive) :
  shr_m mrs = Zpos m → Z.of_nat k < Zpos (digits2_pos m) →
  ∃ m', shr_m (Nat.iter k shr_1 mrs) = Zpos m'
        ∧ Zpos (digits2_pos m') = Zpos (digits2_pos m) - Z.of_nat k.
Proof.
  intros Hm. induction k as [|k IH]; intros Hk.
  - exists m. split; [done|simpl; lia].
  - destruct IH as (m1 & Hm1 & Hd1); [lia|].
    cbn [Nat.iter].
    destruct (shr_1_positive _ m1 Hm1) as (m2 & Hm2 & Hd2).
    { intros ->. simpl in Hd1. lia. }
    exists m2. split; [done|]. rewrite Hd2, Pos2Z.inj_succ in Hd1. lia.
Qed.

Lemma shr_m_of_loc (m : Z) (l : location) :
  shr_m (shr_record_of_loc m l) = m.
Proof. by destruct l as [|[]]. Qed.

(** Shifting a positive mantissa to its format exponent leaves it
    positive: only digits beyond the precision are dropped. *)
Lemma shr_fexp_positive (m : positive) (e : Z) (l : location) :
  emin64 ≤ e →
  ∃ m', shr_m (shr_fexp prec emax (Zpos m) e l).1 = Zpos m'
        ∧ emin64 ≤ (shr_fexp prec emax (Zpos m) e l).2.
Proof.
  intros He. unfold shr_fexp, shr, Zdigits2.
  destruct (fexp64 (Zpos (digits2_pos m) + e) - e) as [|p|p] eqn:Hn.
  - exists m. cbn [fst snd]. by rewrite shr_m_of_loc.
  - unfold SpecFloat.fexp in Hn. cbn [fst snd].
    rewrite iter_pos_nat.
    destruct (iter_shr_1_positive (Pos.to_nat p)
                (shr_record_of_loc (Zpos m) l) m) as (m' & Hm' & _).
    + apply shr_m_of_loc.
    + rewrite positive_nat_Z. unfold prec in *. lia.
    + exists m'. split; [done|lia].
  - exists m. cbn [fst snd]. by rewrite shr_m_of_loc.
Qed.

Lemma round_nearest_even_positive (m : positive) (l : location) :
  ∃ m', round_nearest_even (Zpos m) l = Zpos m'.
Proof.
  destruct l as [|[]]; cbn [round_nearest_even].
  - by exists m.
  - destruct (Z.even (Zpos m)); [by exists m|by exists (m + 1)%positive].
  - by exists m.
  - by exists (m + 1)%positive.
Qed.

Lemma binary_round_aux_signed (s : bool) (m : positive) (e : Z)
    (l : location) :
  emin64 ≤ e → signed s (binary_round_aux prec emax s (Zpos m) e l).
Proof.
  intros He. unfold binary_round_aux.
  destruct (shr_fexp_positive m e l He) as (m1 & Hm1 & He1).
  destruct (shr_fexp prec emax (Zpos m) e l) as [mrs1 e1].
  cbn [fst snd] in *. rewrite Hm1.
  destruct (round_nearest_even_positive m1 (loc_of_shr_record mrs1))
    as (m2 & ->).
  destruct (shr_fexp_positive m2 e1 loc_Exact He1) as (m3 & Hm3 & He3).
  destruct (shr_fexp prec emax (Zpos m2) e1 loc_Exact) as [mrs3 e3].
  cbn [fst snd] in *. rewrite Hm3.
  destruct (e3 <=? emax - prec); [right; eauto|by left].
Qed.

Lemma binary_round_signed (s : bool) (m : positive) (e : Z) :
  emin64 ≤ e → signed s (binary_round prec emax s m e).
Proof.
  intros He. unfold binary_round, shl_align.
  destruct (fexp64 (Zpos (digits2_pos m) + e) - e) as [|p|p] eqn:Hn;
    apply binary_round_aux_signed; try done.
  unfold SpecFloat.fexp in *. lia.
Qed.

(** A rounded number is above zero exactly when the integer it was
    rounded from is. *)
Lemma binary_normalize_pos (d e : Z) :
  emin64 ≤ e →
  SFltb (S754_zero false) (binary_normalize prec emax d e false) = (0 <? d).
Proof.
  intros He. destruct d as [|d|d]; cbn [binary_normalize]; [done|..].
  - by destruct (binary_round_signed false d e He) as [->|(m' & e' & ->)].
  - by destruct (binary_round_signed true d e He) as [->|(m' & e' & ->)].
Qed.

Lemma pos_iter_xO (m d : positive) :
  Zpos (Pos.iter xO m d) = Zpos m * 2 ^ Zpos d.
Proof.
  induction d as [|d IH] using Pos.peano_ind.
  - simpl. lia.
  - rewrite Pos.iter_succ, Pos2Z.inj_xO, IH, Pos2Z.inj_succ,
      Z.pow_succ_r by lia.
    lia.
Qed.

Lemma shl_align_value (m : positive) (e ez : Z) :
  ez ≤ e → Zpos (shl_align m e ez).1 = Zpos m * 2 ^ (e - ez).
Proof.
  intros Hle. unfold shl_align.
  destruct (ez - e) as [|d|d] eqn:Hd; cbn [fst]; [|lia|].
  - replace (e - ez) with 0 by lia. lia.
  - replace (e - ez) with (Zpos d) by lia. apply pos_iter_xO.
Qed.

(** A canonical mantissa has at most 53 digits, and exactly 53 unless
    the exponent is the smallest one. *)
Lemma canonical_bounds (m : positive) (e : Z) :
  canonical_mantissa prec emax m e = true →
  emin64 ≤ e
  ∧ Zpos m < 2 ^ 53
  ∧ (emin64 < e → 2 ^ 52 ≤ Zpos m).
Proof.
  unfold canonical_mantissa, SpecFloat.fexp. intros Hc%Z.eqb_eq.
  pose proof (digits2_bounds m) as [Hlo Hhi].
  unfold prec in *. split; [lia|split].
  - eapply Z.lt_le_trans; [exact Hhi|].
    apply Z.pow_le_mono_r; lia.
  - intros He. replace (Zpos (digits2_pos m)) with 53 in Hlo by lia.
    exact Hlo.
Qed.

Lemma valid_finite (s : bool) (m : positive) (e : Z) :
  valid_binary (S754_finite s m e) = true →
  emin64 ≤ e ∧ Zpos m < 2 ^ 53 ∧ (emin64 < e → 2 ^ 52 ≤ Zpos m).
Proof.
  unfold SpecFloat.valid_binary, bounded. intros [Hc _]%andb_true_iff.
  by apply canonical_bounds.
Qed.

(** The comparison of two finite numbers is the comparison of their
    signed mantissas, aligned on the smaller exponent. *)
Lemma SFltb_aligned (sx sy : bool) (mx my : positive) (ex ey : Z) :
  valid_binary (S754_finite sx mx ex) = true →
  valid_binary (S754_finite sy my ey) = true →
  SFltb (S754_finite sx mx ex) (S754_finite sy my ey)
  = (cond_Zopp sx (Zpos mx * 2 ^ (ex - Z.min ex ey))
     <? cond_Zopp sy (Zpos my * 2 ^ (ey - Z.min ex ey))).
Proof.
  intros (Hex & Hmx & Hnx)%valid_finite (Hey & Hmy & Hny)%valid_finite.
  assert (0 < 2 ^ (ex - Z.min ex ey)) as Hpx
    by (apply Z.pow_pos_nonneg; lia).
  assert (0 < 2 ^ (ey - Z.min ex ey)) as Hpy
    by (apply Z.pow_pos_nonneg; lia).
  assert (ex < ey → 2 ≤ 2 ^ (ey - Z.min ex ey)) as Hgy.
  { intros Hlt. change 2 with (2 ^ 1) at 1. apply Z.pow_le_mono_r; lia. }
  assert (ey < ex → 2 ≤ 2 ^ (ex - Z.min ex ey)) as Hgx.
  { intros Hlt. change 2 with (2 ^ 1) at 1. apply Z.pow_le_mono_r; lia. }
  assert (ex ≤ ey → 2 ^ (ex - Z.min ex ey) = 1) as H1x.
  { intros Hle. replace (ex - Z.min ex ey) with 0 by lia. done. }
  assert (ey ≤ ex → 2 ^ (ey - Z.min ex ey) = 1) as H1y.
  { intros Hle. replace (ey - Z.min ex ey) with 0 by lia. done. }
  change (2 ^ 53) with 9007199254740992 in *.
  change (2 ^ 52) with 4503599627370496 in *.
  unfold SFltb, SFcompare, cond_Zopp.
  change (Pos.compare_cont Eq) with Pos.compare.
  symmetry. destruct sx, sy.
  - destruct (Z.compare_spec ex ey) as [Heq|Hlt|Hgt].
    + rewrite (H1x ltac:(lia)), (H1y ltac:(lia)), !Z.mul_1_r.
      destruct (Pos.compare_spec mx my); cbn [CompOpp];
        [apply Z.ltb_ge|apply Z.ltb_ge|apply Z.ltb_lt]; lia.
    + rewrite (H1x ltac:(lia)), Z.mul_1_r. apply Z.ltb_ge.
      specialize (Hgy Hlt). specialize (Hny ltac:(lia)). nia.
    + rewrite (H1y ltac:(lia)), Z.mul_1_r. apply Z.ltb_lt.
      specialize (Hgx Hgt). specialize (Hnx ltac:(lia)). nia.
  - apply Z.ltb_lt. nia.
  - apply Z.ltb_ge. nia.
  - destruct (Z.compare_spec ex ey) as [Heq|Hlt|Hgt].
    + rewrite (H1x ltac:(lia)), (H1y ltac:(lia)), !Z.mul_1_r.
      destruct (Pos.compare_spec mx my);
        [apply Z.ltb_ge|apply Z.ltb_lt|apply Z.ltb_ge]; lia.
    + rewrite (H1x ltac:(lia)), Z.mul_1_r. apply Z.ltb_lt.
      specialize (Hgy Hlt). specialize (Hny ltac:(lia)). nia.
    + rewrite (H1y ltac:(lia)), Z.mul_1_r. apply Z.ltb_ge.
      specialize (Hgx Hgt). specialize (Hnx ltac:(lia)). nia.
Qed.

Lemma SFsub_pos (x y : spec_float) :
  valid_binary x = true → valid_binary y = true →
  SFltb (S754_zero false) (SFsub prec emax y x) = SFltb x y.
Proof.
  intros Hx Hy.
  destruct x as [[]|[]| |sx mx ex], y as [[]|[]| |sy my ey];
    try reflexivity; try (by destruct sx); try (by destruct sy).
  cbn [SFsub]. rewrite SFltb_aligned by done.
  pose proof (valid_finite _ _ _ Hx) as (Hex & _).
  pose proof (valid_finite _ _ _ Hy) as (Hey & _).
  rewrite binary_normalize_pos by lia.
  rewrite !shl_align_value by lia.
  rewrite (Z.min_comm ey ex).
  destruct (Z.ltb_spec 0
              (cond_Zopp sy (Zpos my * 2 ^ (ey - Z.min ex ey))
               - cond_Zopp sx (Zpos mx * 2 ^ (ex - Z.min ex ey))));
    symmetry; [apply Z.ltb_lt|apply Z.ltb_ge]; lia.
Qed.

(** On binary64 numbers, [y - x] is positive exactly when [x < y]. *)
Lemma sub_pos (x y : float) : (0 <? y - x)%float = (x <? y)%float.
Proof.
  rewrite !ltb_spec, sub_spec.
  apply (SFsub_pos (Prim2SF x) (Prim2SF y)); apply Prim2SF_valid.
Qed.

End NumFacts.

(** ** Cosine similarity *)

Module VectorSpec.

Import Vector.
Local Open Scope float_scope.

Lemma loop_body_cons (x y : float) (a b : list float) (s : sums) (i : nat) :
  loop_body (x :: a) (y :: b) s (S i) = loop_body a b s i.
Proof. reflexivity. Qed.

Lemma foldl_loop_body_cons (x y : float) (a b : list float) (s : sums)
    (ixs : list nat) :
  foldl (loop_body (x :: a) (y :: b)) s (S <$> ixs)
  = foldl (loop_body a b) s ixs.
Proof.
  revert s. induction ixs as [|i ixs IH]; intros s; simpl; [done|].
  by rewrite IH.
Qed.

(** The indexed loop visits the coordinates in order: it computes the
    three left-to-right sums. *)
Lemma loop_sums (a b : list float) (s : sums) :
  length a = length b →
  foldl (loop_body a b) s (seq 0 (length a)) =
    {| dotProduct :=
         foldl (λ acc xy, acc + xy.1 * xy.2) (dotProduct s) (zip a b);
       normA := foldl (λ acc xy, acc + xy.1 * xy.2) (normA s) (zip a a);
       normB := foldl (λ acc xy, acc + xy.1 * xy.2) (normB s) (zip b b) |}.
Proof.
  revert b s. induction a as [|x a IH]; intros [|y b] s Hlen; try done.
  - by destruct s.
  - simpl in Hlen. injection Hlen as Hlen.
    cbn [length seq foldl]. rewrite <- fmap_S_seq.
    rewrite foldl_loop_body_cons, IH by done.
    reflexivity.
Qed.

Lemma loop_dot (a b : list float) :
  length a = length b →
  loop a b = Sums (dot a b) (dot a a) (dot b b).
Proof. intros Hlen. unfold loop. by rewrite loop_sums. Qed.





End VectorSpec.

(** ** Sorting *)

Module SortFacts.

Import Retriever.

Section Generic.

Context {A : Type} (compareFn : A → A → float).

Lemma insert_sorted_perm (x : A) (l : list A) :
  insert_sorted compareFn x l ≡ₚ x :: l.
Proof.
  induction l as [|y l IH]; simpl; [done|].
  destruct (comes_after compareFn x y); [|done].
  rewrite IH. apply Permutation_swap.
Qed.

Lemma sort_perm (l : list A) : sort compareFn l ≡ₚ l.
Proof.
  induction l as [|x l IH]; simpl; [done|].
  rewrite insert_sorted_perm. by f_equiv.
Qed.

Lemma sort_length (l : list A) : length (sort compareFn l) = length l.
Proof. by rewrite sort_perm. Qed.

Lemma sort_elem_of (x : A) (l : list A) : x ∈ sort compareFn l ↔ x ∈ l.
Proof. by rewrite sort_perm. Qed.

(** Insertion keeps the elements of a class in their order when the
    comparator never puts one member of the class behind another. *)
Lemma filter_insert_sorted (p : A → bool) (x : A) (l : list A) :
  (∀ y, y ∈ l → comes_after compareFn x y = true →
        p x = true → p y = true → False) →
  filter (λ d, p d) (insert_sorted compareFn x l) = filter (λ d, p d) (x :: l).
Proof.
  induction l as [|y l IH]; intros Hord; simpl; [done|].
  destruct (comes_after compareFn x y) eqn:Hxy; [|done].
  rewrite (filter_cons _ y), IH.
  2: { intros z Hz. apply Hord. by right. }
  rewrite !filter_cons.
  destruct (decide (p y)) as [Hy|Hy], (decide (p x)) as [Hx|Hx]; try done.
  exfalso. apply (Hord y); [by left|done|by apply Is_true_true|by apply Is_true_true].
Qed.

Lemma filter_sort (p : A → bool) (l : list A) :
  (∀ x y, x ∈ l → y ∈ l → comes_after compareFn x y = true →
          p x = true → p y = true → False) →
  filter (λ d, p d) (sort compareFn l) = filter (λ d, p d) l.
Proof.
  induction l as [|x l IH]; intros Hord; simpl; [done|].
  rewrite filter_insert_sorted.
  - rewrite !filter_cons, IH; [done|].
    intros y z Hy Hz. apply Hord; by right.
  - intros y Hy. apply Hord; [by left|].
    right. by apply (proj1 (sort_elem_of y l)).
Qed.

End Generic.

End SortFacts.

(** ** Ranking *)

Module RankingFacts.

Import Retriever.
Local Open Scope float_scope.

(** The comparator is consistent on scores that are not NaN. *)
Lemma consistent_docs (l : list Doc.t) (a b : Doc.t) :
  comparable l → a ∈ l → b ∈ l →
  ordered_pair (score_of a) (score_of b).
Proof.
  unfold comparable. rewrite Forall_forall. intros Hc Ha Hb. split.
  - apply NumFacts.sub_pos.
  - apply NumFacts.not_nan_total; by apply NumFacts.finite_not_nan, Hc.
Qed.

Lemma insert_descending (x : Doc.t) (l : list Doc.t) :
  (∀ y, y ∈ l → ordered_pair (score_of x) (score_of y)) →
  StronglySorted descending l →
  StronglySorted descending (insert_sorted by_score x l).
Proof.
  induction l as [|y l IH]; intros Hord Hsorted; simpl.
  { repeat constructor. }
  apply StronglySorted_cons in Hsorted as [Hy Hsorted].
  destruct (Hord y) as [Hsign Htotal]; [by left|].
  unfold comes_after, by_score. rewrite Hsign.
  destruct (score_of x <? score_of y) eqn:Hlt.
  - apply StronglySorted_cons. split.
    + rewrite (SortFacts.insert_sorted_perm by_score x l). constructor; [|done].
      by apply NumFacts.ltb_leb.
    + apply IH; [|done]. intros z Hz. apply Hord. by right.
  - apply StronglySorted_cons. split.
    + assert (descending x y) as Hxy by by apply NumFacts.nlt_ge.
      constructor; [done|].
      eapply Forall_impl; [exact Hy|].
      intros z Hz. unfold descending in *.
      by apply NumFacts.leb_trans with (score_of y).
    + apply StronglySorted_cons. by split.
Qed.

Lemma sort_descending (l : list Doc.t) :
  comparable l →
  StronglySorted descending (sort by_score l).
Proof.
  intros Hc.
  assert (∀ a b, a ∈ l → b ∈ l → ordered_pair (score_of a) (score_of b))
    as Hord by (intros; by eapply consistent_docs).
  clear Hc. induction l as [|x l IH]; simpl; [constructor|].
  apply insert_descending.
  - intros y Hy. apply Hord; [by left|].
    right. by apply (proj1 (SortFacts.sort_elem_of by_score y l)).
  - apply IH. intros a b Ha Hb. apply Hord; by right.
Qed.

(** Stability: the documents tied at a score keep the order of the
    index. *)
Lemma sort_stable (l : list Doc.t) (s : float) :
  comparable l →
  filter (λ d, tied s d) (sort by_score l) = filter (λ d, tied s d) l.
Proof.
  intros Hc. apply (SortFacts.filter_sort by_score (tied s)).
  intros x y Hx Hy Hafter Htx Hty.
  destruct (consistent_docs l x y Hc Hx Hy) as [Hsign _].
  unfold comes_after, by_score in Hafter. rewrite Hsign in Hafter.
  unfold tied in Htx, Hty.
  by rewrite (NumFacts.eqb_ltb _ _ s Htx Hty) in Hafter.
Qed.

End RankingFacts.

(** ** Queries *)

Module RetrieverSpec.

Import Retriever.
Local Open Scope float_scope.

Lemma slice0_take {A : Type} (l : list A) (end_ : Z) :
  (0 ≤ end_)%Z → slice0 l end_ = take (Z.to_nat end_) l.
Proof.
  intros Hend. unfold slice0.
  destruct (end_ <? 0)%Z eqn:Hneg; [lia|].
  destruct (decide (end_ ≤ Z.of_nat (length l))%Z) as [Hle|Hgt].
  - by rewrite Z.min_l.
  - rewrite Z.min_r, Nat2Z.id by lia.
    rewrite !take_ge; [done|lia..].
Qed.

Lemma slice0_prefix {A : Type} (l : list A) (end_ : Z) :
  slice0 l end_ `prefix_of` l.
Proof. apply prefix_take. Qed.

Lemma slice0_all {A : Type} (l : list A) (end_ : Z) :
  (Z.of_nat (length l) ≤ end_)%Z → slice0 l end_ = l.
Proof.
  intros Hall. rewrite slice0_take by lia. apply take_ge. lia.
Qed.

Lemma prefix_filter {A : Type} (P : A → Prop) `{!∀ x, Decision (P x)}
    (l1 l2 : list A) :
  l1 `prefix_of` l2 → filter P l1 `prefix_of` filter P l2.
Proof. intros [k ->]. rewrite filter_app. by eexists. Qed.

Lemma prefix_fmap {A B : Type} (f : A → B) (l1 l2 : list A) :
  l1 `prefix_of` l2 → f <$> l1 `prefix_of` f <$> l2.
Proof. intros [k ->]. rewrite fmap_app. by eexists. Qed.

Lemma filter_fmap_bool {A B : Type} (f : A → B) (p : B → bool)
    (l : list A) :
  filter (λ y, p y) (f <$> l) = f <$> filter (λ x, p (f x)) l.
Proof.
  induction l as [|x l IH]; csimpl; [done|].
  rewrite !filter_cons, IH. by destruct (decide (p (f x))).
Qed.

Lemma score_of_without_embedding (doc : Doc.t) :
  score_of (Doc.without_embedding doc) = score_of doc.
Proof. reflexivity. Qed.

Lemma findSimilar_returned (gemini : Gemini) (index : list Doc.t)
    (queryText : string) (topK : Z) (queryEmbedding : vec) :
  generateEmbedding gemini queryText = Returned queryEmbedding →
  findSimilar gemini index queryText topK =
    Returned
      (Doc.without_embedding
         <$> slice0 (sort by_score (similarities queryEmbedding index)) topK).
Proof.
  intros Hq. unfold findSimilar. destruct index as [|doc index].
  - by destruct topK.
  - cbn [length Nat.eqb]. by rewrite Hq.
Qed.

(** An unscorable record is given the score 0. *)
Lemma unscorable_zero (queryEmbedding : vec) (doc : Doc.t) :
  unscorable queryEmbedding doc →
  Vector.cosineSimilarity queryEmbedding (Doc.embedding doc) = 0.
Proof.
  unfold unscorable.
  destruct queryEmbedding as [q|], (Doc.embedding doc) as [e|];
    try reflexivity.
  intros [?|Hlen]; [done|]. simpl in Hlen.
  unfold Vector.cosineSimilarity.
  destruct (length q =? length e)%nat eqn:Heq; [|done].
  apply Nat.eqb_eq in Heq. congruence.
Qed.

(** In a list in descending order an earlier element has no lower score
    than a later one. *)
Lemma descending_lookup (l : list Doc.t) (i j : nat) (x y : Doc.t) :
  StronglySorted descending l →
  l !! i = Some x → l !! j = Some y → (i < j)%nat → descending x y.
Proof.
  intros Hsorted Hi Hj Hlt.
  rewrite <- (take_drop (S i) l) in Hsorted.
  apply (StronglySorted_app_1_elem_of _ _ _ _ _ Hsorted).
  - apply (list_elem_of_lookup_2 _ i). rewrite lookup_take_lt; [done|lia].
  - apply (list_elem_of_lookup_2 _ (j - S i)). rewrite lookup_drop.
    by replace (S i + (j - S i))%nat with j by lia.
Qed.

(** A score that is at least 0 is not negative. *)
Lemma not_negative (x : float) : (0 <=? x) = true → (x <? 0) = false.
Proof.
  rewrite ltb_spec, leb_spec. unfold SFltb, SFleb.
  rewrite (NumFacts.compare_antisym (Prim2SF x) (Prim2SF 0)).
  by destruct (SFcompare (Prim2SF x) (Prim2SF 0)) as [[]|].
Qed.

(** C8.  On an empty index [findSimilar] returns the empty list for every
    query text and every [topK]; the embedding model is not called, so
    that no failure of it can surface. *)
Theorem findSimilar_empty_index :
  ∀ (gemini : Gemini) (queryText : string) (topK : Z),
    findSimilar gemini [] queryText topK = Returned [].
Proof.
  intros gemini queryText topK. unfold findSimilar.
  (* [this.index.length === 0] holds, the first [return] is taken *)
  cbn [length Nat.eqb]. reflexivity.
Qed.

(** C6 (as amended).  When the query is embedded, [topK] is not negative
    and every similarity is a finite number, [findSimilar] returns at most
    [topK] results, sorted by descending score, the records tied at a
    score in the order of the index, each one a record of the index with
    its score added and its embedding removed; and no record left out has
    a higher score than a returned one. *)
Theorem findSimilar_ranked (gemini : Gemini) (index : list Doc.t)
    (queryText : string) (topK : Z) (queryEmbedding : vec) :
  generateEmbedding gemini queryText = Returned queryEmbedding →
  (0 ≤ topK)%Z →
  Forall
    (λ doc,
       is_finite (Vector.cosineSimilarity queryEmbedding (Doc.embedding doc))
       = true)
    index →
  ∃ results,
    findSimilar gemini index queryText topK = Returned results
    ∧ (Z.of_nat (length results) ≤ topK)%Z
    ∧ StronglySorted descending results
    ∧ (∀ s, filter (λ d, tied s d) results `prefix_of`
              Doc.without_embedding
                <$> filter (λ d, tied s d) (similarities queryEmbedding index))
    ∧ Forall
        (λ r, Doc.embedding r = None
              ∧ ∃ doc, doc ∈ index
                  ∧ r = Doc.without_embedding
                          (Doc.with_score doc
                             (Vector.cosineSimilarity queryEmbedding
                                (Doc.embedding doc))))
        results
    ∧ (∀ r d, r ∈ results → d ∈ similarities queryEmbedding index →
              Doc.without_embedding d ∈ results ∨ descending r d).
Proof.
  intros Hq Hk Hnan.
  assert (comparable (similarities queryEmbedding index)) as Hc
    by by apply Forall_fmap.
  eexists. split; [by apply findSimilar_returned|].
  rewrite slice0_take by done.
  set (ranked := sort by_score (similarities queryEmbedding index)).
  assert (StronglySorted descending ranked) as Hsorted
    by by apply RankingFacts.sort_descending.
  split; [|split; [|split; [|split]]].
  - rewrite length_fmap, length_take. lia.
  - apply (StronglySorted_fmap _ descending descending); [done|].
    rewrite <- (take_drop (Z.to_nat topK) ranked) in Hsorted.
    by apply StronglySorted_app_1_l in Hsorted.
  - intros s. rewrite filter_fmap_bool. apply prefix_fmap.
    rewrite <- (RankingFacts.sort_stable _ s Hc).
    apply (prefix_filter (λ d, tied s d)), prefix_take.
  - apply Forall_fmap, Forall_take, Forall_forall.
    intros d Hd. split; [done|].
    apply SortFacts.sort_elem_of, list_elem_of_fmap in Hd
      as (doc & -> & Hdoc).
    by exists doc.
  - intros r d Hr Hd.
    apply list_elem_of_fmap in Hr as (r' & -> & Hr').
    apply (SortFacts.sort_elem_of by_score) in Hd. fold ranked in Hd.
    rewrite <- (take_drop (Z.to_nat topK) ranked) in Hd, Hsorted.
    apply elem_of_app in Hd as [Hd|Hd].
    + left. by apply list_elem_of_fmap_2.
    + right. change (descending r' d).
      by apply (StronglySorted_app_1_elem_of _ _ _ _ _ Hsorted).
Qed.

(** C6, witness: three records, two of them tied; the later of the tied
    ones comes second, and [topK = 2] cuts the third off. *)
Lemma findSimilar_ranked_witness :
  ∃ results,
    findSimilar (Sample.gemini_answering (Some [1; 0]))
      [Sample.entry "a" (Some [0; 1]); Sample.entry "b" (Some [2; 0]);
       Sample.entry "c" (Some [3; 0])] "query" 2 = Returned results
    ∧ Doc.id <$> results = ["b"; "c"].
Proof.
  destruct (findSimilar_ranked (Sample.gemini_answering (Some [1; 0]))
              [Sample.entry "a" (Some [0; 1]); Sample.entry "b" (Some [2; 0]);
               Sample.entry "c" (Some [3; 0])] "query" 2 (Some [1; 0]))
    as (results & Hres & _);
    [reflexivity|lia|repeat constructor|].
  exists results. split; [exact Hres|].
  vm_compute in Hres. injection Hres as <-. reflexivity.
Defined.

(** C6, counterexample.  With [topK = -1] the query returns two of three
    records, which is more than [topK]: [slice(0, -1)] drops the last
    element.  With a similarity that is NaN (the dot product of [2, -2]
    and [2^1023, 2^1023] is Infinity - Infinity) the results are not in
    descending order: the record scored 0 stands before the record whose
    score is above 0.5. *)
Lemma findSimilar_not_as_specified :
  findSimilar (Sample.gemini_answering (Some [1; 0]))
    [Sample.entry "a" (Some [0; 1]); Sample.entry "b" (Some [2; 0]);
     Sample.entry "c" (Some [3; 0])] "query" (-1)
  = Returned
      [Doc.with_score (Sample.entry "b" None) 1;
       Doc.with_score (Sample.entry "c" None) 1]
  ∧ ¬ ranked_as_specified (-1)
        [Doc.with_score (Sample.entry "b" None) 1;
         Doc.with_score (Sample.entry "c" None) 1]
  ∧ ∃ results,
      findSimilar (Sample.gemini_answering (Some [2; -2]))
        [Sample.entry "a" None;
         Sample.entry "n" (Some [0x1p+1023; 0x1p+1023]);
         Sample.entry "b" (Some [2; -2])] "query" 3
      = Returned results
      ∧ Doc.id <$> results = ["a"; "n"; "b"]
      ∧ (is_nan <$> (score_of <$> results)) = [false; true; false]
      ∧ (score_of <$> results) !! 0%nat = Some 0
      ∧ (λ s, 0.5 <? s) <$> ((score_of <$> results) !! 2%nat) = Some true
      ∧ ¬ ranked_as_specified 3 results.
Proof.
  split; [reflexivity|]. split.
  { intros (Hlen & _). simpl in Hlen. lia. }
  eexists. split; [reflexivity|].
  split; [reflexivity|]. split; [reflexivity|].
  split; [reflexivity|]. split; [reflexivity|].
  intros (_ & Hsorted & _).
  apply StronglySorted_cons in Hsorted as [Hfirst _].
  apply Forall_cons in Hfirst as [_ Hfirst].
  apply Forall_cons in Hfirst as [Hfirst _].
  vm_compute in Hfirst. discriminate.
Qed.

(** C3 (as amended).  A record whose embedding is absent or has another
    length than the query embedding is given the score 0 exactly, whatever
    its embedding holds, and stays in the ranking with that score: it is
    among the results as soon as [topK] covers the index.  When every
    similarity is a finite number it ranks above the records with a
    negative score: a result with a negative score has the record, with
    its score 0, at an earlier position of the results. *)
Theorem unscorable_record_is_ranked (gemini : Gemini) (index : list Doc.t)
    (queryText : string) (topK : Z) (queryEmbedding : vec) (doc : Doc.t) :
  generateEmbedding gemini queryText = Returned queryEmbedding →
  doc ∈ index →
  unscorable queryEmbedding doc →
  Vector.cosineSimilarity queryEmbedding (Doc.embedding doc) = 0
  ∧ Doc.with_score doc 0 ∈ sort by_score (similarities queryEmbedding index)
  ∧ ((Z.of_nat (length index) ≤ topK)%Z →
     ∃ results,
       findSimilar gemini index queryText topK = Returned results
       ∧ Doc.without_embedding (Doc.with_score doc 0) ∈ results)
  ∧ (Forall
       (λ d,
          is_finite (Vector.cosineSimilarity queryEmbedding (Doc.embedding d))
          = true)
       index →
     ∃ results,
       findSimilar gemini index queryText topK = Returned results
       ∧ ∀ (j : nat) (r : Doc.t),
           results !! j = Some r → (score_of r <? 0) = true →
           ∃ i : nat,
             (i < j)%nat
             ∧ results !! i
               = Some (Doc.without_embedding (Doc.with_score doc 0))).
Proof.
  intros Hq Hdoc Hun.
  pose proof (unscorable_zero _ _ Hun) as Hzero.
  assert (Doc.with_score doc 0
            ∈ sort by_score (similarities queryEmbedding index)) as Hin.
  { apply SortFacts.sort_elem_of, list_elem_of_fmap.
    exists doc. by rewrite Hzero. }
  split; [done|split; [done|split]].
  - intros Hk. eexists. split; [by apply findSimilar_returned|].
    rewrite slice0_all.
    + by apply list_elem_of_fmap_2.
    + unfold similarities. by rewrite SortFacts.sort_length, length_fmap.
  - intros Hfinite.
    assert (comparable (similarities queryEmbedding index)) as Hc
      by by apply Forall_fmap.
    apply RankingFacts.sort_descending in Hc.
    eexists. split; [by apply findSimilar_returned|].
    unfold slice0. intros j r Hj Hneg.
    apply list_lookup_fmap_Some in Hj as (r' & -> & Hj).
    apply lookup_take_Some in Hj as [Hj Hcut].
    rewrite score_of_without_embedding in Hneg.
    apply list_elem_of_lookup_1 in Hin as [i Hi].
    destruct (lt_eq_lt_dec i j) as [[Hlt| ->]|Hgt].
    + exists i. split; [done|].
      apply list_lookup_fmap_Some_2, lookup_take_Some. split; [done|lia].
    + rewrite Hi in Hj. injection Hj as <-. by vm_compute in Hneg.
    + pose proof (descending_lookup _ _ _ _ _ Hc Hj Hi Hgt) as Hdesc.
      apply not_negative in Hdesc. congruence.
Qed.

(** C3, witness: the record without embedding stands before the record
    that is opposite to the query. *)
Lemma unscorable_record_is_ranked_witness :
  Vector.cosineSimilarity (Some [-1]) None = 0
  ∧ ∃ results,
      findSimilar (Sample.gemini_answering (Some [-1]))
        [Sample.entry "scored" (Some [1]); Sample.entry "bare" None]
        "query" 5
      = Returned results
      ∧ ∃ i : nat,
          (i < 1)%nat
          ∧ results !! i
            = Some (Doc.without_embedding
                      (Doc.with_score (Sample.entry "bare" None) 0)).
Proof.
  destruct (unscorable_record_is_ranked
              (Sample.gemini_answering (Some [-1]))
              [Sample.entry "scored" (Some [1]); Sample.entry "bare" None]
              "query" 5 (Some [-1]) (Sample.entry "bare" None))
    as (Hzero & _ & _ & Hrank).
  - reflexivity.
  - right. left.
  - by left.
  - split; [exact Hzero|].
    destruct Hrank as (results & Hres & Hrank); [repeat constructor|].
    exists results. split; [exact Hres|].
    apply (Hrank 1%nat (Doc.with_score (Sample.entry "scored" None) (-1))).
    + vm_compute in Hres. injection Hres as <-. reflexivity.
    + reflexivity.
Defined.

(** C3, counterexample.  Records without a usable embedding are not
    excluded from the ranking.  The index holds a record that is
    opposite to the query (score -1), a record without embedding and a
    record whose embedding has three coordinates; the query embedding has
    one.  With [topK = 2] the results are the two unscorable records, with
    score 0, ahead of the record that was scored. *)
Lemma absent_embedding_is_ranked :
  findSimilar (Sample.gemini_answering (Some [-1]))
    [Sample.entry "scored" (Some [1]); Sample.entry "bare" None;
     Sample.entry "long" (Some [1; 2; 3])] "query" 2
  = Returned
      [Doc.with_score (Sample.entry "bare" None) 0;
       Doc.with_score (Sample.entry "long" None) 0].
Proof. reflexivity. Qed.

End RetrieverSpec.

(** ** Filtering *)

Module FilterSpec.

Import Retriever.

Lemma includes_all (features : option (list string)) (required : list string) :
  forallb (includes features) required = true
  ↔ required ⊆ default [] features.
Proof.
  rewrite forallb_forall. split.
  - intros Hall f Hf. apply list_elem_of_In, Hall in Hf.
    destruct features as [l|]; simpl in *; [|done].
    by apply bool_decide_eq_true in Hf.
  - intros Hsub f Hf. apply list_elem_of_In, Hsub in Hf.
    destruct features as [l|]; simpl in *.
    + by apply bool_decide_eq_true.
    + by apply elem_of_nil in Hf.
Qed.

(** A key that is no key of the table reads as [undefined]. *)
Lemma member_text_None (members : list (string * string)) (key : string) :
  key ∉ members.*1 → member_text members key = None.
Proof.
  induction members as [|[name text] members IH]; [done|].
  cbn. rewrite not_elem_of_cons. intros [? ?].
  case_decide; [congruence|]. by apply IH.
Qed.

Lemma complexityOrder_other (s : string) :
  s ∉ keys → complexityOrder (Some s) = Undefined.
Proof.
  unfold keys. rewrite elem_of_app, !elem_of_cons. intros Hs.
  unfold complexityOrder.
  rewrite !decide_False by (intros ->; apply Hs; auto).
  rewrite member_text_None; [done|]. intros Hin. apply Hs. right.
  revert Hin. generalize s. apply Forall_forall.
  by apply (bool_decide_unpack _).
Qed.

Lemma js_lt_Undefined (a : member) : js_lt a Undefined = false.
Proof. by destruct a. Qed.

Lemma stands_before_elem_of (x y : string) (l : list string) :
  stands_before x y l = true → x ∈ l ∧ y ∈ l.
Proof.
  induction l as [|z l IH]; [done|]. cbn [stands_before].
  case_decide as Hz.
  - intros Hy%bool_decide_eq_true. subst. split; [by left|by right].
  - intros [? ?]%IH. split; by right.
Qed.

Lemma lower_levels_keys (c t : option string) :
  (c, t) ∈ lower_levels →
  c ∈ [Some "low"; Some "medium"; Some "high"]
  ∧ ∃ s u, c = Some s ∧ t = Some u ∧ s ∈ keys ∧ u ∈ keys.
Proof.
  unfold lower_levels. rewrite !elem_of_cons, elem_of_nil.
  intros [[= -> ->]|[[= -> ->]|[[= -> ->]|[]]]];
    (split; [by apply (bool_decide_unpack _)|]);
    eexists _, _; (split; [done|]); (split; [done|]);
    split; by apply (bool_decide_unpack _).
Qed.

(** The comparison of the two readings, on two keys of the table. *)
Lemma js_lt_keys (s u : string) :
  s ∈ keys → u ∈ keys →
  js_lt (complexityOrder (Some s)) (complexityOrder (Some u))
  = bool_decide ((Some s, Some u) ∈ lower_levels)
    || stands_before s u members_in_order.
Proof.
  unfold keys. cbn [app members_in_order]. intros Hs Hu.
  repeat (apply elem_of_cons in Hs as [->|Hs]);
    [..|by apply elem_of_nil in Hs];
    repeat (apply elem_of_cons in Hu as [->|Hu]);
    try (by apply elem_of_nil in Hu); vm_compute; reflexivity.
Qed.

(** The callback's comparison is true exactly on the complexities the
    threshold removes. *)
Lemma js_lt_removed (complexity threshold : option string) :
  js_lt (complexityOrder complexity) (complexityOrder threshold) = true
  ↔ removed complexity threshold.
Proof.
  assert (removed complexity threshold →
          ∃ s u, complexity = Some s ∧ threshold = Some u
                 ∧ s ∈ keys ∧ u ∈ keys) as Hkeys.
  { intros [Hl|(c & t & -> & -> & Hb)].
    - by apply lower_levels_keys in Hl as [_ ?].
    - apply stands_before_elem_of in Hb as [Hc Ht].
      exists c, t. unfold keys. rewrite !elem_of_app. auto. }
  destruct complexity as [s|]; [|split; [done|]].
  2: { by intros (? & ? & [=] & _)%Hkeys. }
  destruct threshold as [u|].
  2: { rewrite js_lt_Undefined. split; [done|].
       by intros (? & ? & _ & [=] & _)%Hkeys. }
  destruct (decide (s ∈ keys)) as [Hs|Hs].
  2: { rewrite (complexityOrder_other s Hs). split; [done|].
       intros (? & ? & [= <-] & _ & ? & _)%Hkeys. done. }
  destruct (decide (u ∈ keys)) as [Hu|Hu].
  2: { rewrite (complexityOrder_other u Hu), js_lt_Undefined. split; [done|].
       intros (? & ? & _ & [= <-] & _ & ?)%Hkeys. done. }
  rewrite (js_lt_keys s u Hs Hu), orb_true_iff, bool_decide_eq_true.
  unfold removed. split.
  - intros [?|?]; [by left|]. right. by exists s, u.
  - intros [?|(c & t & [= <-] & [= <-] & ?)]; [by left|by right].
Qed.

(** The three tests of the callback, one after the other. *)
Lemma passes_tests (criteria : Criteria.t) (doc : Doc.t) :
  passes criteria doc =
    negb (Str.truthy (Criteria.industry criteria)
          && negb (bool_decide (Doc.industry doc = Criteria.industry criteria)))
    && negb (Str.truthy (Criteria.minComplexity criteria)
             && js_lt (complexityOrder (Doc.complexity doc))
                  (complexityOrder (Criteria.minComplexity criteria)))
    && from_option (forallb (includes (Doc.features doc))) true
         (Criteria.requiredFeatures criteria).
Proof.
  unfold passes.
  destruct (Str.truthy (Criteria.industry criteria) && _); [done|].
  destruct (Str.truthy (Criteria.minComplexity criteria) && _); [done|].
  destruct (Criteria.requiredFeatures criteria) as [required|]; [|done].
  simpl. by destruct (forallb _ required).
Qed.

Lemma industry_test (criteria : Criteria.t) (doc : Doc.t) :
  negb (Str.truthy (Criteria.industry criteria)
        && negb (bool_decide (Doc.industry doc = Criteria.industry criteria)))
  = true
  ↔ industry_matches criteria doc.
Proof.
  unfold industry_matches.
  destruct (Str.truthy (Criteria.industry criteria)); simpl.
  - rewrite negb_involutive, bool_decide_eq_true. naive_solver.
  - naive_solver.
Qed.

Lemma complexity_test (criteria : Criteria.t) (doc : Doc.t) :
  negb (Str.truthy (Criteria.minComplexity criteria)
        && js_lt (complexityOrder (Doc.complexity doc))
             (complexityOrder (Criteria.minComplexity criteria)))
  = true
  ↔ not_below_threshold criteria doc.
Proof.
  unfold not_below_threshold. rewrite <- js_lt_removed.
  destruct (Str.truthy (Criteria.minComplexity criteria)); simpl.
  - rewrite negb_true_iff, <- not_true_iff_false. naive_solver.
  - naive_solver.
Qed.

Lemma features_test (criteria : Criteria.t) (doc : Doc.t) :
  from_option (forallb (includes (Doc.features doc))) true
    (Criteria.requiredFeatures criteria) = true
  ↔ has_features criteria doc.
Proof.
  unfold has_features.
  destruct (Criteria.requiredFeatures criteria) as [required|]; simpl.
  - rewrite includes_all. naive_solver.
  - naive_solver.
Qed.

(** The callback keeps a record exactly when the record satisfies the
    criteria as the code applies them. *)
Lemma passes_satisfies (criteria : Criteria.t) (doc : Doc.t) :
  passes criteria doc = true ↔ satisfies criteria doc.
Proof.
  rewrite passes_tests, !andb_true_iff.
  rewrite industry_test, complexity_test, features_test.
  unfold satisfies. naive_solver.
Qed.

(** A complexity that is no level is removed only as the name of an
    inherited member, by a threshold that is such a name too. *)
Lemma removed_unknown (complexity threshold : option string) :
  complexity ∉ [Some "low"; Some "medium"; Some "high"] →
  removed complexity threshold →
  complexity ∈ Some <$> members_in_order
  ∧ threshold ∈ Some <$> members_in_order.
Proof.
  intros Hunknown [Hl|(c & t & -> & -> & Hb)].
  - by apply lower_levels_keys in Hl as [? _].
  - apply stands_before_elem_of in Hb as [Hc Ht].
    split; by apply list_elem_of_fmap_2.
Qed.

(** C7 (as amended).  [filterResults] keeps exactly the results that
    satisfy every given criterion: the industry must be the given string,
    the list of features must contain every required feature, and the
    complexity must not be one the threshold removes.  A threshold that is
    one of the three levels removes the lower levels, so that a result
    whose complexity is absent or is no level is kept, and a threshold
    that is neither a level nor the name of a member inherited from
    [Object.prototype] removes nothing; a threshold that is such a name
    removes the names of the members that rank before it, and nothing
    else.  The results kept stand in the order they had; filtering what
    [findSimilar] returned for a [topK] that is not negative leaves at
    most [topK] results, all of them among those that were returned. *)
Theorem filterResults_keeps :
  ∀ (results : list Doc.t) (criteria : Criteria.t),
    (∀ doc,
       doc ∈ filterResults results criteria
       ↔ doc ∈ results
         ∧ (Str.truthy (Criteria.industry criteria) →
            Doc.industry doc = Criteria.industry criteria)
         ∧ (Str.truthy (Criteria.minComplexity criteria) →
            ((Doc.complexity doc, Criteria.minComplexity criteria)
               ∉ [(Some "low", Some "medium"); (Some "low", Some "high");
                  (Some "medium", Some "high")])
            ∧ ¬ (∃ c t,
                   Doc.complexity doc = Some c
                   ∧ Criteria.minComplexity criteria = Some t
                   ∧ stands_before c t
                       ["__proto__"; "constructor"; "__defineGetter__";
                        "__defineSetter__"; "__lookupGetter__";
                        "__lookupSetter__"; "hasOwnProperty"; "isPrototypeOf";
                        "propertyIsEnumerable"; "toLocaleString"; "toString";
                        "valueOf"] = true))
         ∧ (∀ required,
              Criteria.requiredFeatures criteria = Some required →
              required ⊆ default [] (Doc.features doc)))
    ∧ filterResults results criteria `sublist_of` results
    ∧ (∀ gemini index queryText topK,
         findSimilar gemini index queryText topK = Returned results →
         (0 ≤ topK)%Z →
         (Z.of_nat (length (filterResults results criteria)) ≤ topK)%Z).
Proof.
  intros results criteria. split; [|split].
  - intros doc. unfold filterResults.
    rewrite list_elem_of_filter, Is_true_true, passes_satisfies.
    unfold satisfies, industry_matches, not_below_threshold, has_features,
      removed.
    change lower_levels
      with [(Some "low", Some "medium"); (Some "low", Some "high");
            (Some "medium", Some "high")].
    change members_in_order
      with ["__proto__"; "constructor"; "__defineGetter__";
            "__defineSetter__"; "__lookupGetter__"; "__lookupSetter__";
            "hasOwnProperty"; "isPrototypeOf"; "propertyIsEnumerable";
            "toLocaleString"; "toString"; "valueOf"].
    naive_solver.
  - apply sublist_filter.
  - intros gemini index queryText topK Hres Hk.
    pose proof (length_filter (λ doc, passes criteria doc) results) as Hle.
    unfold filterResults.
    enough (Z.of_nat (length results) ≤ topK)%Z by lia.
    unfold findSimilar in Hres.
    destruct (length index =? 0)%nat.
    { injection Hres as <-. simpl. lia. }
    destruct (generateEmbedding gemini queryText) as [|q]; [done|].
    simpl in Hres. injection Hres as <-.
    rewrite length_fmap.
    pose proof (prefix_length _ _ (prefix_take
      (sort by_score (similarities q index)) (Z.to_nat topK))).
    unfold slice0. destruct (topK <? 0)%Z eqn:Hneg; [lia|].
    rewrite length_take. lia.
Qed.

(** C7, counterexample.  A result without a complexity is kept under the
    threshold "high", although it has no ordinal that reaches the
    threshold's; so is a result whose complexity is not one of the three
    levels. *)
Lemma missing_complexity_is_kept :
  filterResults
    [Sample.rated "a" None None; Sample.rated "b" (Some "Medium") None;
     Sample.rated "c" (Some "low") None; Sample.rated "d" (Some "high") None]
    (only_minComplexity (Some "high"))
  = [Sample.rated "a" None None; Sample.rated "b" (Some "Medium") None;
     Sample.rated "d" (Some "high") None]
  ∧ ¬ satisfies_as_specified (only_minComplexity (Some "high"))
        (Sample.rated "a" None None)
  ∧ ¬ satisfies_as_specified (only_minComplexity (Some "high"))
        (Sample.rated "b" (Some "Medium") None).
Proof.
  split; [reflexivity|].
  split; intros (_ & Hreach & _); by destruct (Hreach I) as (d & t & ? & _).
Qed.

(** C10 (as amended).  A result whose complexity is absent or is none of
    "low", "medium" and "high" is not removed by the complexity criterion,
    unless its complexity and the threshold both are names of members
    inherited from [Object.prototype]: the callback answers as it does
    without the threshold, and when the threshold is the only criterion
    the result is kept.  So such a result is kept under every threshold
    when its complexity is absent or is no such name, and under the three
    levels in any case. *)
Theorem unknown_complexity_is_kept (criteria : Criteria.t) (doc : Doc.t) :
  Doc.complexity doc ∉ [Some "low"; Some "medium"; Some "high"] →
  (Doc.complexity doc
     ∉ [Some "__proto__"; Some "constructor"; Some "__defineGetter__";
        Some "__defineSetter__"; Some "__lookupGetter__";
        Some "__lookupSetter__"; Some "hasOwnProperty"; Some "isPrototypeOf";
        Some "propertyIsEnumerable"; Some "toLocaleString"; Some "toString";
        Some "valueOf"])
  ∨ (Criteria.minComplexity criteria
       ∉ [Some "__proto__"; Some "constructor"; Some "__defineGetter__";
          Some "__defineSetter__"; Some "__lookupGetter__";
          Some "__lookupSetter__"; Some "hasOwnProperty"; Some "isPrototypeOf";
          Some "propertyIsEnumerable"; Some "toLocaleString"; Some "toString";
          Some "valueOf"]) →
  passes criteria doc = passes (without_minComplexity criteria) doc
  ∧ (∀ results,
       doc ∈ results →
       doc ∈ filterResults results
               (only_minComplexity (Criteria.minComplexity criteria))).
Proof.
  intros Hunknown Hnames.
  assert (js_lt (complexityOrder (Doc.complexity doc))
            (complexityOrder (Criteria.minComplexity criteria)) = false)
    as Hkept.
  { apply not_true_iff_false. rewrite js_lt_removed.
    intros [Hc Ht]%removed_unknown; [|done].
    by destruct Hnames. }
  split.
  - rewrite !passes_tests. simpl. rewrite Hkept. simpl.
    by rewrite andb_false_r.
  - intros results Hin. unfold filterResults.
    apply list_elem_of_filter. split; [|done].
    rewrite passes_tests. simpl. rewrite Hkept. simpl.
    by rewrite andb_false_r.
Qed.

(** C10, witness. *)
Lemma unknown_complexity_is_kept_witness :
  Sample.rated "b" (Some "Medium") None
    ∈ filterResults
        [Sample.rated "b" (Some "Medium") None;
         Sample.rated "c" (Some "low") None]
        (only_minComplexity (Some "high"))
  ∧ Sample.rated "t" (Some "toString") None
      ∈ filterResults [Sample.rated "t" (Some "toString") None]
          (only_minComplexity (Some "high")).
Proof.
  split.
  - refine (proj2 (unknown_complexity_is_kept
                     (only_minComplexity (Some "high"))
                     (Sample.rated "b" (Some "Medium") None) _ _) _ _).
    + by apply (bool_decide_unpack _).
    + left. by apply (bool_decide_unpack _).
    + by left.
  - refine (proj2 (unknown_complexity_is_kept
                     (only_minComplexity (Some "high"))
                     (Sample.rated "t" (Some "toString") None) _ _) _ _).
    + by apply (bool_decide_unpack _).
    + right. by apply (bool_decide_unpack _).
    + by left.
Defined.

(** C10, counterexample.  The complexity "toString" is none of the three
    levels, and the threshold "valueOf" removes the result that has it:
    both keys read as functions of [Object.prototype], which [<] compares
    by their texts.  A result whose complexity is absent or no key of the
    table is kept under the same threshold. *)
Lemma inherited_complexity_is_removed :
  (Doc.complexity (Sample.rated "p" (Some "toString") None)
     ∉ [Some "low"; Some "medium"; Some "high"])
  ∧ filterResults
      [Sample.rated "p" (Some "toString") None;
       Sample.rated "q" (Some "constructor") None;
       Sample.rated "r" (Some "Medium") None;
       Sample.rated "s" (Some "__proto__") None;
       Sample.rated "u" None None]
      (only_minComplexity (Some "valueOf"))
    = [Sample.rated "r" (Some "Medium") None; Sample.rated "u" None None].
Proof. split; [by apply (bool_decide_unpack _)|reflexivity]. Qed.

End FilterSpec.

(** ** Indexing runs *)

Module RunFacts.

Lemma continues_refl (st : Run) : continues st st.
Proof. exists []. by rewrite app_nil_r, Nat.add_0_r. Qed.

Lemma continues_trans (st0 st1 st2 : Run) :
  continues st0 st1 → continues st1 st2 → continues st0 st2.
Proof.
  intros (a1 & Hi1 & Hp1) (a2 & Hi2 & Hp2). exists (a1 ++ a2).
  rewrite Hi2, Hi1, Hp2, Hp1, length_app, <- app_assoc. split; [done|lia].
Qed.

Lemma continues_count_failure (st : Run) : continues st (count_failure st).
Proof. exists []. simpl. by rewrite app_nil_r, Nat.add_0_r. Qed.

Lemma continues_save (st : Run) : continues st (save st).
Proof. exists []. simpl. by rewrite app_nil_r, Nat.add_0_r. Qed.

Lemma continues_foldl {F : Type} (step : Run → F → Run) (files : list F)
    (st : Run) :
  (∀ st file, continues st (step st file)) →
  continues st (foldl step st files).
Proof.
  intros Hstep. revert st.
  induction files as [|file files IH]; intros st; simpl.
  - apply continues_refl.
  - eapply continues_trans; [apply Hstep|apply IH].
Qed.

(** Every file ends up processed, failed or skipped. *)
Lemma counters_foldl {F : Type} (step : Run → F → Run) (files : list F)
    (st : Run) :
  (∀ st file, processed (step st file) + failed (step st file)
              ≤ S (processed st + failed st)) →
  processed (foldl step st files) + failed (foldl step st files)
  ≤ processed st + failed st + length files.
Proof.
  intros Hstep. revert st.
  induction files as [|file files IH]; intros st; simpl; [lia|].
  specialize (IH (step st file)). specialize (Hstep st file). lia.
Qed.

End RunFacts.

Module GDriveFacts.

Import GDriveIndexer RunFacts.

Lemma push_index (st : Run) (doc : Doc.t) :
  index (push st doc) = index st ++ [doc].
Proof. unfold push. simpl. by destruct (_ =? _). Qed.

Lemma push_processed (st : Run) (doc : Doc.t) :
  processed (push st doc) = S (processed st).
Proof. unfold push. simpl. by destruct (_ =? _). Qed.

Lemma push_failed (st : Run) (doc : Doc.t) :
  failed (push st doc) = failed st.
Proof. unfold push. simpl. by destruct (_ =? _). Qed.

Lemma continues_push (st : Run) (doc : Doc.t) : continues st (push st doc).
Proof.
  exists [doc]. rewrite push_index, push_processed. simpl. split; [done|lia].
Qed.

Lemma drive_step_cases (gemini : Gemini) (drive : Drive) (st : Run)
    (file : DriveFile.t) :
  step gemini drive st file = count_failure st
  ∨ ∃ metadata embedding,
      describe gemini drive file = Returned (metadata, embedding)
      ∧ step gemini drive st file = push st (record file metadata embedding).
Proof.
  unfold step. destruct (describe gemini drive file) as [|[m e]]; eauto.
Qed.

Lemma continues_drive_step (gemini : Gemini) (drive : Drive) (st : Run)
    (file : DriveFile.t) :
  continues st (step gemini drive st file).
Proof.
  destruct (drive_step_cases gemini drive st file) as [->|(m & e & _ & ->)].
  - apply continues_count_failure.
  - apply continues_push.
Qed.

Lemma checkpointed_start (index0 : list Doc.t) :
  checkpointed index0 (start index0).
Proof. repeat split; simpl; [lia|]. by intros k snapshot. Qed.

Lemma checkpointed_count_failure (index0 : list Doc.t) (st : Run) :
  checkpointed index0 st → checkpointed index0 (count_failure st).
Proof. done. Qed.

Lemma checkpointed_push (index0 : list Doc.t) (st : Run) (doc : Doc.t) :
  checkpointed index0 st → checkpointed index0 (push st doc).
Proof.
  intros (Hlen & Hwrites & Hsnap).
  assert (∀ k snapshot,
            writes st !! k = Some snapshot →
            snapshot
            = saveIndex (take (length index0 + 50 * S k) (index st ++ [doc])))
    as Hold.
  { intros k snapshot Hk. rewrite (Hsnap k snapshot Hk).
    apply lookup_lt_Some in Hk. rewrite Hwrites in Hk.
    rewrite take_app_le; [done|].
    pose proof (Nat.Div0.mul_div_le (processed st) 50). lia. }
  unfold push. cbn [processed index].
  destruct (S (processed st) mod 50 =? 0) eqn:Hmod.
  - apply Nat.eqb_eq in Hmod.
    assert (S (processed st) `div` 50 = S (processed st `div` 50)) as Hdiv.
    { pose proof (Nat.div_mod_eq (S (processed st)) 50).
      pose proof (Nat.div_mod_eq (processed st) 50).
      pose proof (Nat.mod_upper_bound (processed st) 50). lia. }
    repeat split; cbn [index processed writes save].
    + rewrite length_app. cbn [length]. lia.
    + rewrite length_app, Hdiv. cbn [length]. lia.
    + intros k snapshot Hk.
      apply lookup_app_Some in Hk as [Hk|[Hge Hk]]; [by apply Hold|].
      apply list_lookup_singleton_Some in Hk as [Hk <-].
      assert (k = processed st `div` 50) as -> by lia.
      rewrite take_ge; [done|].
      rewrite length_app. cbn [length].
      pose proof (Nat.div_mod_eq (S (processed st)) 50). lia.
  - apply Nat.eqb_neq in Hmod.
    assert (S (processed st) `div` 50 = processed st `div` 50) as Hdiv.
    { pose proof (Nat.div_mod_eq (S (processed st)) 50).
      pose proof (Nat.div_mod_eq (processed st) 50).
      pose proof (Nat.mod_upper_bound (processed st) 50).
      pose proof (Nat.mod_upper_bound (S (processed st)) 50). lia. }
    repeat split; cbn [index processed writes].
    + rewrite length_app. cbn [length]. lia.
    + lia.
    + done.
Qed.

Lemma checkpointed_foldl (gemini : Gemini) (drive : Drive)
    (index0 : list Doc.t) (files : list DriveFile.t) (st : Run) :
  checkpointed index0 st →
  checkpointed index0 (foldl (step gemini drive) st files).
Proof.
  revert st. induction files as [|file files IH]; intros st Hst; [done|].
  simpl. apply IH.
  destruct (drive_step_cases gemini drive st file) as [->|(m & e & _ & ->)].
  - by apply checkpointed_count_failure.
  - by apply checkpointed_push.
Qed.

(** [indexFolder] saves the index after every fiftieth processed file and
    once more at the end. *)
Lemma indexFolder_checkpoints (gemini : Gemini) (drive : Drive)
    (index0 : list Doc.t) (files : list DriveFile.t) :
  let st := (indexFolder gemini drive index0 files).1 in
  length (writes st) = S (processed st `div` 50)
  ∧ last (writes st) = Some (saveIndex (index st))
  ∧ ∀ k snapshot,
      k < processed st `div` 50 →
      writes st !! k = Some snapshot →
      snapshot = saveIndex (take (length index0 + 50 * S k) (index st)).
Proof.
  unfold indexFolder. cbn [fst].
  destruct (checkpointed_foldl gemini drive index0 files (start index0)
              (checkpointed_start index0)) as (Hlen & Hwrites & Hsnap).
  cbn [save writes processed index]. repeat split.
  - rewrite length_app. cbn [length]. lia.
  - by rewrite last_snoc.
  - intros k snapshot Hk Hlook. apply Hsnap.
    rewrite lookup_app_l in Hlook; [done|lia].
Qed.

End GDriveFacts.

Module SowFacts.

Import SowIndexer RunFacts.

Lemma directory_step_cases (gemini : Gemini) (path : Path) (parsers : Parsers)
    (st : Run) (file : string) :
  (processSowFile gemini path parsers file = Thrown
   ∧ step gemini path parsers st file = count_failure st)
  ∨ (processSowFile gemini path parsers file = Returned None
     ∧ step gemini path parsers st file = st)
  ∨ ∃ sowData,
      processSowFile gemini path parsers file = Returned (Some sowData)
      ∧ step gemini path parsers st file = push st sowData.
Proof.
  unfold step.
  destruct (processSowFile gemini path parsers file) as [|[doc|]]; eauto.
Qed.

Lemma continues_directory_step (gemini : Gemini) (path : Path) (parsers : Parsers)
    (st : Run) (file : string) :
  continues st (step gemini path parsers st file).
Proof.
  destruct (directory_step_cases gemini path parsers st file)
    as [[_ ->]|[[_ ->]|(doc & _ & ->)]].
  - apply continues_count_failure.
  - apply continues_refl.
  - exists [doc]. simpl. split; [done|lia].
Qed.

(** No step of the directory run writes anything. *)
Lemma step_writes (gemini : Gemini) (path : Path) (parsers : Parsers)
    (st : Run) (file : string) :
  writes (step gemini path parsers st file) = writes st.
Proof.
  by destruct (directory_step_cases gemini path parsers st file)
    as [[_ ->]|[[_ ->]|(doc & _ & ->)]].
Qed.

Lemma foldl_writes (gemini : Gemini) (path : Path) (parsers : Parsers)
    (files : list string) (st : Run) :
  writes (foldl (step gemini path parsers) st files) = writes st.
Proof.
  revert st. induction files as [|file files IH]; intros st; [done|].
  simpl. by rewrite IH, step_writes.
Qed.

(** [indexDirectory] writes the index once, at the end of the run,
    however many files it processed. *)
Lemma indexDirectory_writes_once (gemini : Gemini) (path : Path)
    (parsers : Parsers) (index0 : list Doc.t) (files : list string) :
  let st := (indexDirectory gemini path parsers index0 files).1 in
  writes st = [saveIndex (index st)].
Proof.
  unfold indexDirectory. cbn [fst save writes index].
  by rewrite foldl_writes.
Qed.

End SowFacts.

(** ** What an indexing run stores, counts and writes *)

Module IndexerSpec.

Import RunFacts.

(** C1 (as amended).  Both indexers only append: after a run the index is
    the index the run started on, unchanged, followed by one new record
    for every processed document.  No record is ever replaced and ids are
    not compared, so the index grows by the number of processed documents
    also when their ids are already present. *)
Theorem indexing_appends :
  ∀ (gemini : Gemini) (drive : Drive) (path : Path) (parsers : Parsers)
    (index0 : list Doc.t) (driveFiles : list DriveFile.t)
    (files : list string),
    (∃ added,
       index (GDriveIndexer.indexFolder gemini drive index0 driveFiles).1
       = index0 ++ added
       ∧ length added
         = Summary.processed
             (GDriveIndexer.indexFolder gemini drive index0 driveFiles).2)
    ∧ (∃ added,
         index (SowIndexer.indexDirectory gemini path parsers index0 files).1
         = index0 ++ added
         ∧ length added
           = Summary.processed
               (SowIndexer.indexDirectory gemini path parsers index0 files).2).
Proof.
  intros. split.
  - destruct (continues_foldl (GDriveIndexer.step gemini drive) driveFiles
                (start index0) (GDriveFacts.continues_drive_step gemini drive))
      as (added & Hindex & Hprocessed).
    exists added. by split.
  - destruct (continues_foldl (SowIndexer.step gemini path parsers) files
                (start index0) (SowFacts.continues_directory_step gemini path parsers))
      as (added & Hindex & Hprocessed).
    exists added. by split.
Qed.

(** C1, counterexample.  Indexing a Drive file again, on the index that
    holds its record, leaves two records with its id; and one directory
    run over two files of the same name in different directories stores
    two records with the same id. *)
Lemma reindexing_duplicates :
  Doc.id
    <$> index
          (GDriveIndexer.indexFolder (Sample.gemini_answering Sample.unit_x)
             (Sample.drive_exporting None) []
             [Sample.google_doc "id1" "Acme_SOW"]).1
  = ["id1"]
  ∧ Doc.id
      <$> index
            (GDriveIndexer.indexFolder (Sample.gemini_answering Sample.unit_x)
               (Sample.drive_exporting None)
               (index
                  (GDriveIndexer.indexFolder
                     (Sample.gemini_answering Sample.unit_x)
                     (Sample.drive_exporting None) []
                     [Sample.google_doc "id1" "Acme_SOW"]).1)
               [Sample.google_doc "id1" "Acme_SOW"]).1
    = ["id1"; "id1"]
  ∧ Doc.id
      <$> index
            (SowIndexer.indexDirectory (Sample.gemini_answering Sample.unit_x)
               Sample.docx_paths
               (Sample.parsers_reading (Some (Sample.text_of_length 120))) []
               ["2023/acme_sow.docx"; "2024/acme_sow.docx"]).1
    = ["acme_sow.docx"; "acme_sow.docx"].
Proof. repeat split; vm_compute; reflexivity. Qed.

(** C2 (as amended).  The Drive indexer stores a record with the filename
    metadata and no embedding, and counts it as processed, for every file
    whose text is missing or has at most 100 characters.  The directory
    indexer skips every file whose text is missing or has fewer than 100
    characters: it stores nothing and counts the file neither as
    processed nor as failed.  In both, a record is stored with an
    embedding only if the text was read and had more than 100 (Drive) or
    at least 100 (directory) characters. *)
Theorem short_text_handling :
  (∀ (gemini : Gemini) (drive : Drive) (st : Run) (file : DriveFile.t),
     (∀ t, GDriveIndexer.downloadFile drive file = Some t →
           String.length t ≤ 100) →
     ∃ doc,
       index (GDriveIndexer.step gemini drive st file) = index st ++ [doc]
       ∧ Doc.id doc = DriveFile.id file
       ∧ Doc.meta doc
         = GDriveIndexer.extractMetadataFromFilename (DriveFile.name file)
       ∧ Doc.embedding doc = None
       ∧ processed (GDriveIndexer.step gemini drive st file)
         = S (processed st)
       ∧ failed (GDriveIndexer.step gemini drive st file) = failed st)
  ∧ (∀ (gemini : Gemini) (path : Path) (parsers : Parsers) (st : Run)
       (file : string) (text : option string),
       (Str.toLowerCase (extname path file) = ".docx"
        ∧ extractTextFromDocx parsers file = Returned text)
       ∨ (Str.toLowerCase (extname path file) = ".pdf"
          ∧ extractTextFromPdf parsers file = Returned text) →
       (∀ t, text = Some t → String.length t < 100) →
       SowIndexer.step gemini path parsers st file = st)
  ∧ (∀ (gemini : Gemini) (drive : Drive) (st : Run) (file : DriveFile.t)
       (doc : Doc.t),
       index (GDriveIndexer.step gemini drive st file) = index st ++ [doc] →
       Doc.embedding doc ≠ None →
       ∃ t, GDriveIndexer.downloadFile drive file = Some t
            ∧ 100 < String.length t)
  ∧ (∀ (gemini : Gemini) (path : Path) (parsers : Parsers) (st : Run)
       (file : string) (doc : Doc.t),
       index (SowIndexer.step gemini path parsers st file) = index st ++ [doc] →
       ∃ t, (extractTextFromDocx parsers file = Returned (Some t)
             ∨ extractTextFromPdf parsers file = Returned (Some t))
            ∧ 100 ≤ String.length t).
Proof.
  split; [|split; [|split]].
  - intros gemini drive st file Hshort.
    assert (GDriveIndexer.has_enough_text
              (GDriveIndexer.downloadFile drive file) = false) as Hnot.
    { destruct (GDriveIndexer.downloadFile drive file) as [t|]; [|done].
      simpl. apply Nat.ltb_ge. by apply Hshort. }
    unfold GDriveIndexer.step, GDriveIndexer.describe. rewrite Hnot.
    eexists. rewrite GDriveFacts.push_index, GDriveFacts.push_processed,
      GDriveFacts.push_failed. by repeat split.
  - intros gemini path parsers st file text Hread Hshort.
    assert (SowIndexer.too_short text = true) as Htoo.
    { destruct text as [t|]; [|done]. simpl. apply Nat.ltb_lt. by apply Hshort. }
    unfold SowIndexer.step, SowIndexer.processSowFile.
    destruct Hread as [[-> ->]|[-> ->]]; simpl;
      unfold SowIndexer.processText; by rewrite Htoo.
  - intros gemini drive st file doc Hindex Hemb.
    unfold GDriveIndexer.step, GDriveIndexer.describe in Hindex.
    destruct (GDriveIndexer.downloadFile drive file) as [t|] eqn:Htext;
      simpl in Hindex.
    + destruct (100 <? String.length t) eqn:Hlen.
      * exists t. split; [done|]. by apply Nat.ltb_lt.
      * rewrite GDriveFacts.push_index in Hindex.
        apply app_inj_tail in Hindex as [_ <-]. done.
    + rewrite GDriveFacts.push_index in Hindex.
      apply app_inj_tail in Hindex as [_ <-]. done.
  - intros gemini path parsers st file doc Hindex.
    assert (∀ text,
              index
                (match SowIndexer.processText gemini path file text with
                 | Returned (Some sowData) => SowIndexer.push st sowData
                 | Returned None => st
                 | Thrown => count_failure st
                 end) = index st ++ [doc] →
              ∃ t, text = Some t ∧ 100 ≤ String.length t) as Htext.
    { intros text. unfold SowIndexer.processText.
      destruct (SowIndexer.too_short text) eqn:Htoo.
      - intros Hsame. exfalso. symmetry in Hsame.
        rewrite <- (app_nil_r (index st)) in Hsame at 2.
        by apply app_inv_head in Hsame.
      - intros _. destruct text as [t|]; [|done].
        exists t. split; [done|]. simpl in Htoo. by apply Nat.ltb_ge. }
    assert (index st ≠ index st ++ [doc]) as Hgrows.
    { intros Hsame. rewrite <- (app_nil_r (index st)) in Hsame at 1.
      by apply app_inv_head in Hsame. }
    unfold SowIndexer.step, SowIndexer.processSowFile in Hindex.
    repeat case_decide.
    + destruct (extractTextFromDocx parsers file) as [|text] eqn:Hread;
        [by simpl in Hindex|].
      destruct (Htext text Hindex) as (t & -> & Hlen). exists t. eauto.
    + destruct (extractTextFromPdf parsers file) as [|text] eqn:Hread;
        [by simpl in Hindex|].
      destruct (Htext text Hindex) as (t & -> & Hlen). exists t. eauto.
    + done.
Qed.

(** C2, witness: a Google document of 50 characters is stored by the
    Drive indexer, without embedding. *)
Lemma short_text_handling_witness :
  ∃ doc,
    index
      (GDriveIndexer.step (Sample.gemini_answering Sample.unit_x)
         (Sample.drive_exporting (Some (Sample.text_of_length 50)))
         (start []) (Sample.google_doc "b" "b_sow"))
    = [doc]
    ∧ Doc.embedding doc = None.
Proof.
  destruct short_text_handling as (Hdrive & _).
  destruct (Hdrive (Sample.gemini_answering Sample.unit_x)
              (Sample.drive_exporting (Some (Sample.text_of_length 50)))
              (start []) (Sample.google_doc "b" "b_sow"))
    as (doc & Hindex & _ & _ & Hemb & _).
  - intros t [= <-]. vm_compute. lia.
  - exists doc. split; [exact Hindex|exact Hemb].
Defined.

(** C2, counterexample: the scenario of three documents, A with 500
    characters, B with 50 and C without text.  The directory indexer
    stores one record and reports one processed document of three, none
    failed; the Drive indexer stores three. *)
Lemma directory_run_skips_short_texts :
  (SowIndexer.indexDirectory (Sample.gemini_answering Sample.unit_x)
     Sample.docx_paths
     (Sample.parsers_by_name
        [("a_sow.docx", Some (Sample.text_of_length 500));
         ("b_sow.docx", Some (Sample.text_of_length 50));
         ("c_sow.docx", None)]) []
     ["a_sow.docx"; "b_sow.docx"; "c_sow.docx"]).2
  = {| Summary.processed := 1; Summary.failed := 0; Summary.total := 3 |}
  ∧ Doc.id
      <$> index
            (SowIndexer.indexDirectory (Sample.gemini_answering Sample.unit_x)
               Sample.docx_paths
               (Sample.parsers_by_name
                  [("a_sow.docx", Some (Sample.text_of_length 500));
                   ("b_sow.docx", Some (Sample.text_of_length 50));
                   ("c_sow.docx", None)]) []
               ["a_sow.docx"; "b_sow.docx"; "c_sow.docx"]).1
    = ["a_sow.docx"]
  ∧ (GDriveIndexer.indexFolder (Sample.gemini_answering Sample.unit_x)
       (Sample.drive_by_id
          [("a", Some (Sample.text_of_length 500));
           ("b", Some (Sample.text_of_length 50));
           ("c", None)]) []
       [Sample.google_doc "a" "a_sow"; Sample.google_doc "b" "b_sow";
        Sample.google_doc "c" "c_sow"]).2
    = {| Summary.processed := 3; Summary.failed := 0; Summary.total := 3 |}.
Proof. repeat split; vm_compute; reflexivity. Qed.

(** C5, the directory run on 120 documents of 120 characters each: all
    are processed, and the index is written once, at the end; the Drive
    run on as many documents writes it three times (after the 50th and
    the 100th document and at the end). *)
Lemma directory_run_saves_once :
  Summary.processed
    (SowIndexer.indexDirectory (Sample.gemini_answering Sample.unit_x)
       Sample.docx_paths
       (Sample.parsers_reading (Some (Sample.text_of_length 120))) []
       (Sample.docx_names 1 120)).2
  = 120
  ∧ length
      (writes
         (SowIndexer.indexDirectory (Sample.gemini_answering Sample.unit_x)
            Sample.docx_paths
            (Sample.parsers_reading (Some (Sample.text_of_length 120))) []
            (Sample.docx_names 1 120)).1)
    = 1
  ∧ length
      (writes
         (GDriveIndexer.indexFolder (Sample.gemini_answering Sample.unit_x)
            (Sample.drive_exporting (Some (Sample.text_of_length 120))) []
            (Sample.google_docs 1 120)).1)
    = 3.
Proof. repeat split; vm_compute; reflexivity. Qed.

End IndexerSpec.

(** ** Splitting a name into tokens *)

Module TokenFacts.

Import Tokens.

Lemma app_cons (c : ascii) (s t : string) :
  String c s +:+ t = String c (s +:+ t).
Proof. reflexivity. Qed.

Lemma app_empty (t : string) : EmptyString +:+ t = t.
Proof. reflexivity. Qed.

Lemma weave_cons_char (c : ascii) (t : string) (ts runs : list string) :
  weave (String c t :: ts) runs = String c (weave (t :: ts) runs).
Proof. by destruct runs. Qed.

(** The tokens [split_from] returns, with the runs of separators it went
    over: [pre] is the run the scan started in. *)
Lemma split_from_weave (in_run : bool) (s : string) :
  ∃ pre runs,
    (in_run = false → pre = EmptyString)
    ∧ all_chars Str.is_separator pre = true
    ∧ s = pre +:+ weave (Str.split_from in_run s) runs
    ∧ length (Str.split_from in_run s) = S (length runs)
    ∧ Forall separator_run runs
    ∧ Forall separator_free (Str.split_from in_run s).
Proof.
  revert in_run. induction s as [|c s IH]; intros in_run.
  { exists EmptyString, []. repeat split; try done.
    by repeat constructor. }
  cbn [Str.split_from]. destruct (Str.is_separator c) eqn:Hc.
  - destruct (IH true) as (pre & runs & _ & Hpre & Hs & Hlen & Hruns & Hfree).
    destruct in_run.
    + exists (String c pre), runs. repeat split; try done.
      * cbn [all_chars]. by rewrite Hc, Hpre.
      * rewrite app_cons. by f_equal.
    + exists EmptyString, (String c pre :: runs). repeat split; try done.
      * rewrite app_empty. cbn [weave]. rewrite app_empty, app_cons.
        by f_equal.
      * cbn [length]. by rewrite Hlen.
      * constructor; [|done]. split; [done|].
        cbn [all_chars]. by rewrite Hc, Hpre.
      * constructor; [done|done].
  - destruct (IH false)
      as (pre & runs & Hnil & _ & Hs & Hlen & Hruns & Hfree).
    rewrite (Hnil eq_refl), app_empty in Hs.
    destruct (Str.split_from false s) as [|t ts]; [done|].
    exists EmptyString, runs. repeat split; try done.
    + rewrite app_empty, weave_cons_char. by f_equal.
    + apply Forall_cons in Hfree as [Ht Hts]. constructor; [|done].
      unfold separator_free in *. cbn [all_chars]. by rewrite Hc, Ht.
Qed.

(** [split_separators] cuts the string at its runs of separators: the
    string is the tokens with a run of separators between any two
    neighbours, and no token holds a separator. *)
Lemma split_separators_weave (s : string) :
  ∃ runs,
    s = weave (Str.split_separators s) runs
    ∧ length (Str.split_separators s) = S (length runs)
    ∧ Forall separator_run runs
    ∧ Forall separator_free (Str.split_separators s).
Proof.
  destruct (split_from_weave false s)
    as (pre & runs & Hnil & _ & Hs & Hlen & Hruns & Hfree).
  rewrite (Hnil eq_refl), app_empty in Hs. by exists runs.
Qed.

End TokenFacts.

(** ** More on similarity and queries *)

Module SimilarityFacts.

Import Vector.
Local Open Scope float_scope.

Lemma SFmul_comm (x y : spec_float) :
  SFmul prec emax x y = SFmul prec emax y x.
Proof.
  destruct x as [sx|sx| |sx mx ex], y as [sy|sy| |sy my ey]; simpl;
    rewrite ?(xorb_comm sx sy); try reflexivity.
  by rewrite (Pos.mul_comm mx my), (Z.add_comm ex ey).
Qed.

(** The product of two binary64 numbers does not depend on their
    order. *)
Lemma mul_comm (x y : float) : x * y = y * x.
Proof.
  apply Prim2SF_inj. rewrite !FloatAxioms.mul_spec. apply SFmul_comm.
Qed.

Lemma dot_from_comm (a b : list float) (acc : float) :
  foldl (λ acc xy, acc + xy.1 * xy.2) acc (zip a b)
  = foldl (λ acc xy, acc + xy.1 * xy.2) acc (zip b a).
Proof.
  revert b acc. induction a as [|x a IH]; intros [|y b] acc; try done.
  cbn [zip zip_with foldl fst snd]. by rewrite (mul_comm x y), IH.
Qed.

Lemma dot_comm (a b : list float) : dot a b = dot b a.
Proof. apply dot_from_comm. Qed.

(** The value of [cosineSimilarity] on two arrays, in terms of the three
    sums. *)
Lemma cosineSimilarity_sums (a b : list float) :
  cosineSimilarity (Some a) (Some b) =
    if bool_decide (length a = length b) then
      if Num.is_zero (dot a a) || Num.is_zero (dot b b) then 0
      else dot a b / (sqrt (dot a a) * sqrt (dot b b))
    else 0.
Proof.
  unfold cosineSimilarity. case_bool_decide as Hlen.
  - rewrite (proj2 (Nat.eqb_eq _ _) Hlen). simpl.
    by rewrite VectorSpec.loop_dot.
  - by apply Nat.eqb_neq in Hlen as ->.
Qed.

(** X1.  The similarity is symmetric: [cosineSimilarity(a, b)] and
    [cosineSimilarity(b, a)] are the same number, rounding included, also
    when a vector is absent or the lengths differ. *)
Theorem cosineSimilarity_symmetric :
  ∀ vecA vecB : vec, cosineSimilarity vecA vecB = cosineSimilarity vecB vecA.
Proof.
  intros [a|] [b|]; try reflexivity.
  rewrite !cosineSimilarity_sums.
  destruct (decide (length a = length b)) as [Hlen|Hlen].
  - rewrite !bool_decide_eq_true_2 by done.
    rewrite (orb_comm (Num.is_zero (dot b b))).
    destruct (Num.is_zero (dot a a) || Num.is_zero (dot b b)); [done|].
    by rewrite (dot_comm b a), (mul_comm (sqrt (dot b b))).
  - rewrite !bool_decide_eq_false_2; [done|congruence|done].
Qed.

End SimilarityFacts.

Module QueryFacts.

Import Retriever.
Local Open Scope float_scope.

(** A list on which the comparator never asks for an exchange is left
    as it is. *)
Lemma insert_sorted_front {A : Type} (compareFn : A → A → float) (x : A)
    (l : list A) :
  (∀ y, y ∈ l → comes_after compareFn x y = false) →
  insert_sorted compareFn x l = x :: l.
Proof.
  destruct l as [|y l]; [done|]. intros Hnot. simpl.
  rewrite Hnot; [done|by left].
Qed.

Lemma sort_unordered {A : Type} (compareFn : A → A → float) (l : list A) :
  (∀ x y, x ∈ l → y ∈ l → comes_after compareFn x y = false) →
  sort compareFn l = l.
Proof.
  induction l as [|x l IH]; intros Hnot; [done|]. simpl.
  rewrite IH by (intros y z Hy Hz; apply Hnot; by right).
  apply insert_sorted_front. intros y Hy. apply Hnot; [by left|by right].
Qed.

(** The difference of a number with itself is not positive. *)
Lemma sub_self_not_positive (s : float) : (0 <? s - s) = false.
Proof.
  rewrite NumFacts.sub_pos, ltb_spec. unfold SFltb.
  destruct (Prim2SF s) as [[]|[]| |[] m e]; simpl; try done.
  all: rewrite Z.compare_refl.
  all: change (Pos.compare_cont Eq m m) with (Pos.compare m m).
  all: by rewrite Pos.compare_refl.
Qed.

Lemma slice0_length {A : Type} (l : list A) (end_ : Z) :
  Z.of_nat (length (slice0 l end_))
  = (if (end_ <? 0)%Z then Z.max (Z.of_nat (length l) + end_) 0
     else Z.min end_ (Z.of_nat (length l)))%Z.
Proof.
  unfold slice0. rewrite length_take.
  destruct (end_ <? 0)%Z eqn:Hneg; lia.
Qed.

Lemma slice0_mono {A : Type} (l : list A) (k k' : Z) :
  (0 ≤ k ≤ k')%Z → slice0 l k `prefix_of` slice0 l k'.
Proof.
  intros Hk. rewrite !RetrieverSpec.slice0_take by lia.
  replace (Z.to_nat k) with (Z.to_nat k `min` Z.to_nat k') by lia.
  rewrite <- take_take. apply prefix_take.
Qed.

(** X2.  A query fails only through the embedding model: [findSimilar]
    throws exactly when the index is not empty and the embedding of the
    query text throws; in every other case it returns a list. *)
Theorem findSimilar_throws_iff :
  ∀ (gemini : Gemini) (index : list Doc.t) (queryText : string) (topK : Z),
    findSimilar gemini index queryText topK = Thrown
    ↔ index ≠ [] ∧ generateEmbedding gemini queryText = Thrown.
Proof.
  intros gemini index queryText topK. unfold findSimilar.
  destruct index as [|doc index]; cbn [length Nat.eqb].
  - split; [done|]. by intros [? _].
  - destruct (generateEmbedding gemini queryText) as [|q]; simpl.
    + split; [done|done].
    + split; [done|]. by intros [_ ?].
Qed.

(** X3.  The number of results.  When the query is embedded,
    [findSimilar] on an index of [n] records returns exactly [min topK n]
    results for a [topK] that is not negative, and [n - |topK|] results
    (none when that is negative) for a negative [topK], which cuts the
    lowest-ranked records off; the results are records of the index, each
    taken at most as often as the index holds it. *)
Theorem findSimilar_result_count (gemini : Gemini) (index : list Doc.t)
    (queryText : string) (topK : Z) (queryEmbedding : vec) :
  generateEmbedding gemini queryText = Returned queryEmbedding →
  ∃ results,
    findSimilar gemini index queryText topK = Returned results
    ∧ Z.of_nat (length results)
      = (if (topK <? 0)%Z then Z.max (Z.of_nat (length index) + topK) 0
         else Z.min topK (Z.of_nat (length index)))%Z
    ∧ results ⊆+ Doc.without_embedding <$> similarities queryEmbedding index
    ∧ Doc.id <$> results ⊆+ Doc.id <$> index.
Proof.
  intros Hq. eexists. split; [by apply RetrieverSpec.findSimilar_returned|].
  assert (slice0 (sort by_score (similarities queryEmbedding index)) topK
          ⊆+ similarities queryEmbedding index) as Hsub.
  { etrans; [apply submseteq_take|].
    apply Permutation_submseteq, SortFacts.sort_perm. }
  split; [|split].
  - rewrite length_fmap, slice0_length, SortFacts.sort_length.
    unfold similarities. by rewrite length_fmap.
  - by apply fmap_submseteq.
  - rewrite <- list_fmap_compose.
    apply (fmap_submseteq (Doc.id ∘ Doc.without_embedding)) in Hsub.
    etrans; [exact Hsub|]. unfold similarities.
    by rewrite <- list_fmap_compose.
Qed.

(** X3, witness: three records and [topK = -1]. *)
Lemma findSimilar_result_count_witness :
  ∃ results,
    findSimilar (Sample.gemini_answering (Some [1; 0]))
      [Sample.entry "a" (Some [0; 1]); Sample.entry "b" (Some [2; 0]);
       Sample.entry "c" (Some [1; 1])] "query" (-1) = Returned results
    ∧ Doc.id <$> results = ["b"; "c"].
Proof.
  destruct (findSimilar_result_count (Sample.gemini_answering (Some [1; 0]))
              [Sample.entry "a" (Some [0; 1]); Sample.entry "b" (Some [2; 0]);
               Sample.entry "c" (Some [1; 1])] "query" (-1) (Some [1; 0]))
    as (results & Hres & _); [reflexivity|].
  exists results. split; [exact Hres|].
  vm_compute in Hres. injection Hres as <-. reflexivity.
Defined.

(** X4.  Raising [topK] only appends results: for [0 <= k <= k'] the
    results of a query with [topK = k] are the first results of the same
    query with [topK = k']. *)
Theorem findSimilar_topK_prefix (gemini : Gemini) (index : list Doc.t)
    (queryText : string) (k k' : Z) (queryEmbedding : vec) :
  generateEmbedding gemini queryText = Returned queryEmbedding →
  (0 ≤ k ≤ k')%Z →
  ∃ results results',
    findSimilar gemini index queryText k = Returned results
    ∧ findSimilar gemini index queryText k' = Returned results'
    ∧ results `prefix_of` results'.
Proof.
  intros Hq Hk. do 2 eexists.
  split; [by apply RetrieverSpec.findSimilar_returned|].
  split; [by apply RetrieverSpec.findSimilar_returned|].
  by apply RetrieverSpec.prefix_fmap, slice0_mono.
Qed.

(** X4, witness. *)
Lemma findSimilar_topK_prefix_witness :
  ∃ results results',
    findSimilar (Sample.gemini_answering (Some [1; 0]))
      [Sample.entry "a" (Some [0; 1]); Sample.entry "b" (Some [2; 0]);
       Sample.entry "c" (Some [1; 1])] "query" 1 = Returned results
    ∧ findSimilar (Sample.gemini_answering (Some [1; 0]))
        [Sample.entry "a" (Some [0; 1]); Sample.entry "b" (Some [2; 0]);
         Sample.entry "c" (Some [1; 1])] "query" 2 = Returned results'
    ∧ results `prefix_of` results'.
Proof.
  apply (findSimilar_topK_prefix (Sample.gemini_answering (Some [1; 0]))
           [Sample.entry "a" (Some [0; 1]); Sample.entry "b" (Some [2; 0]);
            Sample.entry "c" (Some [1; 1])] "query" 1 2 (Some [1; 0]));
    [reflexivity|lia].
Defined.

(** Equal scores leave the index in its order. *)
Lemma ranking_of_equal_scores (queryEmbedding : vec) (index : list Doc.t)
    (topK : Z) (s : float) :
  (∀ doc, doc ∈ index →
          Vector.cosineSimilarity queryEmbedding (Doc.embedding doc) = s) →
  Doc.without_embedding
    <$> slice0 (sort by_score (similarities queryEmbedding index)) topK
  = slice0 ((λ doc, Doc.without_embedding (Doc.with_score doc s)) <$> index)
      topK.
Proof.
  intros Hsame.
  assert (similarities queryEmbedding index
          = (λ doc, Doc.with_score doc s) <$> index) as ->.
  { unfold similarities. apply list_fmap_ext.
    intros i doc Hdoc.
    by rewrite (Hsame doc) by by eapply list_elem_of_lookup_2. }
  rewrite sort_unordered.
  - unfold slice0. rewrite length_fmap, fmap_take, <- list_fmap_compose.
    by rewrite length_fmap.
  - intros x y (dx & -> & _)%list_elem_of_fmap (dy & -> & _)%list_elem_of_fmap.
    apply sub_self_not_positive.
Qed.

(** X5.  When every record of the index gets the same score, the query
    returns the first records of the index, in the order of the index.
    This is what happens when no record has a usable embedding (an index
    loaded from the file without embeddings, or a query embedding of
    another length than the stored ones): every score is 0. *)
Theorem equal_scores_keep_index_order (gemini : Gemini) (index : list Doc.t)
    (queryText : string) (topK : Z) (queryEmbedding : vec) (s : float) :
  generateEmbedding gemini queryText = Returned queryEmbedding →
  (∀ doc, doc ∈ index →
          Vector.cosineSimilarity queryEmbedding (Doc.embedding doc) = s) →
  findSimilar gemini index queryText topK
  = Returned
      (slice0 ((λ doc, Doc.without_embedding (Doc.with_score doc s)) <$> index)
         topK).
Proof.
  intros Hq Hsame.
  rewrite (RetrieverSpec.findSimilar_returned _ _ _ _ _ Hq). f_equal.
  by apply ranking_of_equal_scores.
Qed.

(** X5, witness: an index without embeddings. *)
Lemma equal_scores_keep_index_order_witness :
  findSimilar (Sample.gemini_answering (Some [1; 0]))
    [Sample.entry "a" None; Sample.entry "b" None; Sample.entry "c" None]
    "query" 2
  = Returned
      [Doc.with_score (Sample.entry "a" None) 0;
       Doc.with_score (Sample.entry "b" None) 0].
Proof.
  rewrite (equal_scores_keep_index_order
             (Sample.gemini_answering (Some [1; 0]))
             [Sample.entry "a" None; Sample.entry "b" None;
              Sample.entry "c" None] "query" 2 (Some [1; 0]) 0).
  - reflexivity.
  - reflexivity.
  - intros doc Hdoc. apply RetrieverSpec.unscorable_zero. left.
    repeat (apply elem_of_cons in Hdoc as [->|Hdoc]; [reflexivity|]).
    by apply elem_of_nil in Hdoc.
Defined.

End QueryFacts.

(** ** The query text of structured requirements *)

Module QueryTextFacts.

Import Query.

Lemma app_not_empty (a b : string) : b ≠ EmptyString → a +:+ b ≠ EmptyString.
Proof. intros Hb. by destruct a. Qed.

Lemma text_line_nil (label : string) (field : option string) :
  text_line label field = [] ↔ ¬ given_text field.
Proof.
  unfold text_line, given_text. destruct field as [[|c s]|]; simpl.
  - split; [|done]. intros _ (c & s & [=]).
  - split; [done|]. intros Hnot. destruct Hnot. eauto.
  - split; [|done]. intros _ (c & s & [=]).
Qed.

Lemma list_line_nil (label : string) (field : option (list string)) :
  list_line label field = [] ↔ ¬ given_list field.
Proof.
  unfold list_line, given_list. destruct field as [[|item items]|].
  - split; [|done]. intros _ (i & l & [=]).
  - split; [done|]. intros Hnot. destruct Hnot. eauto.
  - split; [|done]. intros _ (i & l & [=]).
Qed.

Lemma text_line_not_empty (label : string) (field : option string) :
  Forall (λ line, line ≠ EmptyString) (text_line label field).
Proof.
  unfold text_line. destruct (Str.truthy field); repeat constructor.
  apply app_not_empty. done.
Qed.

Lemma list_line_not_empty (label : string) (field : option (list string)) :
  Forall (λ line, line ≠ EmptyString) (list_line label field).
Proof.
  unfold list_line. destruct field as [[|item items]|]; repeat constructor.
  apply app_not_empty. done.
Qed.

Lemma parts_not_empty (requirements : Requirements.t) :
  Forall (λ line, line ≠ EmptyString) (parts requirements).
Proof.
  unfold parts. rewrite !Forall_app.
  repeat split; auto using text_line_not_empty, list_line_not_empty.
Qed.

Lemma parts_nil (requirements : Requirements.t) :
  parts requirements = [] ↔ nothing_given requirements.
Proof.
  unfold parts, nothing_given.
  rewrite !app_nil, !text_line_nil, !list_line_nil. done.
Qed.

(** Lines that are not empty join to the empty string only when there is
    no line. *)
Lemma join_empty (sep : string) (lines : list string) :
  Forall (λ line, line ≠ EmptyString) lines →
  Str.join sep lines = EmptyString ↔ lines = [].
Proof.
  intros Hlines. destruct Hlines as [|line lines Hline Hlines]; [done|].
  split; [|done]. destruct line as [|c s]; [done|].
  destruct lines; discriminate.
Qed.

(** X6.  The query text built from requirements is empty exactly when
    no field is given, a field being given when it is a non-empty string
    or a non-empty list; [findSimilarByRequirements] then runs the query
    on the empty text (on a non-empty index the embedding model is still
    called, with that text). *)
Theorem buildQuery_empty_iff :
  ∀ requirements : Requirements.t,
    (buildQueryFromRequirements requirements = EmptyString
     ↔ nothing_given requirements)
    ∧ ∀ (gemini : Gemini) (index : list Doc.t) (topK : Z),
        nothing_given requirements →
        findSimilarByRequirements gemini index requirements topK
        = Retriever.findSimilar gemini index EmptyString topK.
Proof.
  intros requirements.
  assert (buildQueryFromRequirements requirements = EmptyString
          ↔ nothing_given requirements) as Hempty.
  { unfold buildQueryFromRequirements.
    rewrite join_empty by apply parts_not_empty. apply parts_nil. }
  split; [done|].
  intros gemini index topK Hnothing. unfold findSimilarByRequirements.
  by rewrite (proj2 Hempty Hnothing).
Qed.

End QueryTextFacts.

(** ** More on indexing runs: counters, failures, checkpoints *)

Module RunCounts.

Import Counting RunFacts.

Lemma count_cons {A : Type} (p : A → bool) (x : A) (l : list A) :
  count p (x :: l) = (if p x then 1 else 0) + count p l.
Proof.
  unfold count. rewrite filter_cons.
  destruct (p x); by case_decide.
Qed.

Lemma count_partition {A : Type} (p : A → bool) (l : list A) :
  count p l + count (λ x, negb (p x)) l = length l.
Proof.
  induction l as [|x l IH]; [done|].
  rewrite !count_cons. cbn [length]. destruct (p x); simpl; lia.
Qed.

(** The counters after a loop whose body counts a file as failed when
    [fails] holds of it and as processed when [stores] does. *)
Lemma counters_of_foldl {F : Type} (step : Run → F → Run)
    (stores fails : F → bool) (files : list F) (st : Run) :
  (∀ st file,
     processed (step st file)
     = processed st + (if stores file then 1 else 0)
     ∧ failed (step st file) = failed st + (if fails file then 1 else 0)) →
  processed (foldl step st files) = processed st + count stores files
  ∧ failed (foldl step st files) = failed st + count fails files.
Proof.
  intros Hstep. revert st.
  induction files as [|file files IH]; intros st.
  - unfold count. simpl. lia.
  - cbn [foldl]. destruct (IH (step st file)) as [-> ->].
    destruct (Hstep st file) as [-> ->]. rewrite !count_cons. lia.
Qed.

Lemma drive_step_counters (gemini : Gemini) (drive : Drive) (st : Run)
    (file : DriveFile.t) :
  processed (GDriveIndexer.step gemini drive st file)
  = processed st
    + (if negb (is_thrown (GDriveIndexer.describe gemini drive file))
       then 1 else 0)
  ∧ failed (GDriveIndexer.step gemini drive st file)
    = failed st
      + (if is_thrown (GDriveIndexer.describe gemini drive file)
         then 1 else 0).
Proof.
  unfold GDriveIndexer.step.
  destruct (GDriveIndexer.describe gemini drive file) as [|[m e]]; simpl.
  - lia.
  - rewrite GDriveFacts.push_processed, GDriveFacts.push_failed. lia.
Qed.

Lemma directory_step_counters (gemini : Gemini) (path : Path)
    (parsers : Parsers) (st : Run) (file : string) :
  processed (SowIndexer.step gemini path parsers st file)
  = processed st
    + (if is_stored (SowIndexer.processSowFile gemini path parsers file)
       then 1 else 0)
  ∧ failed (SowIndexer.step gemini path parsers st file)
    = failed st
      + (if is_thrown (SowIndexer.processSowFile gemini path parsers file)
         then 1 else 0).
Proof.
  unfold SowIndexer.step.
  destruct (SowIndexer.processSowFile gemini path parsers file) as [|[doc|]];
    simpl; lia.
Qed.

(** X7.  The summary of a Drive run: every file of the listing is either
    processed or failed.  [failed] counts the files for which the
    embedding request threw, [processed] all the others, and the two add
    up to [total], the number of files listed. *)
Theorem drive_run_counts :
  ∀ (gemini : Gemini) (drive : Drive) (index0 : list Doc.t)
    (files : list DriveFile.t),
    Summary.total (GDriveIndexer.indexFolder gemini drive index0 files).2
    = length files
    ∧ Summary.failed (GDriveIndexer.indexFolder gemini drive index0 files).2
      = count (λ file, is_thrown (GDriveIndexer.describe gemini drive file))
          files
    ∧ Summary.processed
        (GDriveIndexer.indexFolder gemini drive index0 files).2
      + Summary.failed (GDriveIndexer.indexFolder gemini drive index0 files).2
      = length files.
Proof.
  intros gemini drive index0 files.
  destruct (counters_of_foldl (GDriveIndexer.step gemini drive)
              (λ file,
                 negb (is_thrown (GDriveIndexer.describe gemini drive file)))
              (λ file, is_thrown (GDriveIndexer.describe gemini drive file))
              files (start index0) (drive_step_counters gemini drive))
    as [Hp Hf].
  unfold GDriveIndexer.indexFolder.
  cbn [snd summary save Summary.total Summary.failed Summary.processed
       processed failed].
  rewrite Hp, Hf. cbn [start processed failed].
  pose proof (count_partition
                (λ file, is_thrown (GDriveIndexer.describe gemini drive file))
                files).
  repeat split; lia.
Qed.

(** X8.  The summary of a directory run: [processed] counts the files
    for which a record was stored, [failed] the files on which the parser
    or the embedding request threw; the files passed over (another
    extension, no text, fewer than 100 characters) are in neither, so that
    [processed + failed] falls short of [total] by their number. *)
Theorem directory_run_counts :
  ∀ (gemini : Gemini) (path : Path) (parsers : Parsers)
    (index0 : list Doc.t) (files : list string),
    Summary.total
      (SowIndexer.indexDirectory gemini path parsers index0 files).2
    = length files
    ∧ Summary.processed
        (SowIndexer.indexDirectory gemini path parsers index0 files).2
      = count (λ file,
                 is_stored
                   (SowIndexer.processSowFile gemini path parsers file))
          files
    ∧ Summary.failed
        (SowIndexer.indexDirectory gemini path parsers index0 files).2
      = count (λ file,
                 is_thrown
                   (SowIndexer.processSowFile gemini path parsers file))
          files
    ∧ Summary.processed
        (SowIndexer.indexDirectory gemini path parsers index0 files).2
      + Summary.failed
          (SowIndexer.indexDirectory gemini path parsers index0 files).2
      + count (λ file,
                 is_skipped
                   (SowIndexer.processSowFile gemini path parsers file))
          files
      = length files.
Proof.
  intros gemini path parsers index0 files.
  destruct (counters_of_foldl (SowIndexer.step gemini path parsers)
              (λ file,
                 is_stored (SowIndexer.processSowFile gemini path parsers file))
              (λ file,
                 is_thrown (SowIndexer.processSowFile gemini path parsers file))
              files (start index0)
              (directory_step_counters gemini path parsers))
    as [Hp Hf].
  unfold SowIndexer.indexDirectory.
  cbn [snd summary save Summary.total Summary.failed Summary.processed
       processed failed].
  rewrite Hp, Hf. cbn [start processed failed].
  repeat split; try lia.
  clear Hp Hf. induction files as [|file files IH]; [done|].
  rewrite !count_cons. cbn [length].
  destruct (SowIndexer.processSowFile gemini path parsers file) as [|[doc|]];
    simpl; lia.
Qed.

End RunCounts.

Module FailureCauses.

(** What makes the Drive indexer count a file as failed, when the
    answers of the language model that are read have the shape the prompt
    asks for (the metadata of type [Meta.t]): its text was downloaded, has
    more than 100 characters, and the embedding request for the metadata
    threw.  A file that is not counted as failed is stored. *)
Lemma drive_step_fails :
  ∀ (gemini : Gemini) (drive : Drive) (st : Run) (file : DriveFile.t),
    (failed (GDriveIndexer.step gemini drive st file) = S (failed st)
     ↔ ∃ text,
         GDriveIndexer.downloadFile drive file = Some text
         ∧ 100 < String.length text
         ∧ generateEmbedding gemini
             (createEmbeddingText
                (GDriveIndexer.extractMetadata gemini text
                   (DriveFile.name file)))
           = Thrown)
    ∧ (failed (GDriveIndexer.step gemini drive st file) = failed st
       ↔ ∃ doc,
           index (GDriveIndexer.step gemini drive st file) = index st ++ [doc]).
Proof.
  intros gemini drive st file.
  unfold GDriveIndexer.step, GDriveIndexer.describe.
  destruct (GDriveIndexer.downloadFile drive file) as [text|] eqn:Htext;
    cbn [GDriveIndexer.has_enough_text default].
  - destruct (100 <? String.length text) eqn:Hlen.
    + apply Nat.ltb_lt in Hlen.
      destruct (generateEmbedding gemini _) as [|embedding] eqn:Hemb; simpl.
      * split.
        -- split; [|done]. intros _. by exists text.
        -- split; [lia|]. intros [doc Hdoc].
           rewrite <- (app_nil_r (index st)) in Hdoc at 1.
           by apply app_inv_head in Hdoc.
      * rewrite GDriveFacts.push_failed, GDriveFacts.push_index. split.
        -- split; [lia|]. intros (t & [= <-] & _ & Hthrown).
           simpl in Hemb. congruence.
        -- split; [eauto|done].
    + apply Nat.ltb_ge in Hlen.
      rewrite GDriveFacts.push_failed, GDriveFacts.push_index. split.
      * split; [lia|]. intros (t & [= <-] & Hlong & _). lia.
      * split; [eauto|done].
  - rewrite GDriveFacts.push_failed, GDriveFacts.push_index. split.
    + split; [lia|]. by intros (t & [=] & _).
    + split; [eauto|done].
Qed.

Import Reading.

(** What makes the directory indexer count a file as failed, when the
    answers of the language model that are read have the shape the prompt
    asks for (the metadata of type [Meta.t]): the parser of its extension
    threw, or the text has at least 100 characters and the embedding
    request for the metadata threw. *)
Lemma directory_step_fails :
  ∀ (gemini : Gemini) (path : Path) (parsers : Parsers) (st : Run)
    (file : string),
    failed (SowIndexer.step gemini path parsers st file) = S (failed st)
    ↔ read_text path parsers file Thrown
      ∨ ∃ text,
          read_text path parsers file (Returned (Some text))
          ∧ 100 ≤ String.length text
          ∧ generateEmbedding gemini
              (createEmbeddingText
                 (SowIndexer.extractMetadata gemini path text file))
            = Thrown.
Proof.
  intros gemini path parsers st file.
  assert (∀ read : outcome (option string),
            failed
              (match read ≫= SowIndexer.processText gemini path file with
               | Returned (Some sowData) => SowIndexer.push st sowData
               | Returned None => st
               | Thrown => count_failure st
               end) = S (failed st)
            ↔ read = Thrown
              ∨ ∃ text,
                  read = Returned (Some text)
                  ∧ 100 ≤ String.length text
                  ∧ generateEmbedding gemini
                      (createEmbeddingText
                         (SowIndexer.extractMetadata gemini path text file))
                    = Thrown) as Hread.
  { intros [|[text|]]; simpl.
    - split; [by left|done].
    - unfold SowIndexer.processText. simpl.
      destruct (String.length text <? 100) eqn:Hlen.
      + apply Nat.ltb_lt in Hlen. split; [lia|].
        intros [?|(t & [= <-] & Hlong & _)]; [done|lia].
      + apply Nat.ltb_ge in Hlen.
        destruct (generateEmbedding gemini _) as [|embedding] eqn:Hemb; simpl.
        * split; [|done]. intros _. right. by exists text.
        * split; [lia|].
          intros [?|(t & [= <-] & _ & Hthrown)]; [done|congruence].
    - unfold SowIndexer.processText. simpl. split; [lia|].
      by intros [?|(t & [=] & _)]. }
  unfold SowIndexer.step, SowIndexer.processSowFile, read_text.
  destruct (decide (Str.toLowerCase (extname path file) = ".docx"))
    as [Hdocx|Hdocx].
  - rewrite (Hread (extractTextFromDocx parsers file)), Hdocx.
    split.
    + intros [Hthrown|(text & Htext & Hrest)]; [left; by left|].
      right. exists text. split; [by left|done].
    + intros [[[_ ?]|[[=] _]]|(text & [[_ ?]|[[=] _]] & Hrest)];
        [by left|right; by exists text].
  - destruct (decide (Str.toLowerCase (extname path file) = ".pdf"))
      as [Hpdf|Hpdf].
    + rewrite (Hread (extractTextFromPdf parsers file)), Hpdf.
      split.
      * intros [Hthrown|(text & Htext & Hrest)]; [left; by right|].
        right. exists text. split; [by right|done].
      * intros [[[[=] _]|[_ ?]]|(text & [[[=] _]|[_ ?]] & Hrest)];
          [by left|right; by exists text].
    + simpl. split; [lia|].
      intros [[[? _]|[? _]]|(text & [[? _]|[? _]] & _)]; done.
Qed.

End FailureCauses.

Module UploadedFiles.

Import Retriever Uploads.

Lemma upload_step (gemini : Gemini) (drive : Drive) (st : Run)
    (file : DriveFile.t) :
  ¬ is_google_document file →
  GDriveIndexer.step gemini drive st file
  = GDriveIndexer.push st (named_record file).
Proof.
  intros Hother. unfold GDriveIndexer.step, GDriveIndexer.describe.
  assert (GDriveIndexer.downloadFile drive file = None) as ->.
  { unfold GDriveIndexer.downloadFile. rewrite decide_False by done.
    by destruct (files_get drive (DriveFile.id file)). }
  done.
Qed.

Lemma upload_run (gemini : Gemini) (drive : Drive)
    (files : list DriveFile.t) (st : Run) :
  Forall (λ file, ¬ is_google_document file) files →
  index (foldl (GDriveIndexer.step gemini drive) st files)
  = index st ++ (named_record <$> files)
  ∧ failed (foldl (GDriveIndexer.step gemini drive) st files) = failed st.
Proof.
  intros Hfiles. revert st.
  induction Hfiles as [|file files Hfile _ IH]; intros st.
  - simpl. by rewrite app_nil_r.
  - cbn [foldl]. destruct (IH (GDriveIndexer.step gemini drive st file))
      as [-> ->].
    rewrite upload_step by done.
    rewrite GDriveFacts.push_index, GDriveFacts.push_failed.
    by rewrite <- app_assoc.
Qed.

(** X11.  Files of a Drive folder that are not Google documents (Word
    and PDF uploads) are indexed from their names alone, whatever the
    Drive answers: each gets the filename metadata and no embedding, and
    none is counted as failed.  An index built from such files ranks
    nothing: every query returns its first records, in the order of the
    listing, with the score 0. *)
Theorem uploads_are_indexed_by_name (gemini : Gemini) (drive : Drive)
    (files : list DriveFile.t) :
  Forall (λ file, ¬ is_google_document file) files →
  index (GDriveIndexer.indexFolder gemini drive [] files).1
  = named_record <$> files
  ∧ Summary.failed (GDriveIndexer.indexFolder gemini drive [] files).2 = 0
  ∧ ∀ (queryText : string) (topK : Z) (queryEmbedding : vec),
      generateEmbedding gemini queryText = Returned queryEmbedding →
      findSimilar gemini
        (index (GDriveIndexer.indexFolder gemini drive [] files).1)
        queryText topK
      = Returned
          (slice0 ((λ file, Doc.with_score (named_record file) 0) <$> files)
             topK).
Proof.
  intros Hfiles.
  destruct (upload_run gemini drive files (start []) Hfiles) as [Hindex Hfailed].
  unfold GDriveIndexer.indexFolder.
  cbn [fst snd save summary index Summary.failed failed] in *.
  rewrite Hindex, Hfailed. cbn [start index failed app].
  split; [done|split; [done|]].
  intros queryText topK queryEmbedding Hq.
  rewrite (RetrieverSpec.findSimilar_returned _ _ _ _ _ Hq). f_equal.
  rewrite (QueryFacts.ranking_of_equal_scores queryEmbedding _ topK 0).
  - by rewrite <- list_fmap_compose.
  - intros doc (file & -> & _)%list_elem_of_fmap.
    apply RetrieverSpec.unscorable_zero. by left.
Qed.

(** X11, witness: a folder with a Word file and a PDF. *)
Lemma uploads_are_indexed_by_name_witness :
  Doc.id
    <$> index
          (GDriveIndexer.indexFolder Sample.gemini_down
             (Sample.drive_exporting (Some (Sample.text_of_length 500))) []
             [Fixture.upload "1" "Acme_SOW.docx"; Fixture.upload "2" "Scope.pdf"]).1
  = ["1"; "2"].
Proof.
  destruct (uploads_are_indexed_by_name Sample.gemini_down
              (Sample.drive_exporting (Some (Sample.text_of_length 500)))
              [Fixture.upload "1" "Acme_SOW.docx";
               Fixture.upload "2" "Scope.pdf"]) as (Hindex & _).
  - repeat constructor; discriminate.
  - rewrite Hindex. reflexivity.
Defined.

End UploadedFiles.

Module Checkpoints.

(** X12.  The checkpoints of a Drive run.  [indexFolder] writes the
    index after every fiftieth processed file and once more at the end:
    a run that processed [p] files makes [p div 50 + 1] writes, the k-th
    checkpoint holds the index as it stood when 50 k files had been
    processed (the records the run started on and the first 50 k new
    ones), and the last write holds the final index.  Every write
    consists of the full index and of the same records without their
    embeddings. *)
Theorem drive_run_checkpoints :
  ∀ (gemini : Gemini) (drive : Drive) (index0 : list Doc.t)
    (files : list DriveFile.t),
    length (writes (GDriveIndexer.indexFolder gemini drive index0 files).1)
    = S (processed (GDriveIndexer.indexFolder gemini drive index0 files).1
         `div` 50)
    ∧ last (writes (GDriveIndexer.indexFolder gemini drive index0 files).1)
      = Some
          (saveIndex
             (index (GDriveIndexer.indexFolder gemini drive index0 files).1))
    ∧ (∀ k snapshot,
         k < processed (GDriveIndexer.indexFolder gemini drive index0 files).1
             `div` 50 →
         writes (GDriveIndexer.indexFolder gemini drive index0 files).1 !! k
         = Some snapshot →
         full snapshot
         = take (length index0 + 50 * S k)
             (index (GDriveIndexer.indexFolder gemini drive index0 files).1)
         ∧ light snapshot = Doc.without_embedding <$> full snapshot).
Proof.
  intros gemini drive index0 files.
  destruct (GDriveFacts.indexFolder_checkpoints gemini drive index0 files)
    as (Hlen & Hlast & Hsnap).
  split; [exact Hlen|split; [exact Hlast|]].
  intros k snapshot Hk Hlook. by rewrite (Hsnap k snapshot Hk Hlook).
Qed.

End Checkpoints.

(** ** Strings: prefixes, occurrences, replacement *)

Module TextFacts.

Import Text.

Lemma length_app (a b : string) :
  String.length (a +:+ b) = String.length a + String.length b.
Proof.
  induction a as [|c a IH]; [done|].
  rewrite TokenFacts.app_cons. cbn [String.length]. by rewrite IH.
Qed.

Lemma app_assoc (a b c : string) : (a +:+ b) +:+ c = a +:+ (b +:+ c).
Proof.
  induction a as [|x a IH]; [done|].
  rewrite !TokenFacts.app_cons. by rewrite IH.
Qed.

Lemma drop_first_app (a b : string) : drop_first (String.length a) (a +:+ b) = b.
Proof. induction a as [|c a IH]; [by destruct b|done]. Qed.

(** [starts_with] finds the prefixes. *)
Lemma starts_with_spec (prefix s : string) :
  starts_with prefix s = true ↔ ∃ rest, s = prefix +:+ rest.
Proof.
  revert s. induction prefix as [|a prefix IH]; intros s.
  - split; [by exists s|done].
  - destruct s as [|b s]; cbn [starts_with].
    + split; [done|]. by intros [rest [=]].
    + rewrite andb_true_iff, bool_decide_eq_true, IH. split.
      * intros [-> [rest ->]]. by exists rest.
      * intros [rest [= -> ->]]. eauto.
Qed.

Lemma starts_with_drop (prefix s : string) :
  starts_with prefix s = true →
  s = prefix +:+ drop_first (String.length prefix) s.
Proof.
  intros [rest ->]%starts_with_spec. by rewrite drop_first_app.
Qed.

Lemma not_a_prefix (pattern pre post : string) (s : string) :
  starts_with pattern s = false →
  s = pre +:+ pattern +:+ post →
  ∃ c pre', pre = String c pre'.
Proof.
  intros Hnot ->. destruct pre as [|c pre']; [|eauto].
  assert (starts_with pattern (EmptyString +:+ pattern +:+ post) = true)
    as Hyes by (apply starts_with_spec; by exists post).
  congruence.
Qed.

(** [includes] finds the occurrences. *)
Lemma includes_spec (part s : string) :
  includes part s = true ↔ ∃ pre post, s = pre +:+ part +:+ post.
Proof.
  induction s as [|c s IH]; cbn [includes]; rewrite orb_true_iff.
  - split.
    + intros [[rest Hrest]%starts_with_spec|?]; [|done].
      by exists EmptyString, rest.
    + intros (pre & post & Hs). left. apply starts_with_spec.
      destruct pre; [by exists post|done].
  - rewrite IH. split.
    + intros [[rest Hrest]%starts_with_spec|(pre & post & ->)].
      * by exists EmptyString, rest.
      * by exists (String c pre), post.
    + intros (pre & post & Hs). destruct pre as [|d pre].
      * left. apply starts_with_spec. by exists post.
      * right. injection Hs as -> ->. eauto.
Qed.

(** [replace_first] leaves a string without the pattern as it is, and
    otherwise puts the replacement where the pattern first stands. *)
Lemma replace_first_absent (pattern replacement s : string) :
  includes pattern s = false → replace_first pattern replacement s = s.
Proof.
  induction s as [|c s IH]; cbn [includes replace_first];
    rewrite orb_false_iff; intros [-> Hrest]; [done|].
  by rewrite IH.
Qed.

Lemma replace_first_present (pattern replacement s : string) :
  includes pattern s = true →
  ∃ pre post,
    s = pre +:+ pattern +:+ post
    ∧ replace_first pattern replacement s = pre +:+ replacement +:+ post
    ∧ ∀ pre' post',
        s = pre' +:+ pattern +:+ post' →
        String.length pre ≤ String.length pre'.
Proof.
  induction s as [|c s IH]; cbn [includes replace_first].
  - rewrite orb_false_r. intros Hstart. rewrite Hstart.
    exists EmptyString, (drop_first (String.length pattern) EmptyString).
    split; [by apply starts_with_drop|]. split; [done|]. simpl. lia.
  - destruct (starts_with pattern (String c s)) eqn:Hstart.
    + intros _.
      exists EmptyString, (drop_first (String.length pattern) (String c s)).
      split; [by apply starts_with_drop|]. split; [done|]. simpl. lia.
    + simpl. intros Hrest.
      destruct (IH Hrest) as (pre & post & Hs & Hreplaced & Hfirst).
      exists (String c pre), post. split; [by rewrite Hs at 1|].
      split; [by rewrite Hreplaced|].
      intros pre' post' Hs'.
      destruct (not_a_prefix _ _ _ _ Hstart Hs') as (d & pre'' & ->).
      injection Hs' as -> Hs'. specialize (Hfirst _ _ Hs'). simpl. lia.
Qed.


End TextFacts.

(** ** Where the index is written *)

Module IndexFilesFacts.

Import Text TextFacts IndexFiles.

(** X13.  The files [saveIndex] writes.  The second file is named by
    putting [_metadata] before the first [.json] of the output path.  When
    the path holds [.json], the full index is in the file at the path and
    the index without embeddings in the second file.  When it holds no
    [.json], the second path is the output path itself: the second write
    replaces the first, and the file at the output path is left holding
    the index without embeddings.  No other file is touched. *)
Theorem saveIndex_files :
  ∀ (outputPath : string) (index : list Doc.t) (files : disk),
    (includes ".json" outputPath = true →
     (∃ pre post,
        outputPath = pre +:+ ".json" +:+ post
        ∧ metadata_path outputPath = pre +:+ "_metadata.json" +:+ post
        ∧ ∀ pre' post',
            outputPath = pre' +:+ ".json" +:+ post' →
            String.length pre ≤ String.length pre')
     ∧ saveIndex outputPath index files !! outputPath = Some index
     ∧ saveIndex outputPath index files !! metadata_path outputPath
       = Some (Doc.without_embedding <$> index))
    ∧ (includes ".json" outputPath = false →
       metadata_path outputPath = outputPath
       ∧ saveIndex outputPath index files !! outputPath
         = Some (Doc.without_embedding <$> index))
    ∧ (∀ p, p ≠ outputPath → p ≠ metadata_path outputPath →
            saveIndex outputPath index files !! p = files !! p).
Proof.
  intros outputPath index files. unfold saveIndex, metadata_path, disk in *.
  split; [|split].
  - intros Hjson.
    destruct (replace_first_present ".json" "_metadata.json" outputPath Hjson)
      as (pre & post & Hpath & Hmeta & Hfirst).
    assert (replace_first ".json" "_metadata.json" outputPath ≠ outputPath)
      as Hother.
    { rewrite Hmeta. intros Heq. apply (f_equal String.length) in Heq.
      rewrite Hpath, !length_app in Heq. simpl in Heq. lia. }
    split; [by exists pre, post|]. split.
    + rewrite lookup_insert_ne by done. by rewrite lookup_insert_eq.
    + by rewrite lookup_insert_eq.
  - intros Hnone. rewrite (replace_first_absent _ _ _ Hnone).
    split; [done|]. by rewrite lookup_insert_eq.
  - intros p Hp Hmeta. by rewrite !lookup_insert_ne.
Qed.

End IndexFilesFacts.

(** ** The files of a directory tree *)

Module DirectoryFacts.

Import Directory.

Lemma entry_induction (P : entry → Prop) :
  (∀ name, P (File name)) →
  (∀ name entries, Forall P entries → P (Folder name entries)) →
  ∀ e, P e.
Proof.
  intros Hfile Hfolder. fix IH 1. intros [name|name entries].
  - apply Hfile.
  - apply Hfolder. induction entries as [|e entries IHentries].
    + constructor.
    + constructor; [apply IH|apply IHentries].
Qed.

Lemma holds_elem (join : string → string → string) (dir : string)
    (entries : list entry) (p n : string) :
  holds join dir entries p n ↔ ∃ e, e ∈ entries ∧ holds join dir [e] p n.
Proof.
  split.
  - intros [d es name Hin|d es name below q m Hin Hbelow].
    + exists (File name). split; [done|]. constructor. by left.
    + exists (Folder name below). split; [done|].
      by apply (holds_below _ _ _ name below); [left|].
  - intros (e & He & Hholds).
    inversion Hholds as [d es name Hin|d es name below q m Hin Hbelow]; subst.
    + apply list_elem_of_singleton in Hin as <-. by constructor.
    + apply list_elem_of_singleton in Hin as <-.
      by apply (holds_below _ _ _ name below).
Qed.

(** What the loop over the entries of a directory adds, given what the
    body adds for each entry. *)
Lemma foldl_visit (join : string → string → string) (dir : string)
    (entries : list entry) (files : list string) :
  Forall (λ e, ∀ dir files,
            visit join dir files e = files ++ visit join dir [] e) entries →
  foldl (visit join dir) files entries
  = files ++ (entries ≫= visit join dir []).
Proof.
  intros Hentries. revert files.
  induction Hentries as [|e entries He _ IH]; intros files.
  - simpl. by rewrite app_nil_r.
  - cbn [foldl]. rewrite IH, (He dir files). by rewrite <- app_assoc.
Qed.

Lemma visit_appends (join : string → string → string) (e : entry) :
  ∀ dir files, visit join dir files e = files ++ visit join dir [] e.
Proof.
  induction e as [name|name entries IH] using entry_induction;
    intros dir files; cbn [visit].
  - by destruct (isSowFile name); [|rewrite app_nil_r].
  - rewrite (foldl_visit join _ entries files IH).
    by rewrite (foldl_visit join _ entries [] IH).
Qed.

Lemma findSowFiles_bind (join : string → string → string) (dir : string)
    (entries : list entry) (files : list string) :
  findSowFiles join dir entries files
  = files ++ (entries ≫= visit join dir []).
Proof.
  apply foldl_visit, Forall_forall. intros e _. apply visit_appends.
Qed.

Lemma visit_finds (join : string → string → string) (e : entry) :
  ∀ dir p,
    p ∈ visit join dir [] e
    ↔ ∃ name, holds join dir [e] p name ∧ isSowFile name = true.
Proof.
  induction e as [name|name entries IH] using entry_induction;
    intros dir p; cbn [visit].
  - split.
    + destruct (isSowFile name) eqn:Hname; [|by intros ?%elem_of_nil].
      intros ->%list_elem_of_singleton. exists name.
      split; [|done]. constructor. by left.
    + intros (n & Hholds & Hn).
      inversion Hholds as [d es m Hin|d es m below q k Hin Hbelow]; subst.
      * apply list_elem_of_singleton in Hin as [= <-]. rewrite Hn. by left.
      * by apply list_elem_of_singleton in Hin.
  - change (foldl (visit join (join dir name)) [] entries)
      with (findSowFiles join (join dir name) entries []).
    rewrite findSowFiles_bind. cbn [app]. rewrite list_elem_of_bind. split.
    + intros (e & Hp & He).
      rewrite Forall_forall in IH.
      apply (IH e He) in Hp as (n & Hholds & Hn).
      exists n. split; [|done].
      apply (holds_below _ _ _ name entries); [by left|].
      apply holds_elem. eauto.
    + intros (n & Hholds & Hn).
      inversion Hholds as [d es m Hin|d es m below q k Hin Hbelow]; subst.
      * by apply list_elem_of_singleton in Hin.
      * apply list_elem_of_singleton in Hin as [= <- <-].
        apply holds_elem in Hbelow as (e & He & Hbelow).
        exists e. split; [|done].
        rewrite Forall_forall in IH. apply (IH e He). eauto.
Qed.

Lemma visit_count (join : string → string → string) (e : entry) :
  ∀ dir, length (visit join dir [] e) = sow_count e.
Proof.
  induction e as [name|name entries IH] using entry_induction;
    intros dir; cbn [visit sow_count].
  - by destruct (isSowFile name).
  - change (foldl (visit join (join dir name)) [] entries)
      with (findSowFiles join (join dir name) entries []).
    rewrite findSowFiles_bind. cbn [app].
    induction IH as [|e entries He _ IHentries]; [done|].
    cbn. rewrite length_app, He, IHentries. done.
Qed.

(** X14.  [findSowFiles] lists exactly the entries of the tree that are
    not directories and whose names pass [isSowFile], at any depth: a
    path is listed when the tree holds such an entry at that path.  A
    directory is descended whatever its name and is never listed itself;
    the list is as long as the tree has such entries, and the paths are
    added behind the files the call was given. *)
Theorem findSowFiles_finds :
  ∀ (join : string → string → string) (dir : string) (entries : list entry)
    (files : list string),
    findSowFiles join dir entries files
    = files ++ findSowFiles join dir entries []
    ∧ (∀ p, p ∈ findSowFiles join dir entries []
            ↔ ∃ name, holds join dir entries p name ∧ isSowFile name = true)
    ∧ length (findSowFiles join dir entries [])
      = sum_list (sow_count <$> entries).
Proof.
  intros join dir entries files. rewrite !findSowFiles_bind. cbn [app].
  split; [done|split].
  - intros p. rewrite list_elem_of_bind. split.
    + intros (e & Hp & He). apply visit_finds in Hp as (n & Hholds & Hn).
      exists n. split; [|done]. apply holds_elem. eauto.
    + intros (n & (e & He & Hholds)%holds_elem & Hn).
      exists e. split; [|done]. apply visit_finds. eauto.
  - induction entries as [|e entries IH]; [done|].
    cbn. by rewrite length_app, visit_count, IH.
Qed.

End DirectoryFacts.

(** ** The listing of a Drive folder *)

Module ListingFacts.

Import DriveListing.

Lemma pages_loop_serves (drive : client) (folderId : string)
    (pageToken : option string) (pages : list page) :
  serves drive folderId pageToken pages →
  ∀ fuel allFiles,
    length pages ≤ fuel →
    pages_loop fuel drive folderId allFiles pageToken
    = Some (Returned (allFiles ++ (pages ≫= sow_files))).
Proof.
  induction 1 as [token page Hpage Hlast|token page pages Hpage Hnext _ IH];
    intros [|fuel] allFiles Hfuel; cbn [length] in Hfuel; try lia;
    cbn [pages_loop]; rewrite Hpage.
  - rewrite Hlast. cbn. by rewrite app_nil_r.
  - rewrite Hnext, IH by lia. cbn. by rewrite <- app_assoc.
Qed.

Lemma pages_loop_fails (drive : client) (folderId : string)
    (pageToken : option string) (pages : list page) :
  serves_until_failure drive folderId pageToken pages →
  ∀ fuel allFiles,
    length pages < fuel →
    pages_loop fuel drive folderId allFiles pageToken = Some Thrown.
Proof.
  induction 1 as [token Hfail|token page pages Hpage Hnext _ IH];
    intros [|fuel] allFiles Hfuel; cbn [length] in Hfuel; try lia;
    cbn [pages_loop].
  - by rewrite Hfail.
  - rewrite Hpage, Hnext. apply IH. lia.
Qed.

(** X15.  [getAllSowFiles] follows the page tokens of the listing.  When
    the Drive serves a last page (one without a token, or with an empty
    one), the files returned are the files of all the pages read, in the
    order of the listing, that pass [isSowFile], and no others; when a page
    request fails, [getAllSowFiles] throws and the files found on the
    earlier pages are dropped. *)
Theorem getAllSowFiles_follows_pages (drive : client) (folderId : string)
    (pages : list page) (fuel : nat) :
  length pages ≤ fuel →
  (serves drive folderId None pages →
   getAllSowFiles fuel drive folderId = Some (Returned (pages ≫= sow_files))
   ∧ ∀ file, file ∈ pages ≫= sow_files
             ↔ isSowFile (DriveFile.name file) = true
               ∧ ∃ page, page ∈ pages ∧ file ∈ files page)
  ∧ (serves_until_failure drive folderId None pages →
     getAllSowFiles (S fuel) drive folderId = Some Thrown).
Proof.
  intros Hfuel. split.
  - intros Hserves. split.
    + unfold getAllSowFiles.
      by rewrite (pages_loop_serves _ _ _ _ Hserves fuel []).
    + intros file. rewrite list_elem_of_bind. unfold sow_files.
      setoid_rewrite list_elem_of_filter. setoid_rewrite Is_true_true.
      naive_solver.
  - intros Hfails. unfold getAllSowFiles.
    apply (pages_loop_fails _ _ _ _ Hfails). lia.
Qed.

(** X15, witness: a listing of two pages. *)
Lemma getAllSowFiles_follows_pages_witness :
  getAllSowFiles 2 Fixture.drive_of_two_pages "folder"
  = Some (Returned [Sample.google_doc "1" "Acme SOW"; Fixture.upload "3" "scope.pdf"]).
Proof.
  refine (proj1 (proj1 (getAllSowFiles_follows_pages
                          Fixture.drive_of_two_pages "folder"
                          [Fixture.first_page; Fixture.second_page] 2 _) _)).
  - simpl. lia.
  - apply serves_next; [reflexivity|reflexivity|].
    apply serves_last; reflexivity.
Defined.

End ListingFacts.

(** ** Names of the generated files *)

Module FilenameFacts.

Import Text TextFacts Generator.




Lemma substring0_length (n : nat) (s : string) :
  String.length (Str.substring0 n s) = n `min` String.length s.
Proof.
  revert n. induction s as [|c s IH]; intros [|n]; try done.
  cbn [Str.substring0 String.length]. by rewrite IH.
Qed.





End FilenameFacts.

(** ** Counts as binary64 numbers *)

Module CountFacts.

Import Num NumFacts.
Local Open Scope Z_scope.

Lemma shl_align_exponent (m : positive) (e ez : Z) :
  ez ≤ e → (shl_align m e ez).2 = ez.
Proof.
  intros Hle. unfold shl_align.
  destruct (ez - e) as [|d|d] eqn:Hd; cbn [snd]; lia.
Qed.

(** A mantissa between 2^52 and 2^53 has 53 digits. *)
Lemma digits2_full (m : positive) :
  2 ^ 52 ≤ Zpos m < 2 ^ 53 → Zpos (digits2_pos m) = 53.
Proof.
  intros [Hlo Hhi]. pose proof (digits2_bounds m) as [Hlo' Hhi'].
  destruct (Z.lt_trichotomy (Zpos (digits2_pos m)) 53) as [Hlt|[Heq|Hgt]];
    [exfalso|done|exfalso].
  - assert (2 ^ Zpos (digits2_pos m) ≤ 2 ^ 52)
      by (apply Z.pow_le_mono_r; lia).
    lia.
  - assert (2 ^ 53 ≤ 2 ^ (Zpos (digits2_pos m) - 1))
      by (apply Z.pow_le_mono_r; lia).
    lia.
Qed.

(** Rounding changes nothing in a mantissa of 53 digits at an exponent
    of the format. *)
Lemma binary_round_aux_exact (m : positive) (e : Z) :
  Zpos (digits2_pos m) = 53 → emin64 ≤ e ≤ emax - prec →
  binary_round_aux prec emax false (Zpos m) e loc_Exact
  = S754_finite false m e.
Proof.
  intros Hd He. unfold binary_round_aux.
  assert (shr_fexp prec emax (Zpos m) e loc_Exact
          = (shr_record_of_loc (Zpos m) loc_Exact, e)) as Hshr.
  { unfold shr_fexp, Zdigits2. rewrite Hd.
    replace (fexp64 (53 + e) - e) with 0; [done|].
    unfold SpecFloat.fexp, SpecFloat.emin, prec, emax in *. lia. }
  rewrite Hshr. cbn [shr_record_of_loc shr_m loc_of_shr_record
                     round_nearest_even].
  rewrite Hshr. cbn [shr_record_of_loc shr_m].
  destruct (Z.leb_spec e (emax - prec)); [done|lia].
Qed.

(** The binary64 number of a positive integer below 2^53 is that
    integer: its mantissa is the integer shifted to 53 digits. *)
Lemma binary_normalize_exact (p : positive) :
  Zpos p < 2 ^ 53 →
  ∃ m e,
    binary_normalize prec emax (Zpos p) 0 false = S754_finite false m e
    ∧ e ≤ 0
    ∧ Zpos m = Zpos p * 2 ^ (- e).
Proof.
  intros Hp. cbn [binary_normalize]. unfold binary_round.
  pose proof (digits2_bounds p) as [Hlo Hhi].
  assert (Zpos (digits2_pos p) ≤ 53) as Hd.
  { destruct (Z.le_gt_cases (Zpos (digits2_pos p)) 53) as [?|Hgt]; [done|].
    assert (2 ^ 53 ≤ 2 ^ (Zpos (digits2_pos p) - 1))
      by (apply Z.pow_le_mono_r; lia).
    lia. }
  set (ez := fexp64 (Zpos (digits2_pos p) + 0)).
  assert (ez = Zpos (digits2_pos p) - 53) as Hez.
  { unfold ez, SpecFloat.fexp, SpecFloat.emin, prec, emax. lia. }
  pose proof (shl_align_value p 0 ez ltac:(lia)) as Hvalue.
  pose proof (shl_align_exponent p 0 ez ltac:(lia)) as Hexp.
  destruct (shl_align p 0 ez) as [mz e']. cbn [fst snd] in *. subst e'.
  exists mz, ez. split; [|split].
  - apply binary_round_aux_exact.
    + apply digits2_full. rewrite Hvalue, Hez.
      replace (0 - (Zpos (digits2_pos p) - 53))
        with (53 - Zpos (digits2_pos p)) by lia.
      split.
      * replace 52 with ((Zpos (digits2_pos p) - 1)
                         + (53 - Zpos (digits2_pos p))) by lia.
        rewrite Z.pow_add_r by lia.
        apply Z.mul_le_mono_nonneg_r; [apply Z.pow_nonneg; lia|done].
      * replace 53 with (Zpos (digits2_pos p)
                         + (53 - Zpos (digits2_pos p))) at 2 by lia.
        rewrite Z.pow_add_r by lia.
        apply Z.mul_lt_mono_pos_r; [apply Z.pow_pos_nonneg; lia|done].
    + unfold SpecFloat.emin, prec, emax. lia.
  - lia.
  - rewrite Hvalue. by replace (0 - ez) with (- ez) by lia.
Qed.

Lemma to_number_spec (n : nat) :
  Z.of_nat n < 2 ^ 53 →
  Prim2SF (Obj.to_number (Obj.Number n))
  = binary_normalize prec emax (Z.of_nat n) 0 false.
Proof.
  intros Hn. cbn [Obj.to_number].
  rewrite of_uint63_spec, Uint63.of_Z_spec.
  rewrite Z.mod_small; [done|].
  split; [lia|]. eapply Z.lt_trans; [exact Hn|done].
Qed.

(** The binary64 numbers of two counts below 2^53 compare as the
    counts. *)
Lemma count_ltb (n m : nat) :
  Z.of_nat n < 2 ^ 53 → Z.of_nat m < 2 ^ 53 →
  (Obj.to_number (Obj.Number n) <? Obj.to_number (Obj.Number m))%float
  = (n <? m)%nat.
Proof.
  intros Hn Hm. rewrite ltb_spec.
  pose proof (Prim2SF_valid (Obj.to_number (Obj.Number n))) as Hvn.
  pose proof (Prim2SF_valid (Obj.to_number (Obj.Number m))) as Hvm.
  rewrite (to_number_spec n Hn) in *. rewrite (to_number_spec m Hm) in *.
  destruct (Z.of_nat n) as [|p|p] eqn:Hp; [| |lia];
    destruct (Z.of_nat m) as [|q|q] eqn:Hq; try lia.
  - cbn. symmetry. apply Nat.ltb_ge. lia.
  - destruct (binary_normalize_exact q Hm) as (mq & eq & Hq' & _ & _).
    rewrite Hq'. cbn. symmetry. apply Nat.ltb_lt. lia.
  - destruct (binary_normalize_exact p Hn) as (mp & ep & Hp' & _ & _).
    rewrite Hp'. cbn. symmetry. apply Nat.ltb_ge. lia.
  - destruct (binary_normalize_exact p Hn) as (mp & ep & Hp' & Hep & Hmp).
    destruct (binary_normalize_exact q Hm) as (mq & eq & Hq' & Heq & Hmq).
    rewrite Hp' in *. rewrite Hq' in *.
    rewrite SFltb_aligned by done. cbn [cond_Zopp].
    rewrite Hmp, Hmq, <- !Z.mul_assoc, <- !Z.pow_add_r by lia.
    replace (- ep + (ep - Z.min ep eq)) with (- Z.min ep eq) by lia.
    replace (- eq + (eq - Z.min ep eq)) with (- Z.min ep eq) by lia.
    assert (0 < 2 ^ (- Z.min ep eq)) by (apply Z.pow_pos_nonneg; lia).
    destruct (Z.ltb_spec (Zpos p * 2 ^ (- Z.min ep eq))
                (Zpos q * 2 ^ (- Z.min ep eq)));
      symmetry; [apply Nat.ltb_lt|apply Nat.ltb_ge]; nia.
Qed.

End CountFacts.

(** ** Tables of counters *)

Module ObjFacts.

Import Obj.

Lemma own_set (table : t) (key key' : string) (v : value) :
  own (set table key v) key'
  = if decide (key = key') then Some v else own table key'.
Proof.
  induction table as [|[k w] table IH]; cbn [set own].
  - done.
  - destruct (decide (k = key)) as [->|Hk]; cbn [own].
    + by destruct (decide (key = key')).
    + rewrite IH.
      destruct (decide (k = key')) as [->|]; [|done].
      by rewrite decide_False by congruence.
Qed.

Lemma set_absent (table : t) (key : string) (v : value) :
  own table key = None → set table key v = table ++ [(key, v)].
Proof.
  induction table as [|[k w] table IH]; cbn [set own]; [done|].
  destruct (decide (k = key)); [done|]. intros Hnone. by rewrite IH.
Qed.

Lemma set_keys (table : t) (key : string) (v w : value) :
  own table key = Some w → (set table key v).*1 = table.*1.
Proof.
  induction table as [|[k u] table IH]; cbn [set own]; [done|].
  destruct (decide (k = key)) as [->|]; [done|].
  intros Hsome. cbn. by rewrite IH.
Qed.

Lemma own_None (table : t) (key : string) :
  own table key = None ↔ key ∉ table.*1.
Proof.
  induction table as [|[k w] table IH]; cbn [own].
  - split; [intros _; apply not_elem_of_nil|done].
  - cbn. rewrite not_elem_of_cons. destruct (decide (k = key)) as [->|Hk].
    + split; [done|]. by intros [? _].
    + rewrite IH. naive_solver.
Qed.

Lemma own_elem_of (table : t) (key : string) (v : value) :
  NoDup table.*1 → (key, v) ∈ table ↔ own table key = Some v.
Proof.
  induction table as [|[k w] table IH]; cbn [own].
  - split; [by intros ?%elem_of_nil|done].
  - cbn. intros [Hk Hnodup]%NoDup_cons.
    rewrite elem_of_cons, (IH Hnodup).
    destruct (decide (k = key)) as [->|Hne].
    + split; [|by intros [= ->]; left].
      intros [[= ->]|Hown]; [done|].
      exfalso. apply Hk, (list_elem_of_fmap_2' fst _ (key, v)); [|done].
      by apply (IH Hnodup).
    + split; [|by right]. intros [[= -> _]|?]; done.
Qed.

Lemma set_NoDup (table : t) (key : string) (v : value) :
  NoDup table.*1 → NoDup (set table key v).*1.
Proof.
  intros Hnodup. destruct (own table key) as [w|] eqn:Hown.
  - by rewrite (set_keys _ _ _ w).
  - rewrite set_absent, fmap_app by done. apply NoDup_app.
    split; [done|]. split; [|apply NoDup_singleton].
    intros k Hk ->%list_elem_of_singleton. by apply own_None in Hown.
Qed.

Lemma increment_NoDup (table : t) (key : string) :
  NoDup table.*1 → NoDup (increment table key).*1.
Proof.
  intros Hnodup. unfold increment.
  repeat case_match; done || by apply set_NoDup.
Qed.

Lemma own_increment_other (table : t) (key key' : string) :
  key ≠ key' → own (increment table key) key' = own table key'.
Proof.
  intros Hne. unfold increment.
  repeat case_match; done || by rewrite own_set, decide_False.
Qed.

(** A key that is not inherited is counted. *)
Lemma own_increment_same (table : t) (key : string) (n : nat) :
  key ∉ inherited → own table key = counted n →
  own (increment table key) key = counted (S n).
Proof.
  intros Hkey Hown. unfold increment. rewrite Hown. destruct n as [|n]; simpl.
  - rewrite bool_decide_eq_false_2 by done.
    by rewrite own_set, decide_True.
  - by rewrite own_set, decide_True.
Qed.

Lemma occurrences_cons (key k : string) (keys : list string) :
  occurrences key (k :: keys)
  = (if decide (k = key) then 1 else 0) + occurrences key keys.
Proof. unfold occurrences. rewrite filter_cons. by case_decide. Qed.

Lemma occurrences_app (key : string) (keys keys' : list string) :
  occurrences key (keys ++ keys')
  = occurrences key keys + occurrences key keys'.
Proof. unfold occurrences. by rewrite filter_app, length_app. Qed.

Lemma occurrences_le (key : string) (keys : list string) :
  occurrences key keys ≤ length keys.
Proof. apply length_filter. Qed.

Lemma occurrences_pos (key : string) (keys : list string) :
  0 < occurrences key keys ↔ key ∈ keys.
Proof.
  induction keys as [|k keys IH].
  - split; [by intros ?%Nat.lt_irrefl|by intros ?%elem_of_nil].
  - rewrite occurrences_cons, elem_of_cons.
    destruct (decide (k = key)) as [->|]; [split; [by left|lia]|].
    rewrite <- IH. simpl. naive_solver.
Qed.

Lemma own_counted (keys : list string) (table : t) (key : string) (n : nat) :
  key ∉ inherited → own table key = counted n →
  own (foldl increment table keys) key = counted (n + occurrences key keys).
Proof.
  intros Hkey. revert table n.
  induction keys as [|k keys IH]; intros table n Hown; cbn [foldl].
  - unfold occurrences. simpl. by rewrite Nat.add_0_r.
  - rewrite occurrences_cons. destruct (decide (k = key)) as [->|Hne].
    + rewrite (IH _ (S n)) by by apply own_increment_same.
      f_equal. lia.
    + rewrite (IH _ n) by by rewrite own_increment_other.
      done.
Qed.

Lemma own_untouched (keys : list string) (table : t) (key : string) :
  key ∉ keys → own (foldl increment table keys) key = own table key.
Proof.
  revert table. induction keys as [|k keys IH]; intros table Hkey;
    cbn [foldl]; [done|].
  apply not_elem_of_cons in Hkey as [Hne Hkey].
  by rewrite IH, own_increment_other.
Qed.

(** An inherited key never gets a number. *)
Lemma inherited_increment (table : t) (key key' : string) :
  key' ∈ inherited →
  (∀ n, own table key' ≠ Some (Number n)) →
  ∀ n, own (increment table key) key' ≠ Some (Number n).
Proof.
  intros Hin Hnot n. destruct (decide (key = key')) as [<-|Hne].
  - unfold increment. destruct (own table key) as [[m|]|] eqn:Hown.
    + by destruct (Hnot m).
    + by rewrite own_set, decide_True.
    + rewrite bool_decide_eq_true_2 by done. case_decide.
      * by rewrite Hown.
      * by rewrite own_set, decide_True.
  - rewrite own_increment_other by done. apply Hnot.
Qed.

Lemma inherited_foldl (keys : list string) (table : t) (key : string) :
  key ∈ inherited →
  (∀ n, own table key ≠ Some (Number n)) →
  ∀ n, own (foldl increment table keys) key ≠ Some (Number n).
Proof.
  intros Hin. revert table.
  induction keys as [|k keys IH]; intros table Hnot; cbn [foldl]; [done|].
  apply IH. by apply inherited_increment.
Qed.

(** Only inherited keys get a string. *)
Lemma text_increment (table : t) (key : string) :
  (∀ k, own table k = Some Text → k ∈ inherited) →
  ∀ k, own (increment table key) k = Some Text → k ∈ inherited.
Proof.
  intros Htable k. destruct (decide (key = k)) as [<-|Hne].
  - unfold increment. destruct (own table key) as [[m|]|] eqn:Hown.
    + by rewrite own_set, decide_True.
    + intros _. by apply Htable.
    + case_bool_decide as Hin; [done|].
      by rewrite own_set, decide_True.
  - rewrite own_increment_other by done. apply Htable.
Qed.

Lemma text_foldl (keys : list string) (table : t) :
  (∀ k, own table k = Some Text → k ∈ inherited) →
  ∀ k, own (foldl increment table keys) k = Some Text → k ∈ inherited.
Proof.
  revert table. induction keys as [|key keys IH]; intros table Htable;
    cbn [foldl]; [done|].
  by apply IH, text_increment.
Qed.

Lemma foldl_NoDup (keys : list string) (table : t) :
  NoDup table.*1 → NoDup (foldl increment table keys).*1.
Proof.
  revert table. induction keys as [|key keys IH]; intros table Htable;
    cbn [foldl]; [done|].
  by apply IH, increment_NoDup.
Qed.

(** The sum of the counts of a table. *)
Lemma tally_set (table : t) (key : string) (v w : value) :
  own table key = Some w →
  sum_list (count <$> set table key v) + count (key, w)
  = sum_list (count <$> table) + count (key, v).
Proof.
  induction table as [|[k u] table IH]; cbn [set own]; [done|].
  destruct (decide (k = key)) as [->|Hne].
  - intros [= ->]. cbn. lia.
  - intros Hown. cbn. specialize (IH Hown). lia.
Qed.

Lemma tally_increment (table : t) (key : string) :
  key ∉ inherited →
  (∀ k, own table k = Some Text → k ∈ inherited) →
  sum_list (count <$> increment table key)
  = S (sum_list (count <$> table)).
Proof.
  intros Hkey Htable. unfold increment.
  destruct (own table key) as [[n|]|] eqn:Hown.
  - pose proof (tally_set table key (Number (S n)) _ Hown) as Hsum.
    unfold count in Hsum at 2 4. simpl in Hsum. lia.
  - destruct Hkey. by apply Htable.
  - rewrite bool_decide_eq_false_2 by done.
    rewrite set_absent, fmap_app, sum_list_with_app by done. cbn. lia.
Qed.

Lemma tally_foldl (keys : list string) (table : t) :
  Forall (λ key, key ∉ inherited) keys →
  (∀ k, own table k = Some Text → k ∈ inherited) →
  sum_list (count <$> foldl increment table keys)
  = sum_list (count <$> table) + length keys.
Proof.
  intros Hkeys. revert table.
  induction Hkeys as [|key keys Hkey _ IH]; intros table Htable;
    cbn [foldl length]; [lia|].
  rewrite IH by by apply text_increment.
  rewrite tally_increment by done. lia.
Qed.

(** [Object.entries] lists every own property once. *)
Lemma insert_index_perm (n : N) (e : string * value)
    (l : list (N * (string * value))) :
  insert_index n e l ≡ₚ (n, e) :: l.
Proof.
  induction l as [|[m e'] l IH]; cbn [insert_index]; [done|].
  destruct (n <? m)%N; [done|]. rewrite IH. apply Permutation_swap.
Qed.

Lemma entries_perm (table : t) : entries table ≡ₚ table.
Proof.
  unfold entries, indexed, named, Obj.t in *.
  induction table as [|e table IH]; [done|].
  cbn [foldr]. rewrite filter_cons.
  destruct (array_index e.1) as [n|] eqn:Hindex.
  - rewrite decide_False by done.
    rewrite insert_index_perm. cbn. by rewrite IH.
  - rewrite decide_True by done.
    rewrite <- Permutation_middle. by rewrite IH.
Qed.

End ObjFacts.

(** ** The statistics of the index *)

Module StatsFacts.

Import Obj ObjFacts Stats IndexStats Retriever.

Lemma tables_foldl (index : list Doc.t) (tables : Stats.tables) :
  foldl count_doc tables index
  = {| industries :=
         foldl increment (industries tables) (industry_keys index);
       features := foldl increment (features tables) (feature_keys index);
       complexities :=
         foldl increment (complexities tables) (complexity_keys index) |}.
Proof.
  revert tables. induction index as [|doc index IH]; intros tables.
  - by destruct tables.
  - cbn [foldl]. rewrite IH. unfold feature_keys. cbn.
    by rewrite foldl_app.
Qed.

Lemma getIndexStats_tables (index : list Doc.t) :
  index ≠ [] →
  getIndexStats index
  = {| total := length index;
       byIndustry := Some (foldl increment [] (industry_keys index));
       topFeatures :=
         Some (take 10
                 (sort by_count
                    (entries (foldl increment [] (feature_keys index)))));
       byComplexity := Some (foldl increment [] (complexity_keys index)) |}.
Proof.
  intros Hindex. unfold getIndexStats.
  destruct index as [|doc index]; [done|]. cbn [length Nat.eqb].
  rewrite tables_foldl. cbn [industries features complexities].
  by rewrite RetrieverSpec.slice0_take.
Qed.

(** X17.  The [stats] command fails exactly on an empty index:
    [getIndexStats] then returns an object with [total] alone, and the
    command asks for the entries of its missing [byIndustry].  On any
    other index the command prints the number of records as the
    total. *)
Theorem statsCommand_fails_iff_empty :
  ∀ index : list Doc.t,
    (statsCommand index = Thrown ↔ index = [])
    ∧ (index ≠ [] →
       ∃ report,
         statsCommand index = Returned report
         ∧ shown_total report = length index).
Proof.
  intros index.
  assert (index ≠ [] →
          ∃ report,
            statsCommand index = Returned report
            ∧ shown_total report = length index) as Hfull.
  { intros Hindex. unfold statsCommand.
    rewrite (getIndexStats_tables index Hindex). simpl. eauto. }
  split; [|done]. split.
  - intros Hthrown. destruct index as [|doc index]; [done|].
    destruct Hfull as (report & Hreport & _); [done|]. congruence.
  - by intros ->.
Qed.

(** X18.  The tables of [getIndexStats] on an index that is not empty.
    [total] is the number of records.  For every key that is not the
    name of a member of [Object.prototype], [byIndustry] holds the number
    of records whose industry is the key, where a record without industry
    (or with an empty one) counts for "unknown", and holds nothing when
    there is no such record; the same goes for [byComplexity].  A key that
    names a member of [Object.prototype] is never given a number.  When
    no such key occurs, the counts of either table add up to [total]. *)
Theorem getIndexStats_counts (index : list Doc.t) :
  index ≠ [] →
  ∃ byIndustry byComplexity,
    Stats.total (getIndexStats index) = length index
    ∧ Stats.byIndustry (getIndexStats index) = Some byIndustry
    ∧ Stats.byComplexity (getIndexStats index) = Some byComplexity
    ∧ (∀ key, key ∉ inherited →
         own byIndustry key
         = counted (occurrences key (industry_keys index))
         ∧ own byComplexity key
           = counted (occurrences key (complexity_keys index)))
    ∧ (∀ key n, key ∈ inherited →
         own byIndustry key ≠ Some (Number n)
         ∧ own byComplexity key ≠ Some (Number n))
    ∧ (Forall (λ key, key ∉ inherited) (industry_keys index) →
       sum_list (count <$> byIndustry) = length index)
    ∧ (Forall (λ key, key ∉ inherited) (complexity_keys index) →
       sum_list (count <$> byComplexity) = length index).
Proof.
  intros Hindex. rewrite (getIndexStats_tables index Hindex).
  do 2 eexists. cbn [Stats.total Stats.byIndustry Stats.byComplexity].
  split; [done|]. split; [done|]. split; [done|].
  split; [|split; [|split]].
  - intros key Hkey. split; by apply (own_counted _ [] key 0).
  - intros key n Hkey. split; by apply inherited_foldl.
  - intros Hkeys. rewrite tally_foldl by done.
    unfold industry_keys. by rewrite length_fmap.
  - intros Hkeys. rewrite tally_foldl by done.
    unfold complexity_keys. by rewrite length_fmap.
Qed.

(** X18, witness. *)
Lemma getIndexStats_counts_witness :
  ∃ byIndustry,
    Stats.byIndustry
      (getIndexStats
         [Sample.rated "a" None None; Sample.entry "b" None;
          Sample.rated "c" None None])
    = Some byIndustry
    ∧ own byIndustry "banking" = Some (Number 2)
    ∧ own byIndustry "unknown" = Some (Number 1)
    ∧ own byIndustry "telecom" = None.
Proof.
  destruct (getIndexStats_counts
              [Sample.rated "a" None None; Sample.entry "b" None;
               Sample.rated "c" None None])
    as (byIndustry & byComplexity & _ & Hfield & _ & Hcounts & _);
    [done|].
  exists byIndustry. split; [exact Hfield|].
  split; [|split].
  - apply (Hcounts "banking"). by apply (bool_decide_unpack _).
  - apply (Hcounts "unknown"). by apply (bool_decide_unpack _).
  - apply (Hcounts "telecom"). by apply (bool_decide_unpack _).
Defined.

(** A list sorted with a comparator that asks for an exchange exactly
    when the first key is the smaller one is in descending order of the
    keys. *)
Lemma insert_by_key {A : Type} (compareFn : A → A → float) (key : A → nat)
    (x : A) (l : list A) :
  (∀ y, y ∈ l → comes_after compareFn x y = (key x <? key y)) →
  StronglySorted (λ a b, key b ≤ key a) l →
  StronglySorted (λ a b, key b ≤ key a) (insert_sorted compareFn x l).
Proof.
  induction l as [|y l IH]; intros Hord Hsorted; cbn [insert_sorted].
  { repeat constructor. }
  apply StronglySorted_cons in Hsorted as [Hy Hsorted].
  rewrite Hord by by left.
  destruct (key x <? key y) eqn:Hlt.
  - apply Nat.ltb_lt in Hlt. apply StronglySorted_cons. split.
    + rewrite (SortFacts.insert_sorted_perm compareFn x l).
      constructor; [lia|done].
    + apply IH; [|done]. intros z Hz. apply Hord. by right.
  - apply Nat.ltb_ge in Hlt. apply StronglySorted_cons. split.
    + constructor; [done|]. eapply Forall_impl; [exact Hy|].
      intros z Hz. simpl in *. lia.
    + by apply StronglySorted_cons.
Qed.

Lemma sort_by_key {A : Type} (compareFn : A → A → float) (key : A → nat)
    (l : list A) :
  (∀ x y, x ∈ l → y ∈ l → comes_after compareFn x y = (key x <? key y)) →
  StronglySorted (λ a b, key b ≤ key a) (sort compareFn l).
Proof.
  induction l as [|x l IH]; intros Hord; cbn [sort]; [constructor|].
  apply insert_by_key.
  - intros y Hy. apply Hord; [by left|].
    right. by apply (proj1 (SortFacts.sort_elem_of compareFn y l)).
  - apply IH. intros a b Ha Hb. apply Hord; by right.
Qed.

(** The table of features of an index whose feature names are not
    inherited keys: every entry is a feature with the number of its
    occurrences. *)
Lemma feature_entries (keys : list string) (e : string * value) :
  Forall (λ key, key ∉ inherited) keys →
  e ∈ foldl increment [] keys →
  e.1 ∈ keys ∧ e.2 = Number (occurrences e.1 keys).
Proof.
  intros Hkeys He. destruct e as [f v]. cbn [fst snd].
  apply own_elem_of in He; [|apply foldl_NoDup, NoDup_nil_2].
  destruct (decide (f ∈ keys)) as [Hin|Hout].
  - split; [done|]. rewrite Forall_forall in Hkeys.
    rewrite (own_counted keys [] f 0 (Hkeys f Hin) eq_refl) in He.
    apply occurrences_pos in Hin. simpl in He.
    destruct (occurrences f keys) as [|n]; [lia|]. by injection He as <-.
  - by rewrite own_untouched in He.
Qed.

(** X19.  The top features of [getIndexStats], on an index that is not
    empty, whose feature names are not names of members of
    [Object.prototype] (and with fewer than 2^53 feature occurrences, the
    range in which counts are exact).  There are at most ten, either all
    the features of the index or exactly ten; each is a feature of the
    index, listed once, with the number of its occurrences in the feature
    lists of all records (a feature a record lists twice counts twice);
    they stand in descending order of that number, and no feature left
    out occurs more often than a listed one. *)
Theorem topFeatures_ranked (index : list Doc.t) :
  index ≠ [] →
  Forall (λ key, key ∉ inherited) (feature_keys index) →
  (Z.of_nat (length (feature_keys index)) < 2 ^ 53)%Z →
  ∃ top,
    Stats.topFeatures (getIndexStats index) = Some top
    ∧ length top ≤ 10
    ∧ ((∀ f, f ∈ feature_keys index → f ∈ top.*1) ∨ length top = 10)
    ∧ NoDup top.*1
    ∧ (∀ e, e ∈ top →
            e.1 ∈ feature_keys index
            ∧ e.2 = Number (occurrences e.1 (feature_keys index)))
    ∧ StronglySorted descending_count top
    ∧ (∀ f e, f ∈ feature_keys index → e ∈ top →
              f ∈ top.*1 ∨ occurrences f (feature_keys index) ≤ count e).
Proof.
  intros Hindex Hkeys Hsize. rewrite (getIndexStats_tables index Hindex).
  eexists. cbn [Stats.topFeatures]. split; [done|].
  set (keys := feature_keys index) in *.
  set (table := foldl increment [] keys).
  set (ranked := sort by_count (entries table)).
  assert (ranked ≡ₚ table) as Hperm
    by (unfold ranked; by rewrite SortFacts.sort_perm, entries_perm).
  assert (∀ e, e ∈ ranked →
               e.1 ∈ keys ∧ e.2 = Number (occurrences e.1 keys)) as Hentry.
  { intros e He. apply feature_entries; [done|]. by rewrite Hperm in He. }
  assert (NoDup ranked.*1) as Hnodup.
  { rewrite Hperm. apply foldl_NoDup, NoDup_nil_2. }
  assert (∀ f, f ∈ keys → f ∈ ranked.*1) as Hall.
  { intros f Hf. rewrite Forall_forall in Hkeys.
    apply (list_elem_of_fmap_2' fst _ (f, Number (occurrences f keys)));
      [|done].
    rewrite Hperm. apply own_elem_of; [apply foldl_NoDup, NoDup_nil_2|].
    unfold table. rewrite (own_counted keys [] f 0 (Hkeys f Hf) eq_refl).
    apply occurrences_pos in Hf. simpl.
    by destruct (occurrences f keys); [lia|]. }
  assert (StronglySorted descending_count ranked) as Hsorted.
  { apply (sort_by_key by_count count). intros x y Hx Hy.
    assert (x ∈ table) as [_ Hcx]%(feature_entries keys x Hkeys)
      by (by rewrite <- entries_perm).
    assert (y ∈ table) as [_ Hcy]%(feature_entries keys y Hkeys)
      by (by rewrite <- entries_perm).
    unfold comes_after, by_count, count.
    rewrite NumFacts.sub_pos, Hcx, Hcy.
    pose proof (occurrences_le x.1 keys).
    pose proof (occurrences_le y.1 keys).
    apply CountFacts.count_ltb; lia. }
  split; [rewrite length_take; lia|]. split; [|split; [|split; [|split]]].
  - destruct (decide (length ranked ≤ 10)) as [Hfew|Hmany].
    + left. intros f Hf. rewrite take_ge by done. by apply Hall.
    + right. rewrite length_take. lia.
  - rewrite fmap_take. eapply sublist_NoDup; [exact Hnodup|apply sublist_take].
  - intros e He. apply Hentry.
    eapply elem_of_sublist; [exact He|apply sublist_take].
  - rewrite <- (take_drop 10 ranked) in Hsorted.
    by apply StronglySorted_app_1_l in Hsorted.
  - intros f e Hf He.
    apply Hall, list_elem_of_fmap in Hf as (e' & -> & He').
    rewrite <- (take_drop 10 ranked) in He', Hsorted.
    apply elem_of_app in He' as [He'|He'].
    + left. by apply list_elem_of_fmap_2.
    + right.
      assert (e' ∈ ranked) as [_ Hcount]%Hentry
        by (rewrite <- (take_drop 10 ranked); apply elem_of_app; by right).
      pose proof (StronglySorted_app_1_elem_of _ _ _ _ _ Hsorted He He')
        as Hle.
      unfold descending_count, count in Hle. rewrite Hcount in Hle.
      exact Hle.
Qed.

(** X19, witness. *)
Lemma topFeatures_ranked_witness :
  Stats.topFeatures
    (getIndexStats
       [Sample.rated "a" None (Some ["IVR"; "queue"]);
        Sample.rated "b" None (Some ["queue"]); Sample.rated "c" None None])
  = Some [("queue", Number 2); ("IVR", Number 1)].
Proof.
  destruct (topFeatures_ranked
              [Sample.rated "a" None (Some ["IVR"; "queue"]);
               Sample.rated "b" None (Some ["queue"]);
               Sample.rated "c" None None])
    as (top & Htop & _).
  - done.
  - by apply (bool_decide_unpack _).
  - by vm_compute.
  - rewrite Htop. vm_compute in Htop. by injection Htop as <-.
Defined.

End StatsFacts.

(** ** Filtering and ranking *)

Module FilterRank.

Import Retriever.
Local Open Scope float_scope.

Lemma leb_not_ltb (x z : float) : (z <=? x) = true → (x <? z) = false.
Proof.
  rewrite ltb_spec, leb_spec. unfold SFltb, SFleb.
  rewrite (NumFacts.compare_antisym (Prim2SF x) (Prim2SF z)).
  by destruct (SFcompare (Prim2SF x) (Prim2SF z)) as [[]|].
Qed.

(** Inserting into a ranking and then filtering is filtering and then
    inserting what is kept. *)
Lemma filter_insert_ranked (p : Doc.t → bool) (x : Doc.t)
    (ranking : list Doc.t) :
  comparable (x :: ranking) →
  StronglySorted descending ranking →
  filter (λ d, p d) (insert_sorted by_score x ranking)
  = if p x then insert_sorted by_score x (filter (λ d, p d) ranking)
    else filter (λ d, p d) ranking.
Proof.
  intros Hc Hsorted.
  assert (∀ y, y ∈ ranking → ordered_pair (score_of x) (score_of y)) as Hord.
  { intros y Hy.
    apply (RankingFacts.consistent_docs (x :: ranking)); [done|by left|by right]. }
  clear Hc. induction ranking as [|y ranking IH]; cbn [insert_sorted].
  { rewrite filter_cons, filter_nil. by destruct (p x). }
  apply StronglySorted_cons in Hsorted as [Hy Hsorted].
  assert (∀ z, z ∈ ranking → ordered_pair (score_of x) (score_of z)) as Hrest
    by (intros z Hz; apply Hord; by right).
  specialize (IH Hsorted Hrest).
  destruct (Hord y) as [Hsign Htotal]; [by left|].
  destruct (comes_after by_score x y) eqn:Hafter.
  - rewrite !(filter_cons _ y), IH.
    destruct (p y); simpl; [|done].
    destruct (p x); [|done]. cbn [insert_sorted]. by rewrite Hafter.
  - rewrite (filter_cons _ x). destruct (p x); simpl; [|done].
    symmetry. apply QueryFacts.insert_sorted_front.
    intros z [Hpz Hz]%list_elem_of_filter.
    unfold comes_after, by_score in *. rewrite NumFacts.sub_pos in *.
    apply leb_not_ltb.
    assert (descending x y) as Hxy by by apply NumFacts.nlt_ge.
    apply elem_of_cons in Hz as [->|Hz]; [done|].
    rewrite Forall_forall in Hy. specialize (Hy z Hz).
    unfold descending in *. by apply NumFacts.leb_trans with (score_of y).
Qed.

(** Ranking and filtering commute. *)
Lemma filter_sort_ranked (p : Doc.t → bool) (l : list Doc.t) :
  comparable l →
  filter (λ d, p d) (sort by_score l) = sort by_score (filter (λ d, p d) l).
Proof.
  induction l as [|x l IH]; intros Hc; [done|]. cbn [sort].
  assert (comparable l) as Hl by by apply Forall_cons in Hc as [_ ?].
  rewrite filter_insert_ranked.
  - rewrite IH, filter_cons by done. by destruct (p x).
  - unfold comparable in *.
    by rewrite (SortFacts.sort_perm by_score l).
  - by apply RankingFacts.sort_descending.
Qed.

Lemma passes_with_score (criteria : Criteria.t) (doc : Doc.t) (s : float) :
  passes criteria (Doc.without_embedding (Doc.with_score doc s))
  = passes criteria doc.
Proof. reflexivity. Qed.

(** X20.  Filtering and ranking commute when [topK] covers the index:
    for a query that is embedded, with finite similarities, filtering the
    results of [findSimilar] on the whole index gives, in the same order,
    the results of [findSimilar] on the records of the index that
    satisfy the criteria. *)
Theorem filtering_commutes_with_ranking (gemini : Gemini)
    (index : list Doc.t) (queryText : string) (topK : Z)
    (queryEmbedding : vec) (criteria : Criteria.t) :
  generateEmbedding gemini queryText = Returned queryEmbedding →
  (Z.of_nat (length index) ≤ topK)%Z →
  Forall
    (λ doc,
       is_finite (Vector.cosineSimilarity queryEmbedding (Doc.embedding doc))
       = true)
    index →
  ∃ results,
    findSimilar gemini index queryText topK = Returned results
    ∧ findSimilar gemini (filterResults index criteria) queryText topK
      = Returned (filterResults results criteria).
Proof.
  intros Hq Hk Hfinite.
  eexists. split; [by apply RetrieverSpec.findSimilar_returned|].
  rewrite (RetrieverSpec.findSimilar_returned _ _ _ _ _ Hq). f_equal.
  assert (comparable (similarities queryEmbedding index)) as Hc
    by by apply Forall_fmap.
  pose proof (length_filter (λ doc, passes criteria doc) index) as Hle.
  rewrite !RetrieverSpec.slice0_all.
  - unfold filterResults.
    rewrite (RetrieverSpec.filter_fmap_bool Doc.without_embedding
               (passes criteria)).
    f_equal.
    rewrite (filter_sort_ranked
               (λ d, passes criteria (Doc.without_embedding d)) _ Hc).
    f_equal. unfold similarities.
    by rewrite (RetrieverSpec.filter_fmap_bool
                  (λ doc, Doc.with_score doc _)
                  (λ d, passes criteria (Doc.without_embedding d))).
  - unfold similarities. rewrite SortFacts.sort_length, length_fmap. lia.
  - unfold similarities, filterResults.
    rewrite SortFacts.sort_length, length_fmap. lia.
Qed.

(** X20, witness. *)
Lemma filtering_commutes_with_ranking_witness :
  ∃ results,
    findSimilar (Sample.gemini_answering (Some [1; 0]))
      [Fixture.profiled "a" "telecom" (Some [0; 1]);
       Fixture.profiled "b" "banking" (Some [1; 1]);
       Fixture.profiled "c" "banking" (Some [2; 0])] "query" 5
    = Returned results
    ∧ Doc.id <$> filterResults results Fixture.banking_only = ["c"; "b"].
Proof.
  destruct (filtering_commutes_with_ranking
              (Sample.gemini_answering (Some [1; 0]))
              [Fixture.profiled "a" "telecom" (Some [0; 1]);
               Fixture.profiled "b" "banking" (Some [1; 1]);
               Fixture.profiled "c" "banking" (Some [2; 0])] "query" 5
              (Some [1; 0]) Fixture.banking_only)
    as (results & Hres & _); [reflexivity|simpl; lia|repeat constructor|].
  exists results. split; [exact Hres|].
  vm_compute in Hres. injection Hres as <-. reflexivity.
Defined.

End FilterRank.

(** ** Transcripts and the command line *)

Module TranscriptFacts.

Import Transcript.

Lemma requirement_lines_not_empty (requirements : option (list string)) :
  Forall (λ line, line ≠ EmptyString) (requirement_lines requirements).
Proof.
  destruct requirements as [items|]; [|constructor]. cbn.
  constructor; [done|]. apply Forall_fmap, Forall_forall.
  intros r _. simpl. by rewrite TokenFacts.app_cons.
Qed.

Lemma parts_lines (d : data) :
  Forall (λ line, line ≠ EmptyString) (parts d).
Proof.
  unfold parts. rewrite !Forall_app.
  repeat split;
    auto using QueryTextFacts.text_line_not_empty, requirement_lines_not_empty.
Qed.

(** X21.  The text of a transcript file.  [parseTranscript] throws for
    every file whose extension, in lower case, is none of [.pdf], [.txt],
    [.md] and [.json], whatever the file holds.  For a JSON file that is
    read, a non-empty [transcript] field is the text and the other fields
    are ignored; without it the text is empty exactly when [customer],
    [project] and [summary] are absent or empty and there is no
    [requirements] field (an empty list of requirements still gives the
    line "Requirements:"). *)
Theorem parseTranscript_text :
  ∀ (path : Path) (files : readers) (filePath : string),
    (Str.toLowerCase (extname path filePath)
       ∉ [".pdf"; ".txt"; ".md"; ".json"] →
     parseTranscript path files filePath = Thrown)
    ∧ ∀ d,
        Str.toLowerCase (extname path filePath) = ".json" →
        read_json files filePath = Returned d →
        (∀ c s, transcript d = Some (String c s) →
                parseTranscript path files filePath = Returned (String c s))
        ∧ (¬ Query.given_text (transcript d) →
           parseTranscript path files filePath = Returned EmptyString
           ↔ ¬ Query.given_text (customer d)
             ∧ ¬ Query.given_text (project d)
             ∧ ¬ Query.given_text (summary d)
             ∧ requirements d = None).
Proof.
  intros path files filePath. unfold parseTranscript. split.
  - rewrite !not_elem_of_cons. intros (? & ? & ? & ? & _).
    by rewrite !decide_False.
  - intros d -> Hread. simpl. unfold parseJson. rewrite Hread. simpl.
    unfold text_of. split.
    + by intros c s ->.
    + intros Hnone.
      assert (Str.truthy (transcript d) = false) as ->.
      { destruct (transcript d) as [[|c s]|]; try done.
        destruct Hnone. by exists c, s. }
      split.
      * intros [= Hjoin].
        apply QueryTextFacts.join_empty in Hjoin; [|apply parts_lines].
        unfold parts in Hjoin.
        apply app_eq_nil in Hjoin as [Hc Hjoin].
        apply app_eq_nil in Hjoin as [Hp Hjoin].
        apply app_eq_nil in Hjoin as [Hs Hr].
        apply QueryTextFacts.text_line_nil in Hc, Hp, Hs.
        by destruct (requirements d).
      * intros (Hc & Hp & Hs & Hr). f_equal.
        apply QueryTextFacts.join_empty; [apply parts_lines|].
        unfold parts. rewrite Hr.
        rewrite (proj2 (QueryTextFacts.text_line_nil "Customer" _) Hc).
        rewrite (proj2 (QueryTextFacts.text_line_nil "Project" _) Hp).
        by rewrite (proj2 (QueryTextFacts.text_line_nil "Summary" _) Hs).
Qed.

End TranscriptFacts.

Module CliFacts.

Import Cli Retriever.

Lemma digits_prefix_Some (digit : ascii → option N) (radix : N)
    (s : string) (n : N) :
  ∃ m, digits_prefix digit radix (Some n) s = Some m.
Proof.
  revert n. induction s as [|c s IH]; intros n; cbn [digits_prefix];
    [eauto|].
  destruct (digit c); [apply IH|eauto].
Qed.

(** A run of digits is read when the string starts with a digit, and
    only then. *)
Lemma digits_prefix_None (digit : ascii → option N) (radix : N)
    (c : ascii) (s : string) :
  digits_prefix digit radix None (String c s) = None ↔ digit c = None.
Proof.
  cbn [digits_prefix]. destruct (digit c) as [d|]; [|done].
  destruct (digits_prefix_Some digit radix s (radix * default 0 None + d)%N)
    as [m ->].
  done.
Qed.

Lemma decimal_digit_None (c : ascii) :
  decimal_digit c = None ↔ Str.is_digit c = false.
Proof. unfold decimal_digit. by destruct (Str.is_digit c). Qed.

Lemma magnitude_None (s : string) :
  magnitude (unsigned_part s) = None ↔ no_numeral s.
Proof.
  unfold no_numeral, magnitude.
  destruct (unsigned_part s) as [|c [|x rest]]; [done|..].
  - by rewrite digits_prefix_None, decimal_digit_None.
  - destruct (bool_decide (c = "0"%char)
              && (bool_decide (x = "x"%char) || bool_decide (x = "X"%char))).
    + destruct rest as [|h rest]; [done|]. by rewrite digits_prefix_None.
    + by rewrite digits_prefix_None, decimal_digit_None.
Qed.

(** X22.  The [search] command with a [--top-k] that is no number.
    [parseInt] yields NaN exactly when the text holds no numeral: behind
    its leading white space and one sign there is no decimal digit, or
    just [0x] with no hexadecimal digit behind it.  The query is then
    embedded all the same, and [slice(0, NaN)] leaves no result: the
    command finds nothing, whatever the index holds. *)
Theorem search_without_a_number :
  ∀ (gemini : Gemini) (index : list Doc.t) (query topK : string),
    (parseInt topK = None ↔ no_numeral topK)
    ∧ (no_numeral topK →
       ∀ queryEmbedding,
         generateEmbedding gemini query = Returned queryEmbedding →
         searchCommand gemini index query topK = Returned [])
    ∧ (no_numeral topK →
       index ≠ [] → generateEmbedding gemini query = Thrown →
       searchCommand gemini index query topK = Thrown).
Proof.
  intros gemini index query topK.
  assert (parseInt topK = None ↔ no_numeral topK) as Hnan.
  { unfold parseInt. rewrite fmap_None. apply magnitude_None. }
  split; [done|split].
  - intros Hno queryEmbedding Hq. unfold searchCommand.
    rewrite (proj2 Hnan Hno). simpl.
    rewrite (RetrieverSpec.findSimilar_returned _ _ _ _ _ Hq).
    by rewrite RetrieverSpec.slice0_take.
  - intros Hno Hindex Hthrown. unfold searchCommand, findSimilar.
    destruct index as [|doc index]; [done|]. simpl. by rewrite Hthrown.
Qed.

(** X22, witness: the default of the option and a typing error. *)
Lemma search_without_a_number_witness :
  parseInt "5" = Some 5%Z
  ∧ parseInt " -12px" = Some (-12)%Z
  ∧ parseInt "0x1F" = Some 31%Z
  ∧ searchCommand (Sample.gemini_answering (Some [1; 0]%float))
      [Sample.entry "a" (Some [1; 0]%float)] "query" "five"
    = Returned [].
Proof.
  split; [reflexivity|]. split; [reflexivity|]. split; [reflexivity|].
  refine (proj1 (proj2 (search_without_a_number
                          (Sample.gemini_answering (Some [1; 0]%float))
                          [Sample.entry "a" (Some [1; 0]%float)]
                          "query" "five")) _ (Some [1; 0]%float) _).
  - reflexivity.
  - reflexivity.
Defined.

End CliFacts.

(** ** Letter case and extensions *)

Module CaseFacts.

Import Tokens.

Lemma code_inj (a b : ascii) : Str.code a = Str.code b → a = b.
Proof.
  unfold Str.code. intros Hab.
  by rewrite <- (ascii_nat_embedding a), <- (ascii_nat_embedding b), Hab.
Qed.

Lemma code_bounded (a : ascii) : Str.code a < 256.
Proof. apply nat_ascii_bounded. Qed.

(** The code of the lower case of a character. *)
Lemma code_lower_char (c : ascii) :
  Str.code (Str.lower_char c)
  = if ((65 <=? Str.code c) && (Str.code c <=? 90))
       || ((192 <=? Str.code c) && (Str.code c <=? 222)
           && negb (Str.code c =? 215))
    then Str.code c + 32 else Str.code c.
Proof.
  unfold Str.lower_char.
  destruct (((65 <=? Str.code c) && (Str.code c <=? 90))
            || ((192 <=? Str.code c) && (Str.code c <=? 222)
                && negb (Str.code c =? 215))) eqn:Hcap; [|done].
  unfold Str.code at 1. apply nat_ascii_embedding.
  pose proof (code_bounded c).
  apply orb_true_iff in Hcap as [Hcap|Hcap].
  - apply andb_true_iff in Hcap as [_ Hle]. apply Nat.leb_le in Hle. lia.
  - apply andb_true_iff in Hcap as [Hcap _].
    apply andb_true_iff in Hcap as [_ Hle]. apply Nat.leb_le in Hle. lia.
Qed.

(** The codes of the characters that have a lower case of their own. *)
Lemma capital_code (n : nat) :
  ((65 <=? n) && (n <=? 90))
  || ((192 <=? n) && (n <=? 222) && negb (n =? 215)) = true
  ↔ 65 ≤ n ≤ 90 ∨ (192 ≤ n ≤ 222 ∧ n ≠ 215).
Proof.
  rewrite orb_true_iff, !andb_true_iff, negb_true_iff, !Nat.leb_le,
    Nat.eqb_neq.
  tauto.
Qed.

Lemma not_capital_code (n : nat) :
  ((65 <=? n) && (n <=? 90))
  || ((192 <=? n) && (n <=? 222) && negb (n =? 215)) = false
  ↔ ¬ (65 ≤ n ≤ 90 ∨ (192 ≤ n ≤ 222 ∧ n ≠ 215)).
Proof. rewrite <- capital_code. symmetry. apply not_true_iff_false. Qed.

Lemma digit_code (n : nat) : (48 <=? n) && (n <=? 57) = true ↔ 48 ≤ n ≤ 57.
Proof. by rewrite andb_true_iff, !Nat.leb_le. Qed.

(** The characters whose lower case is [w], for a small letter, a digit
    or a sign [w]: [w] itself and, for a letter, its capital. *)
Lemma lower_char_spec (w c : ascii) :
  is_lowered w = true →
  Str.lower_char c = w
  ↔ c = w ∨ (is_small w = true ∧ Str.code c + 32 = Str.code w).
Proof.
  unfold is_lowered, is_small. intros Hw.
  assert (Str.lower_char c = w ↔ Str.code (Str.lower_char c) = Str.code w)
    as -> by (split; [by intros ->|apply code_inj]).
  assert (c = w ↔ Str.code c = Str.code w)
    as -> by (split; [by intros ->|apply code_inj]).
  rewrite code_lower_char. revert Hw.
  generalize (Str.code c) (Str.code w). intros n m.
  rewrite orb_true_iff, !andb_true_iff, !Nat.ltb_lt, !Nat.leb_le.
  intros Hw.
  destruct (((65 <=? n) && (n <=? 90))
            || ((192 <=? n) && (n <=? 222) && negb (n =? 215))) eqn:Hcap;
    [apply capital_code in Hcap|apply not_capital_code in Hcap]; lia.
Qed.

Lemma lower_char_idem (c : ascii) :
  Str.lower_char (Str.lower_char c) = Str.lower_char c.
Proof.
  apply code_inj. rewrite (code_lower_char (Str.lower_char c)).
  rewrite code_lower_char. generalize (Str.code c). intros n.
  destruct (((65 <=? n) && (n <=? 90))
            || ((192 <=? n) && (n <=? 222) && negb (n =? 215))) eqn:Hcap.
  - apply capital_code in Hcap.
    by rewrite (proj2 (not_capital_code (n + 32))) by lia.
  - by rewrite Hcap.
Qed.

Lemma is_digit_lower_char (c : ascii) :
  Str.is_digit (Str.lower_char c) = Str.is_digit c.
Proof.
  unfold Str.is_digit. rewrite code_lower_char.
  generalize (Str.code c). intros n.
  destruct (((65 <=? n) && (n <=? 90))
            || ((192 <=? n) && (n <=? 222) && negb (n =? 215))) eqn:Hcap;
    [|done].
  apply capital_code in Hcap.
  transitivity false; [|symmetry]; apply not_true_iff_false;
    rewrite digit_code; lia.
Qed.

Lemma is_digit_digits (c : ascii) :
  Str.is_digit c = bool_decide (c ∈ digits).
Proof.
  destruct (Str.is_digit c) eqn:Hc; symmetry.
  - apply bool_decide_eq_true. unfold Str.is_digit in Hc.
    apply andb_true_iff in Hc as [Hlow Hhigh].
    apply Nat.leb_le in Hlow, Hhigh.
    rewrite <- (ascii_nat_embedding c). fold (Str.code c).
    assert (Str.code c ∈ seq 48 10) as Hn by (apply elem_of_seq; lia).
    revert Hn. generalize (Str.code c). apply Forall_forall.
    by apply (bool_decide_unpack _).
  - apply bool_decide_eq_false. intros Hin.
    assert (Str.is_digit c = true) as Hyes; [|congruence].
    revert Hin. generalize c. apply Forall_forall.
    by apply (bool_decide_unpack _).
Qed.

Lemma toLowerCase_app (a b : string) :
  Str.toLowerCase (a +:+ b) = Str.toLowerCase a +:+ Str.toLowerCase b.
Proof.
  induction a as [|c a IH]; [done|].
  rewrite TokenFacts.app_cons. cbn [Str.toLowerCase].
  by rewrite IH, TokenFacts.app_cons.
Qed.

Lemma toLowerCase_length (s : string) :
  String.length (Str.toLowerCase s) = String.length s.
Proof. induction s as [|c s IH]; [done|]. simpl. by rewrite IH. Qed.

Lemma toLowerCase_idem (s : string) :
  Str.toLowerCase (Str.toLowerCase s) = Str.toLowerCase s.
Proof.
  induction s as [|c s IH]; [done|]. cbn [Str.toLowerCase].
  by rewrite lower_char_idem, IH.
Qed.

(** A word in small letters is the lower case of the strings that are
    the word up to letter case. *)
Lemma caseless_toLowerCase (word s : string) :
  all_chars is_lowered word = true →
  caseless word s ↔ Str.toLowerCase s = word.
Proof.
  revert s. induction word as [|w word IH]; intros [|c s] Hword;
    cbn [caseless Str.toLowerCase]; try done.
  cbn [all_chars] in Hword. apply andb_true_iff in Hword as [Hw Hword].
  rewrite <- (lower_char_spec w c Hw), (IH s Hword). split.
  - by intros [-> ->].
  - by intros [= -> ->].
Qed.

Lemma caseless_length (word s : string) :
  caseless word s → String.length s = String.length word.
Proof.
  revert s. induction word as [|w word IH]; intros [|c s]; try done.
  intros [_ Hs]. cbn [String.length]. by rewrite (IH s Hs).
Qed.

End CaseFacts.

Module ExtensionFacts.

Import Tokens CaseFacts.

Lemma substring0_app (b e : string) :
  Str.substring0 (String.length b) (b +:+ e) = b.
Proof.
  induction b as [|c b IH]; [by destruct e|].
  rewrite TokenFacts.app_cons. cbn [String.length Str.substring0].
  by rewrite IH.
Qed.

Lemma substring_all (e : string) :
  String.substring 0 (String.length e) e = e.
Proof. induction e as [|c e IH]; [done|]. simpl. by rewrite IH. Qed.

Lemma substring_app (b e : string) :
  String.substring (String.length b) (String.length e) (b +:+ e) = e.
Proof.
  induction b as [|c b IH]; [apply substring_all|].
  by rewrite TokenFacts.app_cons.
Qed.

(** A string is its first [m] characters and what follows them. *)
Lemma substring0_substring (m : nat) (s : string) :
  m ≤ String.length s →
  s = Str.substring0 m s +:+ String.substring m (String.length s - m) s.
Proof.
  revert m. induction s as [|c s IH]; intros [|m] Hm; simpl in *; try lia.
  - done.
  - by rewrite substring_all.
  - rewrite TokenFacts.app_cons. f_equal. apply IH. lia.
Qed.

(** Two strings that end with suffixes of one length. *)
Lemma app_inj_suffix (b1 e1 b2 e2 : string) :
  b1 +:+ e1 = b2 +:+ e2 → String.length e1 = String.length e2 →
  b1 = b2 ∧ e1 = e2.
Proof.
  revert b2. induction b1 as [|c b1 IH]; intros [|d b2] Heq Hlen.
  - done.
  - rewrite TokenFacts.app_empty in Heq. subst e1.
    rewrite TokenFacts.app_cons in Hlen. cbn [String.length] in Hlen.
    rewrite TextFacts.length_app in Hlen. lia.
  - rewrite TokenFacts.app_empty in Heq. subst e2.
    rewrite TokenFacts.app_cons in Hlen. cbn [String.length] in Hlen.
    rewrite TextFacts.length_app in Hlen. lia.
  - rewrite !TokenFacts.app_cons in Heq. injection Heq as -> Heq.
    destruct (IH b2 Heq Hlen) as [-> ->]. done.
Qed.

(** [ends_with] finds the suffixes. *)
Lemma ends_with_spec (suffix s : string) :
  Str.ends_with suffix s = true ↔ ∃ b, s = b +:+ suffix.
Proof.
  unfold Str.ends_with. rewrite andb_true_iff, Nat.leb_le, bool_decide_eq_true.
  split.
  - intros [Hle Hsuffix].
    exists (Str.substring0 (String.length s - String.length suffix) s).
    pose proof (substring0_substring
                  (String.length s - String.length suffix) s) as Hcut.
    replace (String.length s - (String.length s - String.length suffix))
      with (String.length suffix) in Hcut by lia.
    rewrite Hsuffix in Hcut. apply Hcut. lia.
  - intros [b ->]. rewrite TextFacts.length_app. split; [lia|].
    replace (String.length b + String.length suffix - String.length suffix)
      with (String.length b) by lia.
    apply substring_app.
Qed.

Lemma drop_last_app (b e : string) :
  Str.drop_last (String.length e) (b +:+ e) = b.
Proof.
  unfold Str.drop_last. rewrite TextFacts.length_app.
  replace (String.length b + String.length e - String.length e)
    with (String.length b) by lia.
  apply substring0_app.
Qed.

(** A name whose lower case ends with one of the words ends with the
    word up to letter case. *)
Lemma ends_with_caseless (word name : string) :
  all_chars is_lowered word = true →
  Str.ends_with word (Str.toLowerCase name) = true
  ↔ ∃ b e, name = b +:+ e ∧ caseless word e.
Proof.
  intros Hword. rewrite ends_with_spec. split.
  - intros [b' Hlower].
    assert (String.length word ≤ String.length name) as Hle.
    { rewrite <- (toLowerCase_length name), Hlower, TextFacts.length_app.
      lia. }
    pose proof (substring0_substring
                  (String.length name - String.length word) name) as Hcut.
    set (b := Str.substring0 _ name) in Hcut.
    set (e := String.substring _ _ name) in Hcut.
    assert (String.length e = String.length word) as He.
    { assert (String.length name = String.length b + String.length e) as Hn
        by (rewrite Hcut at 1 by lia; apply TextFacts.length_app).
      unfold b in Hn. rewrite FilenameFacts.substring0_length in Hn. lia. }
    exists b, e. split; [apply Hcut; lia|].
    apply caseless_toLowerCase; [done|].
    rewrite Hcut, toLowerCase_app in Hlower by lia.
    apply app_inj_suffix in Hlower as [_ ?]; [done|].
    by rewrite toLowerCase_length.
  - intros (b & e & -> & He). exists (Str.toLowerCase b).
    rewrite toLowerCase_app. f_equal. by apply caseless_toLowerCase.
Qed.

(** A name does not end with two of the three extensions. *)
Lemma one_extension (b1 e1 b2 e2 w1 w2 : string) :
  w1 ∈ [".doc"; ".docx"; ".pdf"] → w2 ∈ [".doc"; ".docx"; ".pdf"] →
  caseless w1 e1 → caseless w2 e2 →
  b1 +:+ e1 = b2 +:+ e2 → w1 = w2.
Proof.
  intros Hw1 Hw2 He1 He2 Heq.
  assert (Str.toLowerCase b1 +:+ w1 = Str.toLowerCase b2 +:+ w2) as Hlower.
  { apply (f_equal Str.toLowerCase) in Heq. rewrite !toLowerCase_app in Heq.
    apply caseless_toLowerCase in He1, He2.
    - by rewrite He1, He2 in Heq.
    - revert Hw2. generalize w2. apply Forall_forall.
      by apply (bool_decide_unpack _).
    - revert Hw1. generalize w1. apply Forall_forall.
      by apply (bool_decide_unpack _). }
  clear Heq He1 He2. revert Hlower.
  generalize (Str.toLowerCase b1) (Str.toLowerCase b2). intros l1 l2.
  repeat (apply elem_of_cons in Hw1 as [->|Hw1]);
    [..|by apply elem_of_nil in Hw1];
    repeat (apply elem_of_cons in Hw2 as [->|Hw2]);
    try (by apply elem_of_nil in Hw2); try done; intros Hlower; exfalso.
  - change ".docx" with ("." +:+ "docx") in Hlower.
    rewrite <- TextFacts.app_assoc in Hlower.
    by apply app_inj_suffix in Hlower as [_ ?].
  - by apply app_inj_suffix in Hlower as [_ ?].
  - change ".docx" with ("." +:+ "docx") in Hlower.
    rewrite <- TextFacts.app_assoc in Hlower.
    by apply app_inj_suffix in Hlower as [_ ?].
  - change ".docx" with ("." +:+ "docx") in Hlower.
    rewrite <- TextFacts.app_assoc in Hlower.
    by apply app_inj_suffix in Hlower as [_ ?].
  - by apply app_inj_suffix in Hlower as [_ ?].
  - change ".docx" with ("." +:+ "docx") in Hlower.
    rewrite <- TextFacts.app_assoc in Hlower.
    by apply app_inj_suffix in Hlower as [_ ?].
Qed.

(** [strip_extension] removes the extension of a name that has one. *)
Lemma strip_extension_app (base e : string) :
  extension e → Str.strip_extension (base +:+ e) = base.
Proof.
  intros (w & Hw & He).
  assert (∀ word, word ∈ [".doc"; ".docx"; ".pdf"] →
            Str.ends_with word (Str.toLowerCase (base +:+ e))
            = bool_decide (word = w)) as Hends.
  { intros word Hword.
    assert (all_chars is_lowered word = true) as Hlowered.
    { revert Hword. generalize word. apply Forall_forall.
      by apply (bool_decide_unpack _). }
    destruct (bool_decide (word = w)) eqn:Heq.
    - apply bool_decide_eq_true in Heq as ->.
      apply ends_with_caseless; [done|]. by exists base, e.
    - apply bool_decide_eq_false in Heq. apply not_true_iff_false.
      intros (b & e' & Hname & He')%ends_with_caseless; [|done].
      destruct Heq. symmetry.
      exact (one_extension _ _ _ _ _ _ Hw Hword He He' Hname). }
  unfold Str.strip_extension.
  rewrite !Hends by (by apply (bool_decide_unpack _)).
  pose proof (caseless_length w e He) as Hlen.
  repeat (apply elem_of_cons in Hw as [->|Hw]);
    [..|by apply elem_of_nil in Hw]; simpl in Hlen.
  - rewrite (bool_decide_eq_false_2 (".docx" = ".doc")) by done.
    rewrite (bool_decide_eq_true_2 (".doc" = ".doc")) by done.
    rewrite <- Hlen. apply drop_last_app.
  - rewrite (bool_decide_eq_true_2 (".docx" = ".docx")) by done.
    rewrite <- Hlen. apply drop_last_app.
  - rewrite (bool_decide_eq_false_2 (".docx" = ".pdf")) by done.
    rewrite (bool_decide_eq_false_2 (".doc" = ".pdf")) by done.
    rewrite (bool_decide_eq_true_2 (".pdf" = ".pdf")) by done.
    rewrite <- Hlen. apply drop_last_app.
Qed.

(** [strip_extension] leaves a name without extension as it is. *)
Lemma strip_extension_none (name : string) :
  (∀ b e, extension e → name ≠ b +:+ e) → Str.strip_extension name = name.
Proof.
  intros Hnone.
  assert (∀ word, word ∈ [".doc"; ".docx"; ".pdf"] →
            Str.ends_with word (Str.toLowerCase name) = false) as Hends.
  { intros word Hword. apply not_true_iff_false.
    intros (b & e & Hname & He)%ends_with_caseless.
    - apply (Hnone b e); [|done]. by exists word.
    - revert Hword. generalize word. apply Forall_forall.
      by apply (bool_decide_unpack _). }
  unfold Str.strip_extension.
  by rewrite !Hends by (by apply (bool_decide_unpack _)).
Qed.

(** What [strip_extension] returns is the name without its extension. *)
Lemma strip_extension_spec (name base : string) :
  without_extension name base → Str.strip_extension name = base.
Proof.
  intros [(e & He & ->)|[<- Hnone]].
  - by apply strip_extension_app.
  - by apply strip_extension_none.
Qed.

(** Every name is cut in this way. *)
Lemma strip_extension_cut (name : string) :
  without_extension name (Str.strip_extension name).
Proof.
  assert (∀ word, word ∈ [".doc"; ".docx"; ".pdf"] →
            Str.ends_with word (Str.toLowerCase name) = true →
            without_extension name (Str.strip_extension name)) as Hcut.
  { intros word Hword (b & e & -> & He)%ends_with_caseless.
    - assert (extension e) as Hext by by exists word.
      rewrite (strip_extension_app b e Hext). left. by exists e.
    - revert Hword. generalize word. apply Forall_forall.
      by apply (bool_decide_unpack _). }
  destruct (Str.ends_with ".docx" (Str.toLowerCase name)) eqn:Hdocx.
  { apply (Hcut ".docx"); [by apply (bool_decide_unpack _)|done]. }
  destruct (Str.ends_with ".doc" (Str.toLowerCase name)) eqn:Hdoc.
  { apply (Hcut ".doc"); [by apply (bool_decide_unpack _)|done]. }
  destruct (Str.ends_with ".pdf" (Str.toLowerCase name)) eqn:Hpdf.
  { apply (Hcut ".pdf"); [by apply (bool_decide_unpack _)|done]. }
  right. unfold Str.strip_extension. rewrite Hdocx, Hdoc, Hpdf.
  split; [done|]. intros b e (w & Hw & He) Hname.
  assert (Str.ends_with w (Str.toLowerCase name) = true) as Hends.
  { apply ends_with_caseless; [|by exists b, e].
    revert Hw. generalize w. apply Forall_forall.
    by apply (bool_decide_unpack _). }
  repeat (apply elem_of_cons in Hw as [->|Hw]);
    [..|by apply elem_of_nil in Hw]; congruence.
Qed.

End ExtensionFacts.

(** ** Tokens of a name *)

Module SplitFacts.

Import Tokens.

Lemma split_token_run (t : string) (c : ascii) (s : string) :
  separator_free t → Str.is_separator c = true →
  Str.split_from false (t +:+ String c s) = t :: Str.split_from true s.
Proof.
  unfold separator_free. induction t as [|d t IH]; intros Hfree Hc.
  - rewrite TokenFacts.app_empty. cbn [Str.split_from]. by rewrite Hc.
  - rewrite TokenFacts.app_cons. cbn [Str.split_from].
    cbn [all_chars] in Hfree. apply andb_true_iff in Hfree as [Hd Hfree].
    apply negb_true_iff in Hd. by rewrite Hd, IH.
Qed.

Lemma split_from_start (in_run : bool) (d : ascii) (s : string) :
  Str.is_separator d = false →
  Str.split_from in_run (String d s) = Str.split_from false (String d s).
Proof. intros Hd. cbn [Str.split_from]. by rewrite Hd. Qed.

Lemma split_run (r s : string) :
  all_chars Str.is_separator r = true →
  Str.split_from true (r +:+ s) = Str.split_from true s.
Proof.
  induction r as [|c r IH]; [done|]. cbn [all_chars].
  intros [Hc Hr]%andb_true_iff.
  rewrite TokenFacts.app_cons. cbn [Str.split_from]. rewrite Hc. by apply IH.
Qed.

Lemma split_last (in_run : bool) (t : string) :
  separator_free t → Str.split_from in_run t = [t].
Proof.
  unfold separator_free. revert in_run.
  induction t as [|d t IH]; intros in_run Hfree; [done|].
  cbn [all_chars] in Hfree. apply andb_true_iff in Hfree as [Hd Hfree].
  apply negb_true_iff in Hd. cbn [Str.split_from].
  by rewrite Hd, (IH false Hfree).
Qed.

Lemma front_nonempty_tail (t : string) (ts : list string) :
  front_nonempty (t :: ts) → front_nonempty ts.
Proof.
  intros Hfront i u Hi Hu. specialize (Hfront (S i) u Hi Hu).
  cbn [length] in Hfront. lia.
Qed.

(** The scan that starts inside a run of separators. *)
Lemma split_from_run_weave (tokens runs : list string) :
  length tokens = S (length runs) →
  Forall separator_run runs → Forall separator_free tokens →
  front_nonempty tokens →
  Str.split_from true (weave tokens runs) = tokens.
Proof.
  revert runs. induction tokens as [|t tokens IH];
    intros runs Hlen Hruns Hfree Hfront; [done|].
  apply Forall_cons in Hfree as [Ht Hfree].
  destruct runs as [|r runs].
  { destruct tokens; [|done]. by apply split_last. }
  apply Forall_cons in Hruns as [[Hr Hsep] Hruns].
  cbn [weave]. destruct r as [|c r]; [done|].
  cbn [all_chars] in Hsep. apply andb_true_iff in Hsep as [Hc Hsep].
  destruct t as [|d t].
  { specialize (Hfront 0 EmptyString eq_refl eq_refl).
    cbn [length] in Hfront, Hlen. lia. }
  pose proof Ht as Hd. unfold separator_free in Hd. cbn [all_chars] in Hd.
  apply andb_true_iff in Hd as [Hd _]. apply negb_true_iff in Hd.
  transitivity
    (Str.split_from false
       (String d t +:+ String c (r +:+ weave tokens runs))).
  { apply (split_from_start true d _ Hd). }
  rewrite (split_token_run (String d t) c _ Ht Hc), (split_run r _ Hsep).
  f_equal. apply IH; [by injection Hlen|done|done|].
  by apply front_nonempty_tail in Hfront.
Qed.

(** [split_separators] returns the tokens of the string. *)
Lemma split_separators_tokens (s : string) (tokens : list string) :
  tokens_of s tokens → Str.split_separators s = tokens.
Proof.
  intros (runs & -> & Hlen & Hruns & Hfree & Hinner).
  unfold Str.split_separators.
  destruct tokens as [|t tokens]; [done|].
  apply Forall_cons in Hfree as [Ht Hfree].
  destruct runs as [|r runs].
  { destruct tokens; [|done]. by apply split_last. }
  apply Forall_cons in Hruns as [[Hr Hsep] Hruns].
  cbn [weave]. destruct r as [|c r]; [done|].
  cbn [all_chars] in Hsep. apply andb_true_iff in Hsep as [Hc Hsep].
  rewrite TokenFacts.app_cons.
  rewrite (split_token_run t c _ Ht Hc), (split_run r _ Hsep).
  f_equal. apply split_from_run_weave; [by injection Hlen|done|done|].
  intros i u Hi Hu. destruct (Hinner (S i) u Hi Hu) as [?|Hlast]; [done|].
  cbn [length] in Hlast. lia.
Qed.

(** Of the tokens [split_from] returns, only the first, when the scan
    does not start in a run of separators, and the last can be empty. *)
Lemma split_from_nonempty (s : string) :
  front_nonempty (Str.split_from true s)
  ∧ ∃ t ts, Str.split_from false s = t :: ts ∧ front_nonempty ts.
Proof.
  induction s as [|c s [IHrun (t & ts & IHstart & IHts)]].
  { split.
    - intros [|i] u Hi Hu; [done|done].
    - exists EmptyString, []. split; [done|]. by intros i u Hi. }
  cbn [Str.split_from]. destruct (Str.is_separator c).
  - split; [done|]. by exists EmptyString, (Str.split_from true s).
  - rewrite IHstart. split.
    + intros [|i] u Hi Hu; [by injection Hi as <-|].
      cbn [length]. f_equal. by apply (IHts i u).
    + by exists (String c t), ts.
Qed.

Lemma split_separators_tokens_of (s : string) :
  tokens_of s (Str.split_separators s).
Proof.
  destruct (TokenFacts.split_separators_weave s)
    as (runs & Hs & Hlen & Hruns & Hfree).
  exists runs. repeat split; try done.
  destruct (split_from_nonempty s) as [_ (t & ts & Hsplit & Hts)].
  unfold Str.split_separators. rewrite Hsplit.
  intros [|i] u Hi Hu; [by left|]. right.
  cbn [length]. f_equal. by apply (Hts i u).
Qed.

End SplitFacts.

(** ** Tokens that are discarded *)

Module DiscardFacts.

Import Tokens CaseFacts.

Lemma lowered_words (words : list string) (t : string) :
  Forall (λ w, all_chars is_lowered w = true) words →
  Str.toLowerCase t ∈ words ↔ ∃ w, w ∈ words ∧ caseless w t.
Proof.
  rewrite Forall_forall. intros Hwords. split.
  - intros Hin. exists (Str.toLowerCase t). split; [done|].
    by apply caseless_toLowerCase; [apply Hwords|].
  - intros (w & Hw & Ht).
    apply caseless_toLowerCase in Ht as ->; [done|by apply Hwords].
Qed.

Lemma is_v_digit_spec (t : string) : Str.is_v_digit t = true ↔ v_digit t.
Proof.
  unfold v_digit. split.
  - destruct t as [|c [|d [|? ?]]]; try done. cbn [Str.is_v_digit].
    rewrite andb_true_iff, bool_decide_eq_true, is_digit_digits,
      bool_decide_eq_true.
    intros [Hv Hd]. exists c, d. split; [done|]. split; [|done].
    apply (lower_char_spec "v" c eq_refl) in Hv as [->|[_ Hcode]].
    + by left.
    + assert (c = "V"%char) as ->; [|by right; left].
      apply code_inj. change (Str.code "V") with 86.
      change (Str.code "v") with 118 in Hcode. lia.
  - intros (v & d & -> & Hv & Hd). cbn [Str.is_v_digit].
    rewrite is_digit_digits, (bool_decide_eq_true_2 _ Hd), andb_true_r.
    apply bool_decide_eq_true.
    repeat (apply elem_of_cons in Hv as [->|Hv]);
      [done|done|by apply elem_of_nil in Hv].
Qed.

Lemma all_digits_digits (t : string) :
  Str.all_digits t = all_chars (λ c, bool_decide (c ∈ digits)) t.
Proof.
  induction t as [|c t IH]; [done|]. cbn [Str.all_digits all_chars].
  by rewrite is_digit_digits, IH.
Qed.

Lemma is_number_spec (t : string) : Str.is_number t = true ↔ number t.
Proof.
  unfold number, Str.is_number. rewrite <- all_digits_digits.
  destruct t as [|c t]; [naive_solver|]. naive_solver.
Qed.

Lemma is_v_digit_toLowerCase (t : string) :
  Str.is_v_digit (Str.toLowerCase t) = Str.is_v_digit t.
Proof.
  destruct t as [|c [|d [|? ?]]]; try done. cbn.
  by rewrite lower_char_idem, is_digit_lower_char.
Qed.

Lemma is_number_toLowerCase (t : string) :
  Str.is_number (Str.toLowerCase t) = Str.is_number t.
Proof.
  assert (∀ s, Str.all_digits (Str.toLowerCase s) = Str.all_digits s) as Hall.
  { induction s as [|c s IH]; [done|]. cbn.
    by rewrite is_digit_lower_char, IH. }
  destruct t as [|c t]; [done|]. apply (Hall (String c t)).
Qed.

(** The tokens the Drive fallback discards. *)
Lemma drive_is_boilerplate (t : string) :
  GDriveIndexer.is_boilerplate t = true
  ↔ discarded ["sow"; "scope"; "version"; "setup"; "inline"] t.
Proof.
  unfold GDriveIndexer.is_boilerplate, discarded.
  rewrite !orb_true_iff, bool_decide_eq_true, is_v_digit_spec,
    is_number_spec, lowered_words; [tauto|].
  by apply (bool_decide_unpack _).
Qed.

(** The tokens the directory fallback discards. *)
Lemma sow_is_boilerplate (t : string) :
  SowIndexer.is_boilerplate t = true
  ↔ discarded ["sow"; "scope"; "version"] t.
Proof.
  unfold SowIndexer.is_boilerplate, discarded.
  rewrite is_v_digit_toLowerCase, is_number_toLowerCase.
  rewrite !orb_true_iff, bool_decide_eq_true, is_v_digit_spec,
    is_number_spec, lowered_words; [tauto|].
  by apply (bool_decide_unpack _).
Qed.

(** Filtering with a test of the discarded tokens leaves the remaining
    ones. *)
Lemma remaining_filter (discard : string → Prop) (test : string → bool)
    (tokens kept : list string) :
  (∀ t, test t = true ↔ discard t) →
  remaining discard tokens kept →
  filter (λ t, negb (test t)) tokens = kept.
Proof.
  intros Htest. induction 1 as [|t tokens kept Ht _ IH|t tokens kept Ht _ IH];
    [done|..]; rewrite filter_cons, IH.
  - apply Htest in Ht. by rewrite Ht.
  - destruct (test t) eqn:Hyes; [|done]. by apply Htest in Hyes.
Qed.

Lemma filter_remaining (discard : string → Prop) (test : string → bool)
    (tokens : list string) :
  (∀ t, test t = true ↔ discard t) →
  remaining discard tokens (filter (λ t, negb (test t)) tokens).
Proof.
  intros Htest. induction tokens as [|t tokens IH]; [constructor|].
  rewrite filter_cons. destruct (test t) eqn:Ht; simpl.
  - apply remaining_discard; [by apply Htest|done].
  - apply remaining_keep; [|done]. rewrite <- Htest. congruence.
Qed.

Lemma join_concat (sep : string) (parts : list string) :
  Str.join sep parts = String.concat sep parts.
Proof.
  induction parts as [|p [|q parts] IH]; [done|done|].
  cbn [Str.join String.concat] in *. by rewrite IH.
Qed.

End DiscardFacts.

(** ** The filename fallbacks *)

Module FallbackSpec.

Import Tokens.

(** C9 (as amended).  The fallback of the Drive indexer removes the
    extension [.doc], [.docx] or [.pdf] (in any letter case) from the end
    of the name, takes the tokens of the rest, which are its pieces
    between the runs of [_], [-] and white space, and discards the tokens
    "sow", "scope", "version", "setup", "inline" (in any letter case), "v"
    with one digit and the bare numbers; the customer is the first
    remaining token, or "Unknown" when none remains or the first one is
    empty; the project is the remaining tokens joined by a space and the
    keywords are the remaining tokens.  The fallback of the directory
    indexer finds the customer in the same way in the file name that
    [path.basename] returns without its extension (without discarding
    "setup" and "inline"), but its project is that name, unsplit, and its
    keywords are empty.  In both the industry is "unknown", the complexity
    "medium" and the lists are empty.  Every name has an extension or
    none, and tokens, so that this describes the fallbacks on every
    name. *)
Theorem filename_fallbacks :
  (∀ (fileName base : string) (tokens kept : list string),
     without_extension fileName base →
     tokens_of base tokens →
     remaining (discarded ["sow"; "scope"; "version"; "setup"; "inline"])
       tokens kept →
     GDriveIndexer.extractMetadataFromFilename fileName
     = {| Meta.customer :=
            Some match kept with
                 | String c t :: _ => String c t
                 | _ => "Unknown"
                 end;
          Meta.project := Some (String.concat " " kept);
          Meta.industry := Some "unknown";
          Meta.modules := Some [];
          Meta.integrations := Some [];
          Meta.features := Some [];
          Meta.complexity := Some "medium";
          Meta.summary := Some "";
          Meta.keywords := Some kept |})
  ∧ (∀ fileName : string,
       ∃ base tokens kept,
         without_extension fileName base
         ∧ tokens_of base tokens
         ∧ remaining
             (discarded ["sow"; "scope"; "version"; "setup"; "inline"])
             tokens kept)
  ∧ (∀ (path : Path) (filePath : string) (tokens kept : list string),
       tokens_of (basename_without path filePath (extname path filePath))
         tokens →
       remaining (discarded ["sow"; "scope"; "version"]) tokens kept →
       SowIndexer.basicMetadata path filePath
       = {| Meta.customer :=
              Some match kept with
                   | String c t :: _ => String c t
                   | _ => "Unknown"
                   end;
            Meta.project :=
              Some (basename_without path filePath (extname path filePath));
            Meta.industry := Some "unknown";
            Meta.modules := Some [];
            Meta.integrations := Some [];
            Meta.features := Some [];
            Meta.complexity := Some "medium";
            Meta.summary := Some "";
            Meta.keywords := Some [] |})
  ∧ (∀ name : string,
       ∃ tokens kept,
         tokens_of name tokens
         ∧ remaining (discarded ["sow"; "scope"; "version"]) tokens kept).
Proof.
  split; [|split; [|split]].
  - intros fileName base tokens kept Hbase Htokens Hkept.
    unfold GDriveIndexer.extractMetadataFromFilename,
      GDriveIndexer.filename_tokens.
    rewrite (ExtensionFacts.strip_extension_spec _ _ Hbase).
    rewrite (SplitFacts.split_separators_tokens _ _ Htokens).
    rewrite (DiscardFacts.remaining_filter _ _ _ _
               DiscardFacts.drive_is_boilerplate Hkept).
    rewrite DiscardFacts.join_concat.
    by destruct kept as [|[|c t] rest].
  - intros fileName.
    exists (Str.strip_extension fileName),
      (Str.split_separators (Str.strip_extension fileName)),
      (GDriveIndexer.filename_tokens fileName).
    split; [apply ExtensionFacts.strip_extension_cut|].
    split; [apply SplitFacts.split_separators_tokens_of|].
    apply DiscardFacts.filter_remaining, DiscardFacts.drive_is_boilerplate.
  - intros path filePath tokens kept Htokens Hkept.
    unfold SowIndexer.basicMetadata, SowIndexer.extractCustomerFromFilename.
    rewrite (SplitFacts.split_separators_tokens _ _ Htokens).
    rewrite (DiscardFacts.remaining_filter _ _ _ _
               DiscardFacts.sow_is_boilerplate Hkept).
    by destruct kept as [|[|c t] rest].
  - intros name.
    exists (Str.split_separators name),
      (filter (λ p, negb (SowIndexer.is_boilerplate p))
         (Str.split_separators name)).
    split; [apply SplitFacts.split_separators_tokens_of|].
    apply DiscardFacts.filter_remaining, DiscardFacts.sow_is_boilerplate.
Qed.

(** C9, witness: a name in capitals with a run of three separators. *)
Lemma filename_fallbacks_witness :
  GDriveIndexer.extractMetadataFromFilename "Acme_SOW - Billing V2.DOCX"
  = {| Meta.customer := Some "Acme"; Meta.project := Some "Acme Billing";
       Meta.industry := Some "unknown"; Meta.modules := Some [];
       Meta.integrations := Some []; Meta.features := Some [];
       Meta.complexity := Some "medium"; Meta.summary := Some "";
       Meta.keywords := Some ["Acme"; "Billing"] |}.
Proof.
  apply (proj1 filename_fallbacks "Acme_SOW - Billing V2.DOCX"
           "Acme_SOW - Billing V2" ["Acme"; "SOW"; "Billing"; "V2"]
           ["Acme"; "Billing"]).
  - left. exists ".DOCX". split; [|reflexivity].
    exists ".docx". split; [by apply (bool_decide_unpack _)|].
    cbn. repeat split; (by left) || (right; by split).
  - exists ["_"; " - "; " "]. split; [reflexivity|]. split; [reflexivity|].
    split; [by repeat constructor|]. split; [by repeat constructor|].
    intros i t Hi ->. do 4 (destruct i as [|i]; [by simplify_eq/=|]). done.
  - apply remaining_keep.
    { rewrite <- DiscardFacts.drive_is_boilerplate. by vm_compute. }
    apply remaining_discard.
    { left. exists "sow". split; [by apply (bool_decide_unpack _)|].
      cbn. repeat split; (by left) || (right; by split). }
    apply remaining_keep.
    { rewrite <- DiscardFacts.drive_is_boilerplate. by vm_compute. }
    apply remaining_discard.
    { right. left. exists "V"%char, "2"%char.
      split; [done|]. split; by apply (bool_decide_unpack _). }
    constructor.
Defined.

(** C9, counterexample.  For the file [Acme_SOW_v1.docx] the directory
    indexer's fallback has the unsplit name as project and no keywords,
    where the tokens that remain are the single token "Acme".  The Drive
    indexer's fallback discards "setup" as well, and answers "Unknown" for
    a name that starts with a separator although "Acme" remains. *)
Lemma fallbacks_differ_from_words :
  SowIndexer.basicMetadata Sample.docx_paths "Acme_SOW_v1.docx"
  = {| Meta.customer := Some "Acme"; Meta.project := Some "Acme_SOW_v1";
       Meta.industry := Some "unknown"; Meta.modules := Some [];
       Meta.integrations := Some []; Meta.features := Some [];
       Meta.complexity := Some "medium"; Meta.summary := Some "";
       Meta.keywords := Some [] |}
  ∧ SpecFallback.fallback "Acme_SOW_v1"
    = {| Meta.customer := Some "Acme"; Meta.project := Some "Acme";
         Meta.industry := Some "unknown"; Meta.modules := Some [];
         Meta.integrations := Some []; Meta.features := Some [];
         Meta.complexity := Some "medium"; Meta.summary := Some "";
         Meta.keywords := Some ["Acme"] |}
  ∧ Meta.customer (GDriveIndexer.extractMetadataFromFilename "setup_Acme")
    = Some "Acme"
  ∧ Meta.customer (SpecFallback.fallback "setup_Acme") = Some "setup"
  ∧ Meta.customer (GDriveIndexer.extractMetadataFromFilename "_Acme")
    = Some "Unknown"
  ∧ Meta.keywords (GDriveIndexer.extractMetadataFromFilename "_Acme")
    = Some [""; "Acme"].
Proof. repeat split; vm_compute; reflexivity. Qed.

End FallbackSpec.

(** ** Answers of any shape *)

Module AnswerFacts.

Section Rendering.

Context (number_text : float → string).

Lemma to_string_Array (items : list Json.t) :
  Json.to_string number_text (Json.Array items)
  = texts ← Json.items_text number_text items;
    Returned (Str.join "," texts).
Proof. reflexivity. Qed.

Lemma member_app (l1 l2 : list (string * Json.t)) (key : string) :
  Json.member (l1 ++ l2) key
  = match Json.member l2 key with
    | Some w => Some w
    | None => Json.member l1 key
    end.
Proof.
  induction l1 as [|[k v] l1 IH]; simpl.
  - by destruct (Json.member l2 key).
  - rewrite IH. by destruct (Json.member l2 key).
Qed.

Lemma member_text_member (k key : string) (field : option string) :
  Json.member (Answers.text_member k field) key
  = if decide (k = key) then Json.Text <$> field else None.
Proof. destruct field; simpl; by case_decide. Qed.

Lemma member_list_member (k key : string) (field : option (list string)) :
  Json.member (Answers.list_member k field) key
  = if decide (k = key)
    then (λ l, Json.Array (Json.Text <$> l)) <$> field else None.
Proof. destruct field; simpl; by case_decide. Qed.

(** The members of a metadata object. *)
Lemma get_encode (metadata : Meta.t) :
  Json.get (Answers.encode metadata) "customer"
  = Json.Text <$> Meta.customer metadata
  ∧ Json.get (Answers.encode metadata) "project"
    = Json.Text <$> Meta.project metadata
  ∧ Json.get (Answers.encode metadata) "industry"
    = Json.Text <$> Meta.industry metadata
  ∧ Json.get (Answers.encode metadata) "summary"
    = Json.Text <$> Meta.summary metadata
  ∧ Json.get (Answers.encode metadata) "features"
    = (λ l, Json.Array (Json.Text <$> l)) <$> Meta.features metadata
  ∧ Json.get (Answers.encode metadata) "integrations"
    = (λ l, Json.Array (Json.Text <$> l)) <$> Meta.integrations metadata
  ∧ Json.get (Answers.encode metadata) "modules"
    = (λ l, Json.Array (Json.Text <$> l)) <$> Meta.modules metadata
  ∧ Json.get (Answers.encode metadata) "keywords"
    = (λ l, Json.Array (Json.Text <$> l)) <$> Meta.keywords metadata.
Proof.
  destruct metadata as [c p i mo ig f cx s k].
  unfold Answers.encode, Json.get.
  cbn [Meta.customer Meta.project Meta.industry Meta.modules
       Meta.integrations Meta.features Meta.complexity Meta.summary
       Meta.keywords].
  rewrite !member_app, !member_text_member, !member_list_member.
  repeat split; vm_compute;
    first [by destruct c|by destruct p|by destruct i|by destruct s
          |by destruct f|by destruct ig|by destruct mo|by destruct k].
Qed.

Lemma items_text_texts (l : list string) :
  Json.items_text number_text (Json.Text <$> l) = Returned l.
Proof.
  unfold Json.items_text. induction l as [|s l IH]; [done|].
  cbn [fmap list_fmap Json.each Json.item_text Json.to_string] in *.
  simpl. by rewrite IH.
Qed.

Lemma interpolate_text (field : option string) :
  Answers.interpolate number_text (Json.Text <$> field)
  = Returned (Str.interpolate field).
Proof. by destruct field. Qed.

Lemma joined_list (field : option (list string)) :
  Answers.joined number_text
    ((λ l, Json.Array (Json.Text <$> l)) <$> field)
  = Returned (join_field field).
Proof.
  destruct field as [l|]; [|done]. simpl. by rewrite items_text_texts.
Qed.

(** On a metadata object the text is the one of the model. *)
Lemma createEmbeddingText_encode (metadata : Meta.t) :
  Answers.createEmbeddingText number_text (Answers.encode metadata)
  = Returned (createEmbeddingText metadata).
Proof.
  destruct (get_encode metadata)
    as (Hc & Hp & Hi & Hs & Hf & Hig & Hm & Hk).
  unfold Answers.createEmbeddingText.
  rewrite Hc, Hp, Hi, Hs, Hf, Hig, Hm, Hk.
  rewrite !interpolate_text, !joined_list. reflexivity.
Qed.

Lemma interpolate_throws (field : option Json.t) :
  Answers.interpolate number_text field = Thrown
  ↔ ∃ value, field = Some value ∧ value ≠ Json.Null
             ∧ Json.to_string number_text value = Thrown.
Proof.
  destruct field as [value|]; simpl.
  - split.
    + intros Hthrown. exists value. split; [done|]. split; [|done].
      by intros ->.
    + by intros (? & [= <-] & _ & ?).
  - split; [done|]. by intros (? & [=] & _).
Qed.

Lemma joined_throws (field : option Json.t) :
  Answers.joined number_text field = Thrown
  ↔ ∃ value, field = Some value ∧ value ≠ Json.Null
             ∧ (Json.is_array value = false
                ∨ Json.to_string number_text value = Thrown).
Proof.
  destruct field as [value|]; [|split; [done|by intros (? & [=] & _)]].
  split.
  - intros Hthrown. exists value. split; [done|].
    destruct value as [|b|x|s|items|members]; try done; try (split; auto; done).
    split; [done|]. right. rewrite to_string_Array.
    simpl in Hthrown. by destruct (Json.items_text number_text items).
  - intros (v & [= <-] & Hnull & [Harray|Hthrown]).
    + by destruct value.
    + destruct value as [|b|x|s|items|members]; try done.
      rewrite to_string_Array in Hthrown. simpl.
      by destruct (Json.items_text number_text items).
Qed.

(** A sequence of conversions throws when one of them does. *)
Lemma sequence_throws (o1 o2 o3 o4 o5 o6 o7 o8 : outcome string)
    (f : string → string → string → string → string → string → string
         → string → string) :
  (x1 ← o1; x2 ← o2; x3 ← o3; x4 ← o4; x5 ← o5; x6 ← o6; x7 ← o7; x8 ← o8;
   Returned (f x1 x2 x3 x4 x5 x6 x7 x8)) = Thrown
  ↔ o1 = Thrown ∨ o2 = Thrown ∨ o3 = Thrown ∨ o4 = Thrown ∨ o5 = Thrown
    ∨ o6 = Thrown ∨ o7 = Thrown ∨ o8 = Thrown.
Proof.
  destruct o1, o2, o3, o4, o5, o6, o7, o8; simpl; split; try done;
    try tauto; intros Hor; repeat (destruct Hor as [?|Hor]; [done|]); done.
Qed.

Ltac text_field key H :=
  let v := fresh "v" in
  destruct H as (v & ? & ? & ?); right; exists key, v;
  (split; [by apply (bool_decide_unpack _)|done]).

Ltac list_field key H :=
  let v := fresh "v" in
  destruct H as (v & ? & ? & [?|?]); [left|right]; exists key, v;
  (split; [by apply (bool_decide_unpack _)|done]).

Ltac one_of_them := first [left; by eauto 10|right; one_of_them|by eauto 10].

(** The values [createEmbeddingText] throws on. *)
Lemma createEmbeddingText_throws (metadata : Json.t) :
  Answers.createEmbeddingText number_text metadata = Thrown
  ↔ Answers.unreadable number_text metadata.
Proof.
  assert (∀ value : Json.t,
            (∀ key, Json.get value key = None) → value ≠ Json.Null →
            Answers.createEmbeddingText number_text value ≠ Thrown
            ∧ ¬ Answers.unreadable number_text value) as Hplain.
  { intros value Hnone Hnull. split.
    - unfold Answers.createEmbeddingText. rewrite !Hnone. by destruct value.
    - intros [?|[(k & v & _ & Hget & _)|(k & v & _ & Hget & _)]];
        [done|by rewrite Hnone in Hget..]. }
  destruct metadata as [|b|x|s|items|members].
  - split; [by left|done].
  - destruct (Hplain (Json.Bool b)); [done|done|tauto].
  - destruct (Hplain (Json.Number x)); [done|done|tauto].
  - destruct (Hplain (Json.Text s)); [done|done|tauto].
  - destruct (Hplain (Json.Array items)); [done|done|tauto].
  - unfold Answers.createEmbeddingText, Answers.unreadable.
    rewrite (sequence_throws _ _ _ _ _ _ _ _
               (λ x1 x2 x3 x4 x5 x6 x7 x8, Str.trim _)).
    rewrite !interpolate_throws, !joined_throws.
    split.
    + intros [H|[H|[H|[H|[H|[H|[H|H]]]]]]]; right.
      * text_field "customer" H.
      * text_field "project" H.
      * text_field "industry" H.
      * list_field "features" H.
      * list_field "integrations" H.
      * list_field "modules" H.
      * text_field "summary" H.
      * list_field "keywords" H.
    + intros [?|[(k & v & Hk & Hv & Hn & Ht)|(k & v & Hk & Hv & Hn & Ht)]];
        [done|..];
        repeat (apply elem_of_cons in Hk as [->|Hk]);
        try (by apply elem_of_nil in Hk); one_of_them.
Qed.

End Rendering.

End AnswerFacts.

Module FailedFiles.

Import Reading.

(** X23.  The text [createEmbeddingText] makes of the answer of the
    language model, whatever the answer holds.  It throws exactly when the
    answer is [null], or one of the fields [features], [integrations],
    [modules] and [keywords] is present and neither [null] nor an array,
    or a field that is read cannot be converted to a string; on a metadata
    object with strings and lists of strings it returns the text of the
    model. *)
Theorem createEmbeddingText_throws_iff :
  ∀ (number_text : float → string) (metadata : Json.t),
    (Answers.createEmbeddingText number_text metadata = Thrown
     ↔ metadata = Json.Null
       ∨ (∃ key value,
            key ∈ ["features"; "integrations"; "modules"; "keywords"]
            ∧ Json.get metadata key = Some value
            ∧ value ≠ Json.Null
            ∧ Json.is_array value = false)
       ∨ (∃ key value,
            key ∈ ["customer"; "project"; "industry"; "features";
                   "integrations"; "modules"; "summary"; "keywords"]
            ∧ Json.get metadata key = Some value
            ∧ value ≠ Json.Null
            ∧ Json.to_string number_text value = Thrown))
    ∧ ∀ typed : Meta.t,
        Answers.createEmbeddingText number_text (Answers.encode typed)
        = Returned (createEmbeddingText typed).
Proof.
  intros number_text metadata. split.
  - apply AnswerFacts.createEmbeddingText_throws.
  - apply AnswerFacts.createEmbeddingText_encode.
Qed.

Lemma driveMetadata_typed (gemini : Gemini) (text fileName : string) :
  Answers.driveMetadata (Answers.of_typed gemini) text fileName
  = Answers.encode (GDriveIndexer.extractMetadata gemini text fileName).
Proof.
  unfold Answers.driveMetadata, GDriveIndexer.extractMetadata.
  cbn [Answers.parsed Answers.of_typed].
  by destruct (generateMetadata gemini fileName _).
Qed.

Lemma sowMetadata_typed (gemini : Gemini) (path : Path)
    (text filePath : string) :
  Answers.sowMetadata (Answers.of_typed gemini) path text filePath
  = Answers.encode (SowIndexer.extractMetadata gemini path text filePath).
Proof.
  unfold Answers.sowMetadata, SowIndexer.extractMetadata.
  cbn [Answers.parsed Answers.of_typed].
  by destruct (generateMetadata gemini _ _).
Qed.

(** The steps behind the download, on a metadata value. *)
Lemma embedding_steps_throw (number_text : float → string)
    (gemini : Answers.Client) (metadata : Json.t) (A : Type)
    (last : outcome A) :
  (embeddingText ← Answers.createEmbeddingText number_text metadata;
   _ ← Answers.embed gemini embeddingText;
   last) = Thrown
  ↔ Answers.unreadable number_text metadata
    ∨ (∃ t, Answers.createEmbeddingText number_text metadata = Returned t
            ∧ Answers.embed gemini t = Thrown)
    ∨ ((∃ t e, Answers.createEmbeddingText number_text metadata = Returned t
               ∧ Answers.embed gemini t = Returned e)
       ∧ last = Thrown).
Proof.
  rewrite <- AnswerFacts.createEmbeddingText_throws.
  destruct (Answers.createEmbeddingText number_text metadata) as [|t]; simpl.
  { split; [by left|done]. }
  destruct (Answers.embed gemini t) as [|e] eqn:He; simpl.
  - split; [|done]. intros _. right. left. by exists t.
  - split.
    + intros Hlast. right. right. split; [by exists t, e|done].
    + intros [?|[(t' & [= <-] & ?)|[_ ?]]]; [done|congruence|done].
Qed.

(** X9.  What makes the Drive indexer count a file as failed, whatever
    the language model answers: the text of the file was downloaded and
    has more than 100 characters, and then [createEmbeddingText] threw on
    the metadata (the answer, or the metadata of the file name when no
    answer is read), or the embedding request threw, or the metadata is a
    boolean, a number or a string, to which no embedding can be assigned.
    A failed download never fails a file.  When the answers are metadata
    objects of the model these are the files the model counts as
    failed. *)
Theorem drive_file_fails_iff :
  ∀ (number_text : float → string) (gemini : Answers.Client)
    (drive : Drive) (file : DriveFile.t),
    (Answers.driveFile number_text gemini drive file = Thrown
     ↔ ∃ text,
         GDriveIndexer.downloadFile drive file = Some text
         ∧ 100 < String.length text
         ∧ (Answers.unreadable number_text
              (Answers.driveMetadata gemini text (DriveFile.name file))
            ∨ (∃ t,
                 Answers.createEmbeddingText number_text
                   (Answers.driveMetadata gemini text (DriveFile.name file))
                 = Returned t
                 ∧ Answers.embed gemini t = Thrown)
            ∨ Json.is_primitive
                (Answers.driveMetadata gemini text (DriveFile.name file))
              = true))
    ∧ ∀ (typed : Gemini) (st : Run),
        Answers.driveFile number_text (Answers.of_typed typed) drive file
        = Thrown
        ↔ failed (GDriveIndexer.step typed drive st file) = S (failed st).
Proof.
  intros number_text gemini drive file. split.
  - unfold Answers.driveFile.
    destruct (GDriveIndexer.downloadFile drive file) as [text|];
      cbn [GDriveIndexer.has_enough_text default from_option id].
    2: { split; [done|]. by intros (? & [=] & _). }
    destruct (100 <? String.length text) eqn:Hlen.
    2: { apply Nat.ltb_ge in Hlen. split; [done|].
         intros (? & [= <-] & ? & _). lia. }
    apply Nat.ltb_lt in Hlen. rewrite embedding_steps_throw.
    split.
    + intros Hcause. exists text. split; [done|]. split; [done|].
      destruct Hcause as [?|[?|[_ Hprimitive]]]; [by left|by right; left|].
      right. right. revert Hprimitive.
      by destruct (Json.is_primitive _).
    + intros (? & [= <-] & _ & Hcause).
      destruct Hcause as [?|[?|Hprimitive]]; [by left|by right; left|].
      destruct (Answers.createEmbeddingText number_text _) as [|t] eqn:Ht.
      { left. by apply AnswerFacts.createEmbeddingText_throws. }
      destruct (Answers.embed gemini t) as [|e] eqn:He.
      { right. left. by exists t. }
      right. right. split; [by exists t, e|]. by rewrite Hprimitive.
  - intros typed st.
    rewrite (proj1 (FailureCauses.drive_step_fails typed drive st file)).
    unfold Answers.driveFile.
    destruct (GDriveIndexer.downloadFile drive file) as [text|];
      cbn [GDriveIndexer.has_enough_text default from_option id].
    2: { split; [done|]. by intros (? & [=] & _). }
    destruct (100 <? String.length text) eqn:Hlen.
    2: { apply Nat.ltb_ge in Hlen. split; [done|].
         intros (? & [= <-] & ? & _). lia. }
    apply Nat.ltb_lt in Hlen.
    rewrite driveMetadata_typed, AnswerFacts.createEmbeddingText_encode.
    simpl.
    destruct (generateEmbedding typed _) as [|e] eqn:He; simpl.
    + split; [|done]. intros _. by exists text.
    + split; [done|]. intros (? & [= <-] & _ & ?). congruence.
Qed.

(** X9, witness: the answer holds the features as one string, and the
    file is counted as failed although every request succeeds. *)
Lemma drive_file_fails_iff_witness :
  Answers.driveFile (λ _, EmptyString)
    {| Answers.embed := λ _, Returned (Some [1; 0]%float);
       Answers.parsed := λ _ _,
         Some (Json.Object
                 [("customer", Json.Text "Acme");
                  ("features", Json.Text "IVR, queue")]) |}
    (Sample.drive_exporting (Some (Sample.text_of_length 120)))
    (Sample.google_doc "1" "Acme SOW")
  = Thrown.
Proof.
  apply (proj1 (drive_file_fails_iff _ _ _ _)).
  exists (Sample.text_of_length 120).
  split; [reflexivity|]. split; [apply Nat.ltb_lt; reflexivity|].
  left. right. left. exists "features", (Json.Text "IVR, queue").
  split; [by apply (bool_decide_unpack _)|].
  split; [reflexivity|]. split; [discriminate|reflexivity].
Defined.

(** X10.  What makes the directory indexer count a file as failed,
    whatever the language model answers: the parser of its extension
    threw, or the text has at least 100 characters and then
    [createEmbeddingText] threw on the metadata (the answer, or the
    fallback metadata when no answer is read) or the embedding request
    threw.  When the answers are metadata objects of the model these are
    the files the model counts as failed. *)
Theorem directory_file_fails_iff :
  ∀ (number_text : float → string) (gemini : Answers.Client) (path : Path)
    (parsers : Parsers) (file : string),
    (Answers.sowFile number_text gemini path parsers file = Thrown
     ↔ read_text path parsers file Thrown
       ∨ ∃ text,
           read_text path parsers file (Returned (Some text))
           ∧ 100 ≤ String.length text
           ∧ (Answers.unreadable number_text
                (Answers.sowMetadata gemini path text file)
              ∨ ∃ t,
                  Answers.createEmbeddingText number_text
                    (Answers.sowMetadata gemini path text file)
                  = Returned t
                  ∧ Answers.embed gemini t = Thrown))
    ∧ ∀ (typed : Gemini) (st : Run),
        Answers.sowFile number_text (Answers.of_typed typed) path parsers file
        = Thrown
        ↔ failed (SowIndexer.step typed path parsers st file)
          = S (failed st).
Proof.
  intros number_text gemini path parsers file.
  assert (∀ (client : Answers.Client) (read : outcome (option string)),
            (read ≫= Answers.sowText number_text client path file) = Thrown
            ↔ read = Thrown
              ∨ ∃ text,
                  read = Returned (Some text)
                  ∧ 100 ≤ String.length text
                  ∧ (Answers.unreadable number_text
                       (Answers.sowMetadata client path text file)
                     ∨ ∃ t,
                         Answers.createEmbeddingText number_text
                           (Answers.sowMetadata client path text file)
                         = Returned t
                         ∧ Answers.embed client t = Thrown)) as Hread.
  { intros client [|[text|]]; simpl.
    - split; [by left|done].
    - unfold Answers.sowText. simpl.
      destruct (String.length text <? 100) eqn:Hlen.
      + apply Nat.ltb_lt in Hlen. split; [done|].
        intros [?|(t & [= <-] & Hlong & _)]; [done|lia].
      + apply Nat.ltb_ge in Hlen. rewrite embedding_steps_throw. split.
        * intros Hcause. right. exists text. split; [done|]. split; [done|].
          destruct Hcause as [?|[?|[_ ?]]]; [by left|by right|done].
        * intros [?|(t & [= <-] & _ & [?|?])];
            [done|by left|by right; left].
    - unfold Answers.sowText. simpl. split; [done|].
      by intros [?|(t & [=] & _)]. }
  assert (∀ (client : Answers.Client),
            Answers.sowFile number_text client path parsers file = Thrown
            ↔ read_text path parsers file Thrown
              ∨ ∃ text,
                  read_text path parsers file (Returned (Some text))
                  ∧ 100 ≤ String.length text
                  ∧ (Answers.unreadable number_text
                       (Answers.sowMetadata client path text file)
                     ∨ ∃ t,
                         Answers.createEmbeddingText number_text
                           (Answers.sowMetadata client path text file)
                         = Returned t
                         ∧ Answers.embed client t = Thrown)) as Hfile.
  { intros client. unfold Answers.sowFile, read_text.
    destruct (decide (Str.toLowerCase (extname path file) = ".docx"))
      as [Hdocx|Hdocx].
    - rewrite (Hread client (extractTextFromDocx parsers file)), Hdocx.
      split.
      + intros [Hthrown|(text & Htext & Hrest)]; [left; by left|].
        right. exists text. split; [by left|done].
      + intros [[[_ ?]|[[=] _]]|(text & [[_ ?]|[[=] _]] & Hrest)];
          [by left|right; by exists text].
    - destruct (decide (Str.toLowerCase (extname path file) = ".pdf"))
        as [Hpdf|Hpdf].
      + rewrite (Hread client (extractTextFromPdf parsers file)), Hpdf.
        split.
        * intros [Hthrown|(text & Htext & Hrest)]; [left; by right|].
          right. exists text. split; [by right|done].
        * intros [[[[=] _]|[_ ?]]|(text & [[[=] _]|[_ ?]] & Hrest)];
            [by left|right; by exists text].
      + split; [done|].
        intros [[[? _]|[? _]]|(text & [[? _]|[? _]] & _)]; done. }
  split; [apply Hfile|].
  intros typed st.
  rewrite (FailureCauses.directory_step_fails typed path parsers st file).
  rewrite Hfile. f_equiv. f_equiv. intros text. f_equiv. f_equiv.
  rewrite sowMetadata_typed.
  rewrite (AnswerFacts.createEmbeddingText_encode number_text).
  split.
  - intros [Hbad|(t & [= <-] & ?)]; [|done].
    apply AnswerFacts.createEmbeddingText_throws in Hbad.
    by rewrite AnswerFacts.createEmbeddingText_encode in Hbad.
  - intros Hthrown. right. by eexists.
Qed.

End FailedFiles.
